(** * LNS matheuristics for MIP (orcs): solution pool, abort callback,
      Rothberg's solution polishing and Maravilha's biased recombination

    A shallow embedding of [solution_pool.cpp], [abort_callback.cpp],
    [rothberg.cpp] and [maravilha.cpp], and after them of
    [pool_callback.cpp], [heuristic_callback.cpp], the draws by which
    Maravilha's heuristic builds its sub-MIP, and [cxxproperties.hpp].

    Numbers.  A [double] is the rational it denotes ([Q]), and the literal
    [1e-5] is the double nearest to 1/100000.  The result of an operation
    is rounded as the processor rounds it, to the nearest double with ties
    to even ([Binary64.round]), where the program compares a difference or
    a sum of doubles with its tolerance (the pool's similarity test and its
    comparator, the test of the abort callback, the tests for a binary
    variable, for an improved incumbent and for agreeing solutions in the
    heuristics), where it divides the timer's count, and where it updates
    an adaptive parameter (fixing fraction, offset, bounds of the window).
    The product that counts the variables a mutation fixes and the
    arithmetic of Maravilha's draws (biases, differences, sub-MIP size) are
    exact: there rounding is outside the model.  So are infinities and NaN;
    the one quotient that finite operands can make 0.0 / 0.0 (the bias of
    Maravilha's heuristic) is kept apart from the numbers.  Unsigned 64-bit
    counters are integers with the wrap-around written out.

    Undefined behaviour.  An index past the end of a vector or of an
    [IloNumArray], an integer remainder by zero and the conversion to
    [std::size_t] of a [double] outside its range make the operation return
    [Undefined] instead of a value.  What [std::sort] does with a comparator
    that is no strict weak ordering is not among them: the model sorts all
    the same, and the requirement is stated apart.

    The outside world.  The CPLEX sub-MIP solver, the Mersenne twister and
    the timer are inputs: every call of [run] receives, per loop iteration,
    the values that [random_()], [timer->count()] and [cplex.solve()]
    produced there. *)

From Stdlib Require Import QArith Qabs Qround Qminmax Qpower Lqa ZArith Lia List Permutation Sorted.
From Stdlib Require PrimFloat FloatOps SpecFloat.
From stdpp Require Import base list relations strings gmap.
Import ListNotations.

Local Open Scope Q_scope.

(** ** Numbers *)

Definition IloNum : Type := Q.

(** [std::numeric_limits<double>::max()]. *)
Definition DBL_MAX : Q := inject_Z (2 ^ 1024 - 2 ^ 971).

(** [std::numeric_limits<unsigned long long>::max()]. *)
Definition ULLONG_MAX : Z := (2 ^ 64 - 1)%Z.

(** Conversion of an integer to [unsigned long long]. *)
Definition to_ull (z : Z) : Z := (z mod 2 ^ 64)%Z.

(** [a < b] on doubles. *)
Definition Qltb (a b : Q) : bool := negb (Qle_bool b a).

(** [std::max(a, b)]: [(a < b) ? b : a]. *)
Definition std_max (a b : Q) : Q := if Qltb a b then b else a.

(** [std::min(a, b)]: [(b < a) ? b : a]. *)
Definition std_min (a b : Q) : Q := if Qltb b a then b else a.

(** Arithmetic on doubles.  A sum, difference, product or quotient of two
    doubles is the exact one rounded to the nearest double, a tie going to
    the double whose last bit is 0. *)
Module Binary64.

(** The [e] with [2^e <= x < 2^(e+1)], for a positive [x]. *)
Definition ilog2 (x : Q) : Z :=
  let k := (Z.log2 (Qnum x) - Z.log2 (Zpos (Qden x)))%Z in
  if Qle_bool (2 ^ k) x then k else (k - 1)%Z.

(** The exponent of the unit in the last place of the doubles around
    [x]: 52 binary places below the leading one, and -1074 throughout the
    subnormal numbers. *)
Definition ulp_exponent (x : Q) : Z :=
  Z.max (ilog2 (Qabs (Qred x)) - 52) (-1074).

(** The nearest integer, a tie going to the even one. *)
Definition nearest_even (y : Q) : Z :=
  let f := Qfloor y in
  match Qcompare (y - inject_Z f) (1 # 2) with
  | Lt => f
  | Gt => (f + 1)%Z
  | Eq => if Z.even f then f else (f + 1)%Z
  end.

(** The double nearest to [x].  There is no infinity here: past the
    largest double the result is the nearest multiple of the unit in the
    last place there. *)
Definition round (x : Q) : Q :=
  inject_Z (nearest_even (x / 2 ^ ulp_exponent x)) * 2 ^ ulp_exponent x.

(** [x] is a finite double: rounding leaves it, and it is within the
    largest double. *)
Definition is_double (x : Q) : Prop := round x == x /\ Qabs x <= DBL_MAX.

(** The literal [1e-5]: the double nearest to 1/100000, which is
    [0x1.4f8b588e368f1p-17], a little above it. *)
Definition d1e_5 : Q := 5902958103587057 # 590295810358705651712.

End Binary64.

(** [IloObjective::Sense]. *)
Inductive Sense : Type := Minimize | Maximize.

(** ** Results of operations that may be undefined *)

Inductive Fault : Type :=
| DivisionByZero   (* integer [%] with a zero divisor *)
| OutOfRange       (* [operator[]] past the end *)
| BadConversion.   (* a [double] outside the range of [std::size_t], converted to it *)

Inductive Outcome (A : Type) : Type :=
| Ok (a : A)
| Undefined (f : Fault).
Arguments Ok {A} a.
Arguments Undefined {A} f.

Definition bind {A B : Type} (m : Outcome A) (k : A -> Outcome B) : Outcome B :=
  match m with
  | Ok a => k a
  | Undefined f => Undefined f
  end.

Notation "x <- m ;; k" := (bind m (fun x => k))
  (at level 100, m at next level, right associativity).

(** [v[i]] on a [std::vector] or an [IloNumArray]. *)
Definition at_index {A : Type} (v : list A) (i : nat) : Outcome A :=
  match v !! i with
  | Some a => Ok a
  | None => Undefined OutOfRange
  end.

(** [a % b] on unsigned integers. *)
Definition umod (a b : Z) : Outcome Z :=
  if (b =? 0)%Z then Undefined DivisionByZero else Ok (a mod b)%Z.

(** [for (i = 0; i < src.getSize(); ++i) dst[i] = src[i];]: the first
    [length src] cells of [dst] are overwritten, the others stay. *)
Fixpoint overwrite (dst src : list IloNum) : Outcome (list IloNum) :=
  match src with
  | [] => Ok dst
  | s :: src' =>
      match dst with
      | [] => Undefined OutOfRange
      | _ :: dst' => r <- overwrite dst' src' ;; Ok (s :: r)
      end
  end.

(** [for (i = 0; i < dst.getSize(); ++i) dst[i] = src[i];]: every cell of
    [dst] is overwritten, reading as many cells of [src]. *)
Fixpoint assign_all (dst src : list IloNum) : Outcome (list IloNum) :=
  match dst with
  | [] => Ok []
  | _ :: dst' =>
      match src with
      | [] => Undefined OutOfRange
      | s :: src' => r <- assign_all dst' src' ;; Ok (s :: r)
      end
  end.

(** [std::sort(first, last, comp)].  The standard fixes the result only
    where [comp] is a strict weak ordering on the range: the range ordered
    by [comp].  Insertion sort computes it ([std_sort_unique] below, for a
    [comp] that is total on the range, as the pool's is between entries of
    different ages).  Where the pool's comparator is not transitive the
    standard promises nothing; the model still returns the insertion sort,
    and the statements below rely on no more of it than that it permutes
    the range and leaves no two neighbours the wrong way round. *)
Fixpoint sort_insert {A : Type} (comp : A -> A -> bool) (x : A) (l : list A) : list A :=
  match l with
  | [] => [x]
  | y :: l' => if comp x y then x :: y :: l' else y :: sort_insert comp x l'
  end.

Fixpoint std_sort {A : Type} (comp : A -> A -> bool) (l : list A) : list A :=
  match l with
  | [] => []
  | x :: l' => sort_insert comp x (std_sort comp l')
  end.

(** ** solution_pool.h, solution_pool.cpp *)

Module SolutionPool.

Definition SIMILARITY_THRESHOLD : Q := Binary64.d1e_5.

Record Entry : Type := mkEntry {
  solution : list IloNum;
  value : IloNum;
  age : Z
}.

Record t : Type := mk {
  sense_ : Sense;
  sorted_ : bool;
  next_age_ : Z;
  max_size_ : nat;
  entries_ : list Entry
}.

(** The constructor. *)
Definition new (sense : Sense) (max_size : nat) (sorted : bool) : t :=
  {| sense_ := sense; sorted_ := sorted; next_age_ := ULLONG_MAX;
     max_size_ := max_size; entries_ := [] |}.

Definition get_entries (p : t) : list Entry := entries_ p.
Definition size (p : t) : nat := length (entries_ p).
Definition max_size (p : t) : nat := max_size_ p.

(** Lines 36-42: the inner loop over the coordinates of [solution];
    [false] as soon as one coordinate differs by more than the threshold. *)
Fixpoint equal (solution stored : list IloNum) : Outcome bool :=
  match solution with
  | [] => Ok true
  | x :: solution' =>
      match stored with
      | [] => Undefined OutOfRange
      | y :: stored' =>
          if Qltb SIMILARITY_THRESHOLD (Qabs (Binary64.round (x - y))) then Ok false
          else equal solution' stored'
      end
  end.

(** Lines 29-30: the initial [worst_val]. *)
Definition worst_init (sense : Sense) : IloNum :=
  match sense with Minimize => - DBL_MAX | Maximize => DBL_MAX end.

(** Lines 49-51: [v] is worse than [worst_val]. *)
Definition worse (sense : Sense) (v worst_val : IloNum) : bool :=
  match sense with Minimize => Qltb worst_val v | Maximize => Qltb v worst_val end.

(** Lines 71-73: [value] is better than [worst_val]. *)
Definition better (sense : Sense) (value worst_val : IloNum) : bool :=
  match sense with Minimize => Qltb value worst_val | Maximize => Qltb worst_val value end.

(** What the loop of lines 33-55 ends with: the early [return false], or
    the index and value of the worst entry. *)
Inductive Scan : Type :=
| Similar
| Worst (worst_idx : nat) (worst_val : IloNum).

(** Lines 33-55, from index [i] on, [es] being the entries not yet seen. *)
Fixpoint scan (sense : Sense) (solution : list IloNum) (es : list Entry)
    (i worst_idx : nat) (worst_val : IloNum) : Outcome Scan :=
  match es with
  | [] => Ok (Worst worst_idx worst_val)
  | e :: es' =>
      same <- equal solution (SolutionPool.solution e) ;;
      if same : bool then Ok Similar
      else if worse sense (value e) worst_val
           then scan sense solution es' (S i) i (value e)
           else scan sense solution es' (S i) worst_idx worst_val
  end.

(** Lines 87-95: the comparator given to [std::sort]. *)
Definition before (sense : Sense) (entry1 entry2 : Entry) : bool :=
  if Qltb (Qabs (Binary64.round (value entry1 - value entry2))) SIMILARITY_THRESHOLD
  then (age entry1 <? age entry2)%Z
  else match sense with
       | Minimize => Qltb (value entry1) (value entry2)
       | Maximize => Qltb (value entry2) (value entry1)
       end.

(** Lines 57-82: the entries after the attempt, [None] when nothing was
    inserted. *)
Definition try_insert (p : t) (solution : list IloNum) (value : IloNum)
    (worst_idx : nat) (worst_val : IloNum) : Outcome (option (list Entry)) :=
  if (length (entries_ p) <? max_size_ p)%nat then
    Ok (Some (entries_ p ++ [mkEntry solution value (next_age_ p)]))
  else if better (sense_ p) value worst_val then
    old <- at_index (entries_ p) worst_idx ;;
    cells <- overwrite (SolutionPool.solution old) solution ;;
    Ok (Some (<[worst_idx := mkEntry cells value (next_age_ p)]> (entries_ p)))
  else Ok None.

(** [add_entry]: the returned flag and the pool afterwards. *)
Definition add_entry (p : t) (solution : list IloNum) (value : IloNum)
    : Outcome (bool * t) :=
  s <- scan (sense_ p) solution (entries_ p) 0 0 (worst_init (sense_ p)) ;;
  match s with
  | Similar => Ok (false, p)
  | Worst worst_idx worst_val =>
      ins <- try_insert p solution value worst_idx worst_val ;;
      match ins with
      | None => Ok (false, p)
      | Some es =>
          Ok (true,
              {| sense_ := sense_ p; sorted_ := sorted_ p;
                 next_age_ := to_ull (next_age_ p - 1);
                 max_size_ := max_size_ p;
                 entries_ := if sorted_ p then std_sort (before (sense_ p)) es else es |})
      end
  end.

(** A sequence of [add_entry] calls; the flags are dropped. *)
Fixpoint add_entries (p : t) (cands : list (list IloNum * IloNum)) : Outcome t :=
  match cands with
  | [] => Ok p
  | (solution, value) :: cands' =>
      r <- add_entry p solution value ;;
      add_entries (snd r) cands'
  end.

End SolutionPool.

(** ** abort_callback.h, abort_callback.cpp *)

(** [timer != nullptr && timer->count<milliseconds>() / 1000.0 >= time_limit],
    [clock_ms] being what [count] returns. *)
Definition time_reached (timer : bool) (clock_ms : Z) (time_limit : Q) : bool :=
  timer && Qle_bool time_limit (Binary64.round (Binary64.round (inject_Z clock_ms) / 1000)).

Module AbortCallback.

Record t : Type := mk {
  timer_ : bool;                 (* [timer_ != nullptr] *)
  time_limit_ : Q;
  nodes_limit_ : Z;              (* unsigned long long *)
  nodes_unsuccessful_ : Z;       (* unsigned long long *)
  initialized_ : bool;
  aborted_ : bool;
  obj_last_incumbent_ : IloNum;
  nodes_last_incumbent_ : Z      (* IloInt64 *)
}.

(** What one call of [main] reads: the timer, [getNnodes64()] and
    [getIncumbentObjValue()]. *)
Record Info : Type := mkInfo {
  clock_ms : Z;
  Nnodes64 : Z;
  IncumbentObjValue : IloNum
}.

(** [create_instance], that is the constructor.  It leaves
    [obj_last_incumbent_] and [nodes_last_incumbent_] unset: [obj0] and
    [nodes0] stand for whatever they hold. *)
Definition create_instance (timer : bool) (time_limit : Q) (nodes_limit nodes_unsuccessful : Z)
    (obj0 : IloNum) (nodes0 : Z) : t :=
  {| timer_ := timer; time_limit_ := time_limit; nodes_limit_ := nodes_limit;
     nodes_unsuccessful_ := nodes_unsuccessful; initialized_ := false;
     aborted_ := false; obj_last_incumbent_ := obj0; nodes_last_incumbent_ := nodes0 |}.

Definition set_aborted (c : t) : t :=
  {| timer_ := timer_ c; time_limit_ := time_limit_ c; nodes_limit_ := nodes_limit_ c;
     nodes_unsuccessful_ := nodes_unsuccessful_ c; initialized_ := initialized_ c;
     aborted_ := true; obj_last_incumbent_ := obj_last_incumbent_ c;
     nodes_last_incumbent_ := nodes_last_incumbent_ c |}.

(** [initialized_ = true] (a no-op when it already is) and the two
    assignments of lines 51-52 and 60-61. *)
Definition set_last (c : t) (obj : IloNum) (nodes : Z) : t :=
  {| timer_ := timer_ c; time_limit_ := time_limit_ c; nodes_limit_ := nodes_limit_ c;
     nodes_unsuccessful_ := nodes_unsuccessful_ c; initialized_ := true;
     aborted_ := aborted_ c; obj_last_incumbent_ := obj;
     nodes_last_incumbent_ := nodes |}.

(** [main]: the callback afterwards, and whether [abort()] was called.
    The signed node counts meet the unsigned limits after conversion to
    [unsigned long long]. *)
Definition main (c : t) (i : Info) : t * bool :=
  if aborted_ c then (c, false)
  else if time_reached (timer_ c) (clock_ms i) (time_limit_ c) then (set_aborted c, true)
  else if (nodes_limit_ c <=? to_ull (Nnodes64 i))%Z then (set_aborted c, true)
  else if negb (initialized_ c) then
    (set_last c (IncumbentObjValue i) (Nnodes64 i), false)
  else if Qltb Binary64.d1e_5
               (Binary64.round (obj_last_incumbent_ c - IncumbentObjValue i)) then
    (set_last c (IncumbentObjValue i) (Nnodes64 i), false)
  else if (nodes_unsuccessful_ c <? to_ull (Nnodes64 i - nodes_last_incumbent_ c))%Z then
    (set_aborted c, true)
  else (c, false).

(** Successive calls of [main] during one solve; [abort()] ends it. *)
Fixpoint mains (c : t) (infos : list Info) : t * bool :=
  match infos with
  | [] => (c, false)
  | i :: infos' =>
      let r := main c i in
      if snd r then r else mains (fst r) infos'
  end.

End AbortCallback.

(** ** heuristic.h, and what the heuristics share *)

(** [Heuristic::THRESHOLD]. *)
Definition THRESHOLD : Q := Binary64.d1e_5.

(** [IloAlgorithm::Status]. *)
Inductive Status : Type :=
| Unknown | Feasible | Optimal | Infeasible | Unbounded | InfeasibleOrUnbounded | Error.

(** What the sub-MIP solver answers: the flag [cplex.solve()] returns, and
    what [getStatus], [getObjValue] and [getValues] return after it. *)
Record SubMIP : Type := mkSubMIP {
  solve : bool;
  getStatus : Status;
  getObjValue : IloNum;
  getValues : list IloNum
}.

(** The calls a heuristic makes on its sub-MIP solver and on the callback. *)
Inductive Action : Type :=
| clear                                         (* [submip_.cplex.clear()] *)
| fix_variable (index : nat) (value : IloNum)   (* [setLB(value); setUB(value)] *)
| free_variable (index : nat)                   (* [setLB], [setUB] with the problem's bounds *)
| extract                                       (* [submip_.cplex.extract(submip_.model)] *)
| addMIPStart (start : list IloNum)
| use_AbortCallback (timer : bool) (time_limit : Q) (nodes_limit nodes_unsuccessful : Z)
| solve_submip                                  (* [submip_.cplex.solve()] *)
| setSolution (solution : list IloNum).         (* [callback->setSolution] *)

(** The variables of a heuristic's [run] that change while it runs: the
    heuristic object, the pool it points to, the running incumbent, and the
    calls made so far, oldest first. *)
Record Search (H : Type) : Type := mkSearch {
  heuristic : H;
  pool : SolutionPool.t;
  incumbent_objective : IloNum;
  incumbent_solution : list IloNum;
  trace : list Action
}.
Arguments mkSearch {H} _ _ _ _ _.
Arguments heuristic {H} _.
Arguments pool {H} _.
Arguments incumbent_objective {H} _.
Arguments incumbent_solution {H} _.
Arguments trace {H} _.

Definition with_heuristic {H : Type} (s : Search H) (h : H) : Search H :=
  mkSearch h (pool s) (incumbent_objective s) (incumbent_solution s) (trace s).

Definition with_actions {H : Type} (s : Search H) (acts : list Action) : Search H :=
  mkSearch (heuristic s) (pool s) (incumbent_objective s) (incumbent_solution s)
    (trace s ++ acts).

(** [IloNumVar::Type] and the three attributes of a variable that the
    constructors read. *)
Inductive VarType : Type := Bool | Int | Float.

Record NumVar : Type := mkNumVar {
  getType : VarType;
  getLB : IloNum;
  getUB : IloNum
}.

(** The test of the constructors' loop "Identify binary variables". *)
Definition is_binary (v : NumVar) : bool :=
  match getType v with
  | Bool => true
  | Int => Qltb (Qabs (getLB v)) THRESHOLD
           && Qltb (Qabs (Binary64.round (getUB v - 1))) THRESHOLD
  | Float => false
  end.

Fixpoint binary_from (i : nat) (variables : list NumVar) : list nat :=
  match variables with
  | [] => []
  | v :: variables' =>
      if is_binary v then i :: binary_from (S i) variables'
      else binary_from (S i) variables'
  end.

(** [(x > 0.5 ? 1.0 : 0.0)]. *)
Definition round01 (x : IloNum) : IloNum := if Qltb (1 # 2) x then 1 else 0.

(** [std::round]: to the nearest integer, halfway cases away from zero. *)
Definition std_round (x : Q) : Z :=
  if Qle_bool 0 x then Qfloor (x + (1 # 2)) else Qceiling (x - (1 # 2)).

(** [(std::size_t) x] for an integral [x]. *)
Definition to_size_t (x : Z) : Outcome nat :=
  if ((x <? 0) || (ULLONG_MAX <? x))%Z then Undefined BadConversion else Ok (Z.to_nat x).

(** The test "the new solution is better than the current incumbent"
    (rothberg.cpp 124-127 and 270-273, maravilha.cpp 171-174). *)
Definition improves (sense : Sense) (value incumbent : IloNum) : bool :=
  match sense with
  | Minimize => Qltb value (Binary64.round (incumbent - THRESHOLD))
  | Maximize => Qltb (Binary64.round (incumbent + THRESHOLD)) value
  end.

(** The block "Check if some solution was found" (rothberg.cpp 109-141 and
    257-284, maravilha.cpp 156-188, the same text three times): the pool
    and the running incumbent afterwards, and [submip_has_improved]. *)
Definition harvest {H : Type} (sense : Sense) (r : SubMIP) (s : Search H)
    : Outcome (Search H * bool) :=
  if solve r then
    added <- SolutionPool.add_entry (pool s) (getValues r) (getObjValue r) ;;
    if improves sense (getObjValue r) (incumbent_objective s) then
      cells <- assign_all (incumbent_solution s) (getValues r) ;;
      Ok (mkSearch (heuristic s) (snd added) (getObjValue r) cells (trace s), true)
    else
      Ok (mkSearch (heuristic s) (snd added) (incumbent_objective s)
            (incumbent_solution s) (trace s), false)
  else Ok (s, false).

(** ** rothberg.h, rothberg.cpp *)

Module Rothberg.

Record t : Type := mk {
  binary_variables_ : list nat;
  num_recombinations_ : Z;          (* unsigned long long *)
  num_mutations_ : Z;               (* unsigned long long *)
  fixing_fraction_ : Q;
  offset_ : Q;
  offset_reduction_ : Q;
  offset_minimum_ : Q;
  submip_nodes_unsuccessful_ : Z;   (* long *)
  submip_sense_ : Sense             (* [submip_.objective.getSense()] *)
}.

(** The constructor: the parameters as [params->get] returns them, the
    two counts being [long] values stored in unsigned fields. *)
Definition new (variables : list NumVar) (sense : Sense)
    (recombinations mutations : Z)
    (fixing_fraction offset_init offset_reduction offset_minimum : Q)
    (submip_nodes_unsuccessful : Z) : t :=
  {| binary_variables_ := binary_from 0 variables;
     num_recombinations_ := to_ull recombinations;
     num_mutations_ := to_ull mutations;
     fixing_fraction_ := fixing_fraction;
     offset_ := offset_init;
     offset_reduction_ := offset_reduction;
     offset_minimum_ := offset_minimum;
     submip_nodes_unsuccessful_ := submip_nodes_unsuccessful;
     submip_sense_ := sense |}.

Definition set_binary_variables (h : t) (vars : list nat) : t :=
  {| binary_variables_ := vars;
     num_recombinations_ := num_recombinations_ h;
     num_mutations_ := num_mutations_ h;
     fixing_fraction_ := fixing_fraction_ h;
     offset_ := offset_ h;
     offset_reduction_ := offset_reduction_ h;
     offset_minimum_ := offset_minimum_ h;
     submip_nodes_unsuccessful_ := submip_nodes_unsuccessful_ h;
     submip_sense_ := submip_sense_ h |}.

Definition set_fixing_fraction (h : t) (f : Q) : t :=
  {| binary_variables_ := binary_variables_ h;
     num_recombinations_ := num_recombinations_ h;
     num_mutations_ := num_mutations_ h;
     fixing_fraction_ := f;
     offset_ := offset_ h;
     offset_reduction_ := offset_reduction_ h;
     offset_minimum_ := offset_minimum_ h;
     submip_nodes_unsuccessful_ := submip_nodes_unsuccessful_ h;
     submip_sense_ := submip_sense_ h |}.

Definition set_offset (h : t) (o : Q) : t :=
  {| binary_variables_ := binary_variables_ h;
     num_recombinations_ := num_recombinations_ h;
     num_mutations_ := num_mutations_ h;
     fixing_fraction_ := fixing_fraction_ h;
     offset_ := o;
     offset_reduction_ := offset_reduction_ h;
     offset_minimum_ := offset_minimum_ h;
     submip_nodes_unsuccessful_ := submip_nodes_unsuccessful_ h;
     submip_sense_ := submip_sense_ h |}.

(** What one mutation iteration takes from outside: the timer reading at
    its start, the values of the two [random_()] calls (the second is made
    only when the first index is not 0), [binary_variables_] as
    [std::shuffle] leaves it, and the solver's answer. *)
Record Mutation : Type := mkMutation {
  m_clock : Z;
  m_random1 : Z;
  m_random2 : Z;
  m_shuffle : list nat;
  m_submip : SubMIP
}.

(** The same for one recombination iteration; the two [random_()] calls
    are those of the pairwise branch. *)
Record Recombination : Type := mkRecombination {
  r_clock : Z;
  r_random1 : Z;
  r_random2 : Z;
  r_submip : SubMIP
}.

(** The arguments of one call of [run] and everything it reads from
    outside while it runs. *)
Record Call : Type := mkCall {
  timer : bool;                      (* [timer != nullptr] *)
  time_limit : Q;
  getIncumbentObjValue : IloNum;     (* line 55 *)
  cplex_getValues : list IloNum;     (* line 57 *)
  mutations : nat -> Mutation;
  random_consider_all : Z;           (* the [random_()] of line 168 *)
  recombinations : nat -> Recombination
}.

(** Line 81. *)
Definition count_fixed_variables (h : t) : Outcome nat :=
  to_size_t (std_round (inject_Z (Z.of_nat (length (binary_variables_ h)))
                        * fixing_fraction_ h)).

(** Lines 85-95, from position [j] of the shuffled vector on. *)
Fixpoint fix_to_seed (seed : list IloNum) (vars : list nat) (j count : nat)
    : Outcome (list Action) :=
  match vars with
  | [] => Ok []
  | index :: vars' =>
      a <- (if (j <? count)%nat
            then x <- at_index seed index ;; Ok (fix_variable index (round01 x))
            else Ok (free_variable index)) ;;
      rest <- fix_to_seed seed vars' (S j) count ;;
      Ok (a :: rest)
  end.

(** Lines 143-156. *)
Definition update_fixing_fraction (h : t) (submip_has_improved : bool)
    (submip_status : Status) : t :=
  if submip_has_improved then h
  else match submip_status with
       | Optimal | Infeasible =>
           set_fixing_fraction h
             (std_max 0 (Binary64.round (fixing_fraction_ h - offset_ h)))
       | _ =>
           set_fixing_fraction h
             (std_min 1 (Binary64.round (fixing_fraction_ h + offset_ h)))
       end.

(** Lines 159-161. *)
Definition update_offset (h : t) : t :=
  set_offset h
    (std_max (offset_minimum_ h)
       (Binary64.round (Binary64.round (1 - offset_reduction_ h) * offset_ h))).

(** The abort callback of lines 101-103 and 252-254. *)
Definition abort_callback (h : t) (c : Call) : Action :=
  use_AbortCallback (timer c) (time_limit c) ULLONG_MAX
    (to_ull (submip_nodes_unsuccessful_ h)).

(** Lines 69-156: the body of the mutation loop after the timer check. *)
Definition mutation (c : Call) (m : Mutation) (s : Search t) : Outcome (Search t) :=
  let h := heuristic s in
  idx0 <- umod (m_random1 m) (Z.of_nat (SolutionPool.size (pool s))) ;;
  idx <- (if (idx0 =? 0)%Z then Ok idx0 else umod (m_random2 m) idx0) ;;
  entry <- at_index (SolutionPool.get_entries (pool s)) (Z.to_nat idx) ;;
  count <- count_fixed_variables h ;;
  bounds <- fix_to_seed (SolutionPool.solution entry) (m_shuffle m) 0 count ;;
  let s1 :=
    with_actions (with_heuristic s (set_binary_variables h (m_shuffle m)))
      ([clear] ++ bounds ++ [extract; abort_callback h c; solve_submip]) in
  r <- harvest (submip_sense_ h) (m_submip m) s1 ;;
  Ok (with_heuristic (fst r)
        (update_fixing_fraction (heuristic (fst r)) (snd r) (getStatus (m_submip m)))).

(** Lines 62-157: [n] iterations are left, the next one has index [i]. *)
Fixpoint mutation_loop (c : Call) (n i : nat) (s : Search t) : Outcome (Search t) :=
  match n with
  | O => Ok s
  | S n' =>
      let m := mutations c i in
      if time_reached (timer c) (m_clock m) (time_limit c) then Ok s
      else s' <- mutation c m s ;; mutation_loop c n' (S i) s'
  end.

(** Lines 59-162. *)
Definition mutation_phase (c : Call) (s : Search t) : Outcome (Search t) :=
  if (1 <=? SolutionPool.size (pool s))%nat then
    s' <- mutation_loop c (Z.to_nat (num_mutations_ (heuristic s))) 0 s ;;
    Ok (with_heuristic s' (update_offset (heuristic s')))
  else Ok s.

(** Lines 189-196: does every entry from the second on hold [value] at
    [idx], up to the threshold? *)
Fixpoint agree (value : IloNum) (idx : nat) (es : list SolutionPool.Entry)
    : Outcome bool :=
  match es with
  | [] => Ok true
  | e :: es' =>
      x <- at_index (SolutionPool.solution e) idx ;;
      if Qle_bool THRESHOLD (Qabs (Binary64.round (value - x))) then Ok false
      else agree value idx es'
  end.

(** Lines 188-205: "Consider all solutions into the pool". *)
Fixpoint fix_to_consensus (es : list SolutionPool.Entry) (vars : list nat)
    : Outcome (list Action) :=
  match vars with
  | [] => Ok []
  | idx :: vars' =>
      e0 <- at_index es 0 ;;
      x0 <- at_index (SolutionPool.solution e0) idx ;;
      fixit <- agree (round01 x0) idx (drop 1 es) ;;
      rest <- fix_to_consensus es vars' ;;
      Ok ((if fixit : bool then fix_variable idx (round01 x0) else free_variable idx)
            :: rest)
  end.

(** Lines 222-231: "Consider only a pair of solutions". *)
Fixpoint fix_to_pair (solution1 solution2 : list IloNum) (vars : list nat)
    : Outcome (list Action) :=
  match vars with
  | [] => Ok []
  | idx :: vars' =>
      x1 <- at_index solution1 idx ;;
      x2 <- at_index solution2 idx ;;
      rest <- fix_to_pair solution1 solution2 vars' ;;
      Ok ((if Qltb (Qabs (Binary64.round (x1 - x2))) THRESHOLD
           then fix_variable idx (round01 x1) else free_variable idx) :: rest)
  end.

(** Line 185: which branch iteration [i] takes. *)
Inductive Mode : Type := Consensus | Pairwise.

Definition mode (i consider_all : Z) : Mode :=
  if (i =? consider_all)%Z then Consensus else Pairwise.

(** Lines 184-236: the bounds set on the sub-MIP and the start solution. *)
Definition build (i : nat) (consider_all : Z) (r : Recombination) (s : Search t)
    : Outcome (list Action * list IloNum) :=
  let es := SolutionPool.get_entries (pool s) in
  let vars := binary_variables_ (heuristic s) in
  match mode (Z.of_nat i) consider_all with
  | Consensus =>
      bounds <- fix_to_consensus es vars ;;
      e0 <- at_index es 0 ;;
      Ok (bounds, SolutionPool.solution e0)
  | Pairwise =>
      k <- umod (r_random1 r) (to_ull (Z.of_nat (SolutionPool.size (pool s)) - 1)) ;;
      let idx2 := (k + 1)%Z in
      idx1 <- umod (r_random2 r) idx2 ;;
      entry1 <- at_index es (Z.to_nat idx1) ;;
      entry2 <- at_index es (Z.to_nat idx2) ;;
      bounds <- fix_to_pair (SolutionPool.solution entry1)
                  (SolutionPool.solution entry2) vars ;;
      Ok (bounds, SolutionPool.solution entry1)
  end.

(** Lines 177-284: the body of the recombination loop after the timer
    check. *)
Definition recombination (c : Call) (consider_all : Z) (i : nat)
    (r : Recombination) (s : Search t) : Outcome (Search t) :=
  b <- build i consider_all r s ;;
  let s1 :=
    with_actions s
      ([clear] ++ fst b
       ++ [extract; addMIPStart (snd b); abort_callback (heuristic s) c; solve_submip]) in
  r' <- harvest (submip_sense_ (heuristic s)) (r_submip r) s1 ;;
  Ok (fst r').

(** Lines 170-285. *)
Fixpoint recombination_loop (c : Call) (consider_all : Z) (n i : nat) (s : Search t)
    : Outcome (Search t) :=
  match n with
  | O => Ok s
  | S n' =>
      let r := recombinations c i in
      if time_reached (timer c) (r_clock r) (time_limit c) then Ok s
      else s' <- recombination c consider_all i r s ;;
           recombination_loop c consider_all n' (S i) s'
  end.

(** Lines 164-286. *)
Definition recombination_phase (c : Call) (s : Search t) : Outcome (Search t) :=
  if (2 <=? SolutionPool.size (pool s))%nat then
    consider_all <- umod (random_consider_all c) (num_recombinations_ (heuristic s)) ;;
    recombination_loop c consider_all
      (Z.to_nat (num_recombinations_ (heuristic s))) 0 s
  else Ok s.

(** [run]: the heuristic, the pool and the incumbent it ends with, and
    the calls it made, the last of which is [setSolution]. *)
Definition run (h : t) (p : SolutionPool.t) (c : Call) : Outcome (Search t) :=
  let s0 := mkSearch h p (getIncumbentObjValue c) (cplex_getValues c) [] in
  s1 <- mutation_phase c s0 ;;
  s2 <- recombination_phase c s1 ;;
  Ok (with_actions s2 [setSolution (incumbent_solution s2)]).

End Rothberg.

(** ** maravilha.h, maravilha.cpp *)

Module Maravilha.

Record t : Type := mk {
  binary_variables_ : list nat;
  iterations_ : Z;                  (* long *)
  submip_min_ : Q;
  submip_max_ : Q;
  offset_ : Q;
  submip_nodes_unsuccessful_ : Z;   (* long *)
  submip_sense_ : Sense             (* [submip_.objective.getSense()] *)
}.

(** The constructor. *)
Definition new (variables : list NumVar) (sense : Sense) (iterations : Z)
    (submip_min submip_max offset : Q) (submip_nodes_unsuccessful : Z) : t :=
  {| binary_variables_ := binary_from 0 variables;
     iterations_ := iterations;
     submip_min_ := submip_min;
     submip_max_ := submip_max;
     offset_ := offset;
     submip_nodes_unsuccessful_ := submip_nodes_unsuccessful;
     submip_sense_ := sense |}.

Definition set_submip_min (h : t) (x : Q) : t :=
  {| binary_variables_ := binary_variables_ h;
     iterations_ := iterations_ h;
     submip_min_ := x;
     submip_max_ := submip_max_ h;
     offset_ := offset_ h;
     submip_nodes_unsuccessful_ := submip_nodes_unsuccessful_ h;
     submip_sense_ := submip_sense_ h |}.

Definition set_submip_max (h : t) (x : Q) : t :=
  {| binary_variables_ := binary_variables_ h;
     iterations_ := iterations_ h;
     submip_min_ := submip_min_ h;
     submip_max_ := x;
     offset_ := offset_ h;
     submip_nodes_unsuccessful_ := submip_nodes_unsuccessful_ h;
     submip_sense_ := submip_sense_ h |}.

(** What one iteration takes from outside: the timer reading at its
    start, the value of the [random_()] of line 81, the variables that the
    weighted draws of lines 84-91 and 113-139 make free, in that order, and
    the solver's answer.  The arithmetic of those draws (the biases, the
    differences and their running sum) is not part of the model: it only
    decides which bounds the solver is given. *)
Record Iteration : Type := mkIteration {
  i_clock : Z;
  i_random : Z;
  i_freed : list nat;
  i_submip : SubMIP
}.

(** The arguments of one call of [run] and what it reads from outside.
    The relaxed solution of lines 61-63 only enters the biases. *)
Record Call : Type := mkCall {
  timer : bool;                       (* [timer != nullptr] *)
  time_limit : Q;
  getIncumbentObjValue : IloNum;      (* line 56 *)
  getIncumbentValues : list IloNum;   (* line 58 *)
  iterations : nat -> Iteration
}.

(** Lines 95-100: every binary variable is fixed to the incumbent's
    rounded value. *)
Fixpoint fix_to_incumbent (incumbent : list IloNum) (vars : list nat)
    : Outcome (list Action) :=
  match vars with
  | [] => Ok []
  | idx :: vars' =>
      x <- at_index incumbent idx ;;
      rest <- fix_to_incumbent incumbent vars' ;;
      Ok (fix_variable idx (round01 x) :: rest)
  end.

(** Lines 190-203. *)
Definition update_submip_size (h : t) (submip_has_improved : bool)
    (submip_status : Status) : t :=
  if submip_has_improved then h
  else match submip_status with
       | Optimal | Infeasible =>
           set_submip_min h
             (Binary64.round
                (submip_min_ h
                 + Binary64.round (Binary64.round (submip_max_ h - submip_min_ h)
                                   * offset_ h)))
       | _ =>
           set_submip_max h
             (Binary64.round
                (submip_max_ h
                 - Binary64.round (Binary64.round (submip_max_ h - submip_min_ h)
                                   * offset_ h)))
       end.

(** The abort callback of lines 148-150. *)
Definition abort_callback (h : t) (c : Call) : Action :=
  use_AbortCallback (timer c) (time_limit c) ULLONG_MAX
    (to_ull (submip_nodes_unsuccessful_ h)).

(** Lines 74-203: the body of the loop after the timer check. *)
Definition iteration (c : Call) (it : Iteration) (s : Search t) : Outcome (Search t) :=
  let h := heuristic s in
  idx_pool <- umod (i_random it) (Z.of_nat (SolutionPool.size (pool s))) ;;
  entry <- at_index (SolutionPool.get_entries (pool s)) (Z.to_nat idx_pool) ;;
  fixed <- fix_to_incumbent (incumbent_solution s) (binary_variables_ h) ;;
  let s1 :=
    with_actions s
      ([clear] ++ fixed ++ map free_variable (i_freed it)
       ++ [extract; addMIPStart (incumbent_solution s); abort_callback h c;
           solve_submip]) in
  r <- harvest (submip_sense_ h) (i_submip it) s1 ;;
  Ok (with_heuristic (fst r)
        (update_submip_size (heuristic (fst r)) (snd r) (getStatus (i_submip it)))).

(** Lines 66-204: [n] iterations are left, [i] have been made. *)
Fixpoint loop (c : Call) (n i : nat) (s : Search t) : Outcome (Search t) :=
  match n with
  | O => Ok s
  | S n' =>
      let it := iterations c i in
      if time_reached (timer c) (i_clock it) (time_limit c) then Ok s
      else s' <- iteration c it s ;; loop c n' (S i) s'
  end.

(** [run]: as for Rothberg; with an empty pool nothing is done and
    [setSolution] is not called. *)
Definition run (h : t) (p : SolutionPool.t) (c : Call) : Outcome (Search t) :=
  let s0 := mkSearch h p (getIncumbentObjValue c) (getIncumbentValues c) [] in
  if (0 <? SolutionPool.size p)%nat then
    s1 <- loop c (Z.to_nat (iterations_ h)) 0 s0 ;;
    Ok (with_actions s1 [setSolution (incumbent_solution s1)])
  else Ok s0.

End Maravilha.

(** ** Notions the statements about the pool use *)

(** A finite [double]. *)
Definition finite (v : IloNum) : Prop := - DBL_MAX <= v <= DBL_MAX.

(** The pool's own similarity test (solution_pool.cpp 36-42): in no
    coordinate does the difference, as the machine rounds it, exceed the
    threshold. *)
Definition similar (solution stored : list IloNum) : Prop :=
  Forall2 (fun x y => Qabs (Binary64.round (x - y)) <= SolutionPool.SIMILARITY_THRESHOLD)
    solution stored.

(** Similarity as the specification words it: every coordinate differs by
    less than the threshold. *)
Definition similar_strictly (solution stored : list IloNum) : Prop :=
  Forall2 (fun x y => Qabs (x - y) < SolutionPool.SIMILARITY_THRESHOLD) solution stored.

(** Every stored solution has [n] coordinates. *)
Definition dimension (n : nat) (es : list SolutionPool.Entry) : Prop :=
  Forall (fun e => length (SolutionPool.solution e) = n) es.

(** [a] is strictly better than [b]; [a] is at least as good as [b]. *)
Definition strictly_better (sense : Sense) (a b : IloNum) : Prop :=
  match sense with Minimize => a < b | Maximize => b < a end.

Definition no_worse (sense : Sense) (a b : IloNum) : Prop :=
  match sense with Minimize => a <= b | Maximize => b <= a end.

(** [w] is the worst objective value stored in [es]. *)
Definition is_worst (sense : Sense) (es : list SolutionPool.Entry) (w : IloNum) : Prop :=
  Exists (fun e => SolutionPool.value e == w) es
  /\ Forall (fun e => no_worse sense (SolutionPool.value e) w) es.

(** The replacement rule as the specification words it, similarity being
    "every coordinate differs by less than the threshold". *)
Definition worst_replacement_as_stated : Prop :=
  forall p solution value w,
    SolutionPool.size p = SolutionPool.max_size p ->
    dimension (length solution) (SolutionPool.entries_ p) ->
    finite value ->
    Forall (fun e => finite (SolutionPool.value e)) (SolutionPool.entries_ p) ->
    Forall (fun e => ~ similar_strictly solution (SolutionPool.solution e))
      (SolutionPool.entries_ p) ->
    is_worst (SolutionPool.sense_ p) (SolutionPool.entries_ p) w ->
    exists b p',
      SolutionPool.add_entry p solution value = Ok (b, p')
      /\ (b = true <-> strictly_better (SolutionPool.sense_ p) value w).

(** Scenarios 1-3 of the specification: three solutions for a pool of
    size 3, and the pool they give. *)
Definition pool_scenario : list (list IloNum * IloNum) :=
  [([1; 0; 0], 10); ([0; 1; 0], 8); ([0; 0; 1], 12)].

Definition pool_full : SolutionPool.t :=
  {| SolutionPool.sense_ := Minimize; SolutionPool.sorted_ := true;
     SolutionPool.next_age_ := ULLONG_MAX - 3; SolutionPool.max_size_ := 3;
     SolutionPool.entries_ :=
       [SolutionPool.mkEntry [0; 1; 0] 8 (ULLONG_MAX - 1);
        SolutionPool.mkEntry [1; 0; 0] 10 ULLONG_MAX;
        SolutionPool.mkEntry [0; 0; 1] 12 (ULLONG_MAX - 2)] |}.

(** A full pool of size 1, and a candidate at distance exactly the
    threshold from its only solution. *)
Definition pool_single : SolutionPool.t :=
  {| SolutionPool.sense_ := Minimize; SolutionPool.sorted_ := true;
     SolutionPool.next_age_ := ULLONG_MAX - 1; SolutionPool.max_size_ := 1;
     SolutionPool.entries_ := [SolutionPool.mkEntry [0] 10 ULLONG_MAX] |}.

(** The order of two neighbours in a sorted pool, the earlier one first:
    values closer than the threshold go by age, the others by value.  The
    distance is the difference as the machine rounds it. *)
Definition in_order (sense : Sense) (e1 e2 : SolutionPool.Entry) : Prop :=
  let distance := Qabs (Binary64.round (SolutionPool.value e1 - SolutionPool.value e2)) in
  (distance < SolutionPool.SIMILARITY_THRESHOLD ->
   (SolutionPool.age e1 <= SolutionPool.age e2)%Z)
  /\ (SolutionPool.SIMILARITY_THRESHOLD <= distance ->
      strictly_better sense (SolutionPool.value e1) (SolutionPool.value e2)).

(** The sort invariant as the specification words it: the earlier of two
    neighbours is better or equal, and the later one does not have the
    smaller age when the values are closer than the threshold. *)
Definition sort_invariant_as_stated (sense : Sense) (es : list SolutionPool.Entry) : Prop :=
  forall i e1 e2,
    es !! i = Some e1 -> es !! S i = Some e2 ->
    no_worse sense (SolutionPool.value e1) (SolutionPool.value e2)
    /\ (Qabs (SolutionPool.value e1 - SolutionPool.value e2) < SolutionPool.SIMILARITY_THRESHOLD ->
        (SolutionPool.age e1 <= SolutionPool.age e2)%Z).

(** A sorted pool for minimization after its first insertion, and a second
    candidate whose value, the double nearest to 10.000005, is worse by
    half the threshold. *)
Definition ten_and_a_bit : IloNum := Binary64.round (2000001 # 200000).

Definition pool_one : SolutionPool.t :=
  {| SolutionPool.sense_ := Minimize; SolutionPool.sorted_ := true;
     SolutionPool.next_age_ := ULLONG_MAX - 1; SolutionPool.max_size_ := 3;
     SolutionPool.entries_ := [SolutionPool.mkEntry [0] 10 ULLONG_MAX] |}.

Definition pool_two : SolutionPool.t :=
  {| SolutionPool.sense_ := Minimize; SolutionPool.sorted_ := true;
     SolutionPool.next_age_ := ULLONG_MAX - 2; SolutionPool.max_size_ := 3;
     SolutionPool.entries_ :=
       [SolutionPool.mkEntry [1] ten_and_a_bit (ULLONG_MAX - 1);
        SolutionPool.mkEntry [0] 10 ULLONG_MAX] |}.

(** ** Notions the statement about the abort callback uses *)

(** A call of [main] that neither the time limit nor the node limit ends. *)
Definition within_limits (c : AbortCallback.t) (i : AbortCallback.Info) : Prop :=
  time_reached (AbortCallback.timer_ c) (AbortCallback.clock_ms i)
    (AbortCallback.time_limit_ c) = false
  /\ (to_ull (AbortCallback.Nnodes64 i) < AbortCallback.nodes_limit_ c)%Z.

(** More than [nodes_unsuccessful_] nodes since the recorded one. *)
Definition stagnated (c : AbortCallback.t) (i : AbortCallback.Info) : Prop :=
  (AbortCallback.nodes_unsuccessful_ c
   < to_ull (AbortCallback.Nnodes64 i - AbortCallback.nodes_last_incumbent_ c))%Z.

(** The abort callback of a sub-MIP without timer and with a stagnation
    limit of 5 nodes, after its first call at node 0 with incumbent 100;
    then three calls of a maximization whose incumbent improves at each. *)
Definition abort_callback_started : AbortCallback.t :=
  fst (AbortCallback.main (AbortCallback.create_instance false 0 ULLONG_MAX 5 0 0)
         (AbortCallback.mkInfo 0 0 100)).

Definition improving_calls : list AbortCallback.Info :=
  [AbortCallback.mkInfo 0 1 101; AbortCallback.mkInfo 0 3 102; AbortCallback.mkInfo 0 7 103].

(** ** Notions the statements about the heuristics use *)

(** [a] is better than [b] by more than the tolerance. *)
Definition beats (sense : Sense) (a b : IloNum) : Prop :=
  match sense with
  | Minimize => a < b - THRESHOLD
  | Maximize => b + THRESHOLD < a
  end.

(** The sub-MIP answer [r] holds a solution that beats the objective [obj]. *)
Definition qualifies (sense : Sense) (obj : IloNum) (r : SubMIP) : Prop :=
  solve r = true /\ beats sense (getObjValue r) obj.

(** An answer the sub-MIP solver gives during a call of [run]. *)
Definition rothberg_answer (c : Rothberg.Call) (r : SubMIP) : Prop :=
  exists i, r = Rothberg.m_submip (Rothberg.mutations c i)
            \/ r = Rothberg.r_submip (Rothberg.recombinations c i).

Definition maravilha_answer (c : Maravilha.Call) (r : SubMIP) : Prop :=
  exists i, r = Maravilha.i_submip (Maravilha.iterations c i).

(** The running incumbent of [s] is the pair ([obj], [sol]). *)
Definition incumbent_is {H : Type} (obj : IloNum) (sol : list IloNum) (s : Search H) : Prop :=
  incumbent_objective s = obj /\ incumbent_solution s = sol.

(** A call that only sets the bounds of a variable. *)
Definition sets_bounds (a : Action) : Prop :=
  match a with
  | fix_variable _ _ | free_variable _ => True
  | _ => False
  end.

(** The warm start of the mutation phase as the specification words it:
    every mutation iteration installs the current incumbent as a MIP start
    before it solves. *)
Definition mutation_warm_start_as_stated : Prop :=
  forall c m s s',
    Rothberg.mutation c m s = Ok s' ->
    exists before after,
      trace s' = trace s ++ before ++ addMIPStart (incumbent_solution s) :: after
      /\ solve_submip ∈ after.

(** ** A small problem to run the heuristics on *)

(** Two binary variables and a continuous one. *)
Definition demo_variables : list NumVar :=
  [mkNumVar Bool 0 1; mkNumVar Int 0 1; mkNumVar Float 0 10].

(** A sorted pool for minimization that holds two solutions. *)
Definition demo_pool : SolutionPool.t :=
  {| SolutionPool.sense_ := Minimize; SolutionPool.sorted_ := true;
     SolutionPool.next_age_ := ULLONG_MAX - 2; SolutionPool.max_size_ := 3;
     SolutionPool.entries_ :=
       [SolutionPool.mkEntry [1; 0; 3] 8 (ULLONG_MAX - 1);
        SolutionPool.mkEntry [0; 1; 2] 10 ULLONG_MAX] |}.

(** The heuristic with its default parameters but two mutations and the
    given number of recombinations. *)
Definition demo_rothberg (recombinations : Z) : Rothberg.t :=
  Rothberg.new demo_variables Minimize recombinations 2
    (1 # 2) (Binary64.round (1 # 5)) (1 # 4) (Binary64.round (1 # 100)) 100.

(** A call without timer, with incumbent 8: the mutation sub-MIPs are
    infeasible, the recombination sub-MIPs return a solution of value 7. *)
Definition demo_call : Rothberg.Call :=
  {| Rothberg.timer := false; Rothberg.time_limit := 0;
     Rothberg.getIncumbentObjValue := 8; Rothberg.cplex_getValues := [1; 0; 3];
     Rothberg.mutations :=
       (fun _ => Rothberg.mkMutation 0 0 0 [1%nat; 0%nat] (mkSubMIP false Infeasible 0 []));
     Rothberg.random_consider_all := 5;
     Rothberg.recombinations :=
       (fun _ => Rothberg.mkRecombination 0 0 0 (mkSubMIP true Optimal 7 [1; 1; 0])) |}.

Definition demo_start (recombinations : Z) : Search Rothberg.t :=
  mkSearch (demo_rothberg recombinations) demo_pool 8 [1; 0; 3] [].

(** The state a defined outcome holds. *)
Definition the {A : Type} (default : A) (o : Outcome A) : A :=
  match o with Ok a => a | Undefined _ => default end.

Definition demo_mutated : Search Rothberg.t :=
  Eval vm_compute in
    the (demo_start 2)
      (Rothberg.mutation demo_call (Rothberg.mutations demo_call 0) (demo_start 2)).

Definition demo_after_mutations : Search Rothberg.t :=
  Eval vm_compute in
    the (demo_start 2) (Rothberg.mutation_phase demo_call (demo_start 2)).

Definition demo_result : Search Rothberg.t :=
  Eval vm_compute in
    the (demo_start 2) (Rothberg.run (demo_rothberg 2) demo_pool demo_call).

(** One change of the Rothberg object: a mutation iteration, the update of
    the offset that ends a mutation phase, or a recombination iteration. *)
Inductive rothberg_step : Rothberg.t -> Rothberg.t -> Prop :=
| step_mutation c m s s' :
    Rothberg.mutation c m s = Ok s' -> rothberg_step (heuristic s) (heuristic s')
| step_update_offset h :
    rothberg_step h (Rothberg.update_offset h)
| step_recombination c consider_all i r s s' :
    Rothberg.recombination c consider_all i r s = Ok s' ->
    rothberg_step (heuristic s) (heuristic s').

(** One change of the Maravilha object: an iteration of its loop. *)
Inductive maravilha_step : Maravilha.t -> Maravilha.t -> Prop :=
| step_iteration c it s s' :
    Maravilha.iteration c it s = Ok s' -> maravilha_step (heuristic s) (heuristic s').

(** Maravilha's heuristic on the demo problem with the default parameters
    and two iterations: the first sub-MIP returns a solution of value 7,
    the others are stopped without one. *)
Definition demo_maravilha : Maravilha.t :=
  Maravilha.new demo_variables Minimize 2 0 (Binary64.round (13 # 20))
    (Binary64.round (9 # 20)) 100.

Definition demo_maravilha_call : Maravilha.Call :=
  {| Maravilha.timer := false; Maravilha.time_limit := 0;
     Maravilha.getIncumbentObjValue := 8; Maravilha.getIncumbentValues := [1; 0; 3];
     Maravilha.iterations :=
       (fun i => Maravilha.mkIteration 0 0 [1%nat]
                   (match i with
                    | O => mkSubMIP true Feasible 7 [1; 1; 0]
                    | _ => mkSubMIP false Unknown 0 []
                    end)) |}.

Definition demo_maravilha_start : Search Maravilha.t :=
  mkSearch demo_maravilha demo_pool 8 [1; 0; 3] [].

Definition demo_maravilha_result : Search Maravilha.t :=
  Eval vm_compute in
    the demo_maravilha_start (Maravilha.run demo_maravilha demo_pool demo_maravilha_call).

(** Scenario 5 of the specification: ten binary variables, a fixing
    fraction of 0.5, an offset of 0.2 (the double nearest to it), four
    mutations whose sub-MIPs are all infeasible, and a pool with one
    solution (so that there is no recombination). *)
Definition scenario5_pool : SolutionPool.t :=
  {| SolutionPool.sense_ := Minimize; SolutionPool.sorted_ := true;
     SolutionPool.next_age_ := ULLONG_MAX - 1; SolutionPool.max_size_ := 3;
     SolutionPool.entries_ := [SolutionPool.mkEntry (repeat 0 10) 10 ULLONG_MAX] |}.

Definition scenario5_rothberg : Rothberg.t :=
  Rothberg.new (repeat (mkNumVar Bool 0 1) 10) Minimize 0 4
    (1 # 2) (Binary64.round (1 # 5)) (1 # 4) (Binary64.round (1 # 100)) 100.

Definition scenario5_call : Rothberg.Call :=
  {| Rothberg.timer := false; Rothberg.time_limit := 0;
     Rothberg.getIncumbentObjValue := 10; Rothberg.cplex_getValues := repeat 0 10;
     Rothberg.mutations :=
       (fun _ => Rothberg.mkMutation 0 0 0 (seq 0 10) (mkSubMIP false Infeasible 0 []));
     Rothberg.random_consider_all := 0;
     Rothberg.recombinations :=
       (fun _ => Rothberg.mkRecombination 0 0 0 (mkSubMIP false Infeasible 0 [])) |}.

Definition scenario5_start : Search Rothberg.t :=
  mkSearch scenario5_rothberg scenario5_pool 10 (repeat 0 10) [].

(** The search after [n] iterations of the mutation loop, and its fixing
    fraction. *)
Definition scenario5_after (n : nat) : Search Rothberg.t :=
  the scenario5_start (Rothberg.mutation_loop scenario5_call n 0 scenario5_start).

Definition scenario5_fraction (n : nat) : Q :=
  Qred (Rothberg.fixing_fraction_ (heuristic (scenario5_after n))).

(** ** Notions the proofs use *)

(** [a] comes no later than [b] in a range sorted by [comp]. *)
Definition ordered_by {A : Type} (comp : A -> A -> bool) (a b : A) : Prop :=
  comp b a = false.

(** The fields that only [update_offset] or nothing changes. *)
Definition same_offsets (h h' : Rothberg.t) : Prop :=
  Rothberg.offset_ h' = Rothberg.offset_ h
  /\ Rothberg.offset_reduction_ h' = Rothberg.offset_reduction_ h
  /\ Rothberg.offset_minimum_ h' = Rothberg.offset_minimum_ h
  /\ Rothberg.submip_sense_ h' = Rothberg.submip_sense_ h
  /\ Rothberg.submip_nodes_unsuccessful_ h' = Rothberg.submip_nodes_unsuccessful_ h.

(** The pair ([o], [sl]) is the incumbent [run] started with, or the
    solution of one of the [answers], which beats it: its objective value
    and as many of its values as the incumbent has. *)
Definition kept_or_taken (sense : Sense) (obj : IloNum) (sol : list IloNum)
    (answers : SubMIP -> Prop) (o : IloNum) (sl : list IloNum) : Prop :=
  length sl = length sol
  /\ ((o = obj /\ sl = sol)
      \/ exists r, answers r /\ solve r = true /\ o = getObjValue r
                   /\ sl = take (length sol) (getValues r) /\ beats sense o obj).

(** What the steps of the Rothberg object keep. *)
Definition rothberg_in_range (h : Rothberg.t) : Prop :=
  0 <= Rothberg.fixing_fraction_ h <= 1
  /\ 0 <= Rothberg.offset_ h
  /\ 0 <= Rothberg.offset_minimum_ h.

(** A window and an offset of the Maravilha object within range. *)
Definition maravilha_in_range (h : Maravilha.t) : Prop :=
  0 <= Maravilha.submip_min_ h
  /\ Maravilha.submip_min_ h <= Maravilha.submip_max_ h
  /\ Maravilha.submip_max_ h <= 1
  /\ 0 <= Maravilha.offset_ h <= 1.

(** ** Well-formed inputs of the heuristics *)

(** An answer of the sub-MIP solver for a problem of [n] variables. *)
Definition answer_for (n : nat) (r : SubMIP) : Prop :=
  solve r = true -> length (getValues r) = n /\ finite (getObjValue r).

(** A pool of solutions of [n] coordinates, within its maximum size. *)
Definition pool_for (n : nat) (p : SolutionPool.t) : Prop :=
  dimension n (SolutionPool.entries_ p)
  /\ (SolutionPool.size p <= SolutionPool.max_size_ p)%nat
  /\ (Z.of_nat (SolutionPool.max_size_ p) <= ULLONG_MAX)%Z.

(** A Rothberg object for a problem of [n] variables, with parameters in
    range. *)
Definition rothberg_for (n : nat) (h : Rothberg.t) : Prop :=
  Forall (fun index => (index < n)%nat) (Rothberg.binary_variables_ h)
  /\ (Z.of_nat (length (Rothberg.binary_variables_ h)) <= ULLONG_MAX)%Z
  /\ rothberg_in_range h.

(** What a call of [Rothberg::run] reads, for a problem of [n] variables
    whose binary ones are [vars]: [std::shuffle] permutes them. *)
Definition rothberg_call_for (n : nat) (vars : list nat) (c : Rothberg.Call) : Prop :=
  length (Rothberg.cplex_getValues c) = n
  /\ (forall i, Rothberg.m_shuffle (Rothberg.mutations c i) ≡ₚ vars
                /\ answer_for n (Rothberg.m_submip (Rothberg.mutations c i)))
  /\ (forall i, answer_for n (Rothberg.r_submip (Rothberg.recombinations c i))).

(** The state of a search on such a problem. *)
Definition search_for (n : nat) (vars : list nat) (s : Search Rothberg.t) : Prop :=
  Rothberg.binary_variables_ (heuristic s) ≡ₚ vars
  /\ rothberg_in_range (heuristic s)
  /\ pool_for n (pool s)
  /\ length (incumbent_solution s) = n.

(** The same for Maravilha's heuristic. *)
Definition maravilha_call_for (n : nat) (c : Maravilha.Call) : Prop :=
  length (Maravilha.getIncumbentValues c) = n
  /\ forall i, answer_for n (Maravilha.i_submip (Maravilha.iterations c i)).

Definition maravilha_search_for (n : nat) (vars : list nat) (s : Search Maravilha.t) : Prop :=
  Maravilha.binary_variables_ (heuristic s) = vars
  /\ pool_for n (pool s)
  /\ length (incumbent_solution s) = n.

(** ** A window that the update turns over *)

(** Maravilha's heuristic with [submip-min] 0.03, [submip-max] 0.29 and
    [offset] 1, as the program reads these options, and one iteration whose
    sub-MIP is infeasible. *)
Definition window_demo : Maravilha.t :=
  Maravilha.new demo_variables Minimize 1
    (Binary64.round (3 # 100)) (Binary64.round (29 # 100)) 1 100.

Definition window_demo_call : Maravilha.Call :=
  {| Maravilha.timer := false; Maravilha.time_limit := 0;
     Maravilha.getIncumbentObjValue := 8; Maravilha.getIncumbentValues := [1; 0; 3];
     Maravilha.iterations :=
       (fun _ => Maravilha.mkIteration 0 0 [1%nat] (mkSubMIP false Infeasible 0 [])) |}.

Definition window_demo_result : Search Maravilha.t :=
  Eval vm_compute in
    the demo_maravilha_start (Maravilha.run window_demo demo_pool window_demo_call).

(** ** The processor's arithmetic *)

(** The binary64 numbers and operations of the processor, to set beside
    [Binary64.round]. *)
Module Float64.
Import PrimFloat.

Definition double : Set := float.

(** The rational a finite double denotes. *)
Definition to_Q (x : double) : Q :=
match FloatOps.Prim2SF x with
| SpecFloat.S754_finite s m e => (if s then - 1 else 1) * inject_Z (Zpos m) * 2 ^ e
| _ => 0
end.

(** Line 196 of maravilha.cpp:
  [submip_min_ += (submip_max_ - submip_min_) * offset_]. *)
Definition move_submip_min (submip_min submip_max offset : double) : double :=
(submip_min + (submip_max - submip_min) * offset)%float.

(** The doubles nearest to 0.03 and 0.29. *)
Definition d0_03 : double := 0x1.eb851eb851eb8p-6%float.
Definition d0_29 : double := 0x1.28f5c28f5c28fp-2%float.
Definition one : double := 1%float.

End Float64.

(** * The rest of the program: the callbacks that call the pool and the
      heuristics, the sub-MIP of Maravilha's heuristic, the parameters *)

(** ** The callbacks as CPLEX drives them *)

(** [std::numeric_limits<long>::max()], the default of
    [submip-nodes-unsuccessful] (rothberg.cpp 24, maravilha.cpp 22). *)
Definition LONG_MAX : Z := (2 ^ 63 - 1)%Z.

(** Every call of [AbortCallback::main] in turn, also those that come after
    [abort()]: the callback afterwards, and for each call whether it called
    [abort()]. *)
Fixpoint abort_callback_calls (c : AbortCallback.t) (infos : list AbortCallback.Info)
    : AbortCallback.t * list bool :=
  match infos with
  | [] => (c, [])
  | i :: infos' =>
      let r := AbortCallback.main c i in
      let rest := abort_callback_calls (fst r) infos' in
      (fst rest, snd r :: snd rest)
  end.

(** ** pool_callback.h, pool_callback.cpp *)

Module PoolCallback.

(** [main], called by CPLEX at every new incumbent: the pool afterwards,
    [getObjValue] and [getValues] being what these calls return. *)
Definition main (pool_ : SolutionPool.t) (getObjValue : IloNum) (getValues : list IloNum)
    : Outcome SolutionPool.t :=
  r <- SolutionPool.add_entry pool_ getValues getObjValue ;;
  Ok (snd r).

End PoolCallback.

(** ** heuristic.h: the interface of the heuristics *)

(** [Heuristic::run(callback, timer, time_limit)] on the heuristic object
    and the pool it points to; [Reads] is what a call reads from outside. *)
Class Heuristic (H : Type) : Type := {
  Reads : Type;
  run : H -> SolutionPool.t -> bool -> Q -> Reads -> Outcome (Search H)
}.

#[export] Instance Rothberg_Heuristic : Heuristic Rothberg.t := {|
  Reads := Rothberg.Call;
  run h p timer time_limit c :=
    Rothberg.run h p
      (Rothberg.mkCall timer time_limit (Rothberg.getIncumbentObjValue c)
         (Rothberg.cplex_getValues c) (Rothberg.mutations c)
         (Rothberg.random_consider_all c) (Rothberg.recombinations c))
|}.

#[export] Instance Maravilha_Heuristic : Heuristic Maravilha.t := {|
  Reads := Maravilha.Call;
  run h p timer time_limit c :=
    Maravilha.run h p
      (Maravilha.mkCall timer time_limit (Maravilha.getIncumbentObjValue c)
         (Maravilha.getIncumbentValues c) (Maravilha.iterations c))
|}.

(** ** heuristic_callback.h, heuristic_callback.cpp *)

Module HeuristicCallback.

Record t (H : Type) : Type := mk {
  heuristic_ : option H;           (* [None] for [nullptr] *)
  frequency_ : Z;                  (* unsigned long long *)
  timer_ : bool;                   (* [timer_ != nullptr] *)
  time_limit_ : Q
}.
Arguments mk {H} _ _ _ _.
Arguments heuristic_ {H} _.
Arguments frequency_ {H} _.
Arguments timer_ {H} _.
Arguments time_limit_ {H} _.

(** [create_instance]; main.cpp 264-266 passes a [long] for the
    frequency, which the call converts. *)
Definition create_instance {H : Type} (heuristic : option H) (frequency : Z)
    (timer : bool) (time_limit : Q) : t H :=
  mk heuristic (to_ull frequency) timer time_limit.

(** The two tests of [main]: is the heuristic run at a node where
    [getNnodes64()] returns [Nnodes64]?  The count meets the unsigned
    frequency after conversion. *)
Definition fires {H : Type} (cb : t H) (Nnodes64 : Z) : bool :=
  if (0 <? frequency_ cb)%Z && bool_decide (is_Some (heuristic_ cb))
  then (to_ull Nnodes64 mod frequency_ cb =? 0)%Z
  else false.

(** [main]: the callback and the pool afterwards, and the calls the
    heuristic made. *)
Definition main {H : Type} `{Heuristic H} (cb : t H) (pool_ : SolutionPool.t)
    (Nnodes64 : Z) (reads : Reads) : Outcome (t H * SolutionPool.t * list Action) :=
  match heuristic_ cb with
  | Some h =>
      if fires cb Nnodes64 then
        s <- run h pool_ (timer_ cb) (time_limit_ cb) reads ;;
        Ok (mk (Some (heuristic s)) (frequency_ cb) (timer_ cb) (time_limit_ cb),
            pool s, trace s)
      else Ok (cb, pool_, [])
  | None => Ok (cb, pool_, [])
  end.

End HeuristicCallback.

(** What CPLEX does with the two callbacks main.cpp 144-145 and 264-266
    install on one pool: it finds an incumbent, or it reaches a node. *)
Inductive Event (H : Type) `{Heuristic H} : Type :=
| incumbent_found (getObjValue : IloNum) (getValues : list IloNum)
| node_reached (Nnodes64 : Z) (reads : Reads).
Arguments incumbent_found {H _} _ _.
Arguments node_reached {H _} _ _.

Fixpoint session {H : Type} `{Heuristic H} (cb : HeuristicCallback.t H)
    (pool_ : SolutionPool.t) (events : list (Event H))
    : Outcome (HeuristicCallback.t H * SolutionPool.t) :=
  match events with
  | [] => Ok (cb, pool_)
  | incumbent_found getObjValue getValues :: events' =>
      pool' <- PoolCallback.main pool_ getObjValue getValues ;;
      session cb pool' events'
  | node_reached Nnodes64 reads :: events' =>
      r <- HeuristicCallback.main cb pool_ Nnodes64 reads ;;
      session (fst (fst r)) (snd (fst r)) events'
  end.

(** ** maravilha.cpp 84-139: the variables the sub-MIP leaves free

    [Maravilha.iteration] takes these variables as they come out of the
    draws; what follows is how the code draws them. *)

Module MaravilhaSubMIP.

(** [random_.max()] of [std::mt19937]. *)
Definition RANDOM_MAX : Z := (2 ^ 32 - 1)%Z.

(** Lines 85-86. *)
Definition feas_bias (entry_value incumbent_objective : IloNum) : Q :=
  1 - std_max 0 (std_min 1 ((entry_value - incumbent_objective)
                            / (Binary64.d1e_5 + Qabs incumbent_objective))).

(** Lines 88-89. *)
Definition rel_bias (incumbent_objective relaxed_objective : IloNum) : Q :=
  1 - std_max 0 (std_min 1 ((incumbent_objective - relaxed_objective)
                            / (Binary64.d1e_5 + Qabs relaxed_objective))).

(** Line 91.  Both biases lie between 0 and 1; when both are 0 the
    quotient is 0.0 / 0.0, which is not a number: [None]. *)
Definition bias (feas_bias rel_bias : Q) : option Q :=
  if Qeq_bool (feas_bias + rel_bias) 0 then None
  else Some (1 - feas_bias / (feas_bias + rel_bias)).

(** Lines 102-106 over the binary variables [vars]: [differences_] and
    [sum_differences] afterwards. *)
Fixpoint biased_differences (bias : Q) (incumbent entry relaxed : list IloNum)
    (vars : list nat) (differences_ : list Q) (sum_differences : Q)
    : Outcome (list Q * Q) :=
  match vars with
  | [] => Ok (differences_, sum_differences)
  | idx :: vars' =>
      x <- at_index incumbent idx ;;
      e <- at_index entry idx ;;
      r <- at_index relaxed idx ;;
      _ <- at_index differences_ idx ;;
      let d := bias * Qabs (x - e) + (1 - bias) * Qabs (x - r) in
      biased_differences bias incumbent entry relaxed vars'
        (<[idx := d]> differences_) (sum_differences + d)
  end.

(** [std::set<std::size_t>]: the elements in increasing order, each once. *)
Fixpoint set_insert (x : nat) (s : list nat) : list nat :=
  match s with
  | [] => [x]
  | y :: s' =>
      if (x <? y)%nat then x :: y :: s'
      else if (x =? y)%nat then y :: s'
      else y :: set_insert x s'
  end.

(** Lines 110-111: [clear()], then [insert(begin, end)]. *)
Definition set_of (vars : list nat) : list nat :=
  fold_left (fun s x => set_insert x s) vars [].

(** [erase(idx)]. *)
Definition set_erase (idx : nat) (s : list nat) : list nat :=
  List.filter (fun y => negb (y =? idx)%nat) s.

(** Lines 114-115.  The conversion truncates; the value is at least 1. *)
Definition submip_size (h : Maravilha.t) : Outcome nat :=
  to_size_t
    (Qfloor (std_max 1 (inject_Z (Z.of_nat (length (Maravilha.binary_variables_ h)))
                        * ((Maravilha.submip_min_ h + Maravilha.submip_max_ h) / 2)))).

(** Lines 122-138: the variable at which the running sum [acc] reaches
    [rand_value], if there is one. *)
Fixpoint select (differences_ : list Q) (rand_value acc : Q) (available : list nat)
    : Outcome (option nat) :=
  match available with
  | [] => Ok None
  | idx :: available' =>
      d <- at_index differences_ idx ;;
      if Qle_bool rand_value (acc + d) then Ok (Some idx)
      else select differences_ rand_value (acc + d) available'
  end.

(** Lines 118-139: [count] rounds are left, the next one takes the draw
    [draws k]; the variables made free, in the order of the rounds. *)
Fixpoint free_loop (differences_ : list Q) (draws : nat -> Z) (count k : nat)
    (sum_differences : Q) (variables_available_ : list nat) : Outcome (list nat) :=
  match count with
  | O => Ok []
  | S count' =>
      let rand_value := inject_Z (draws k) / inject_Z RANDOM_MAX * sum_differences in
      chosen <- select differences_ rand_value 0 variables_available_ ;;
      match chosen with
      | Some idx =>
          d <- at_index differences_ idx ;;
          rest <- free_loop differences_ draws count' (S k) (sum_differences - d)
                    (set_erase idx variables_available_) ;;
          Ok (idx :: rest)
      | None => free_loop differences_ draws count' (S k) sum_differences
                  variables_available_
      end
  end.

(** What one build reads: the pool entry drawn at line 81, the running
    incumbent, the relaxed solution of lines 61-63 and the draws of line
    121. *)
Record Build : Type := mkBuild {
  entry : SolutionPool.Entry;
  incumbent_objective : IloNum;
  incumbent_solution : list IloNum;
  relaxed_objective : IloNum;
  relaxed_solution : list IloNum;
  draws : nat -> Z
}.

(** Lines 84-139 for a problem of [n] variables ([differences_] has [n]
    cells): the variables made free.  With a bias that is not a number
    every difference, sum and [rand_value] is not a number either, the
    test of line 126 never holds, and no variable is made free; the vector
    accesses are those of any other bias. *)
Definition freed (h : Maravilha.t) (n : nat) (b : Build) : Outcome (list nat) :=
  let bias_ := bias (feas_bias (SolutionPool.value (entry b)) (incumbent_objective b))
                 (rel_bias (incumbent_objective b) (relaxed_objective b)) in
  ds <- biased_differences (default 0 bias_) (incumbent_solution b)
          (SolutionPool.solution (entry b)) (relaxed_solution b)
          (Maravilha.binary_variables_ h) (replicate n 0) 0 ;;
  size <- submip_size h ;;
  match bias_ with
  | Some _ =>
      free_loop (fst ds) (draws b) size 0 (snd ds) (set_of (Maravilha.binary_variables_ h))
  | None => Ok []
  end.

End MaravilhaSubMIP.

(** ** cxxproperties.hpp *)

(** What [stream << value] writes and what [stream >> value] reads back
    from a stream that holds a string, for the type of a property. *)
Class Streamed (T : Type) : Type := {
  inserted : T -> string;
  extracted : string -> T
}.

(** [std::string]: [add] stores the string itself, and [get] is
    specialised to return the stored string (lines 186-189). *)
#[export] Instance string_Streamed : Streamed string := {|
  inserted s := s;
  extracted s := s
|}.

(** A value, or the exception [std::out_of_range] of [std::map::at]. *)
Inductive Thrown (A : Type) : Type :=
| Returned (a : A)
| out_of_range.
Arguments Returned {A} a.
Arguments out_of_range {A}.

Module Properties.

(** The member [properties_]. *)
Definition t : Type := gmap string string.

(** The default constructor. *)
Definition new : t := ∅.

Definition contains (p : t) (key : string) : bool := bool_decide (is_Some (p !! key)).

(** [get<T>(key)]. *)
Definition get {T : Type} `{Streamed T} (p : t) (key : string) : Thrown T :=
  match p !! key with
  | Some s => Returned (extracted s)
  | None => out_of_range
  end.

(** [get<T>(key, default_value)]. *)
Definition get_or {T : Type} `{Streamed T} (p : t) (key : string) (default_value : T)
    : Thrown T :=
  if contains p key then get p key else Returned default_value.

(** [add<T>(key, value)]. *)
Definition add {T : Type} `{Streamed T} (p : t) (key : string) (value : T) : t :=
  <[key := inserted value]> p.

Definition remove (p : t) (key : string) : t := delete key p.

Definition get_keys (p : t) : gset string := dom p.

Definition size (p : t) : nat := base.size p.

End Properties.

(** ** Further notions about the pool *)

(** No two entries hold similar solutions (the pool's own test). *)
Definition without_repetitions (es : list SolutionPool.Entry) : Prop :=
  forall i j e1 e2,
    i <> j -> es !! i = Some e1 -> es !! j = Some e2 ->
    ~ similar (SolutionPool.solution e1) (SolutionPool.solution e2).

(** The ages in use are those above [next_age_], each used once. *)
Definition ages_fresh (p : SolutionPool.t) : Prop :=
  (0 <= SolutionPool.next_age_ p <= ULLONG_MAX)%Z
  /\ Forall (fun e => (SolutionPool.next_age_ p < SolutionPool.age e <= ULLONG_MAX)%Z)
       (SolutionPool.entries_ p)
  /\ NoDup (map SolutionPool.age (SolutionPool.entries_ p)).

(** The entry a successful [add_entry] stores. *)
Definition stored (p : SolutionPool.t) (solution : list IloNum) (value : IloNum)
    : SolutionPool.Entry :=
  SolutionPool.mkEntry solution value (SolutionPool.next_age_ p).

(** ** Further notions about the abort callback *)

(** The number of calls of [abort()] among the flags of successive calls. *)
Definition aborts (flags : list bool) : nat := length (filter (fun b => b = true) flags).

(** Two callbacks that differ at most in the two members the constructor
    leaves unset, and only as long as these have not been assigned. *)
Definition same_but_unset (c c' : AbortCallback.t) : Prop :=
  AbortCallback.timer_ c' = AbortCallback.timer_ c
  /\ AbortCallback.time_limit_ c' = AbortCallback.time_limit_ c
  /\ AbortCallback.nodes_limit_ c' = AbortCallback.nodes_limit_ c
  /\ AbortCallback.nodes_unsuccessful_ c' = AbortCallback.nodes_unsuccessful_ c
  /\ AbortCallback.initialized_ c' = AbortCallback.initialized_ c
  /\ AbortCallback.aborted_ c' = AbortCallback.aborted_ c
  /\ (AbortCallback.initialized_ c = true ->
      AbortCallback.obj_last_incumbent_ c' = AbortCallback.obj_last_incumbent_ c
      /\ AbortCallback.nodes_last_incumbent_ c' = AbortCallback.nodes_last_incumbent_ c).

(** Node counts as CPLEX reports them: non-negative [IloInt64] values that
    never go down. *)
Fixpoint node_counts_from (n : Z) (infos : list AbortCallback.Info) : Prop :=
  match infos with
  | [] => True
  | i :: infos' =>
      (n <= AbortCallback.Nnodes64 i <= LONG_MAX)%Z
      /\ node_counts_from (AbortCallback.Nnodes64 i) infos'
  end.

(** The time limit is reached at the call [i]. *)
Definition out_of_time (c : AbortCallback.t) (i : AbortCallback.Info) : Prop :=
  time_reached (AbortCallback.timer_ c) (AbortCallback.clock_ms i)
    (AbortCallback.time_limit_ c) = true.

(** ** Further notions about the heuristics *)

(** The number of sub-MIPs solved among the calls [acts]. *)
Fixpoint solves (acts : list Action) : nat :=
  match acts with
  | [] => 0
  | solve_submip :: acts' => S (solves acts')
  | _ :: acts' => solves acts'
  end.

(** Every [solve] among the calls [acts] comes right after the call
    [guard]. *)
Definition guarded_by (guard : Action) (acts : list Action) : Prop :=
  forall k, acts !! k = Some solve_submip ->
            exists j, k = S j /\ acts !! j = Some guard.

(** ** A build of Maravilha's sub-MIP on the demo problem *)

(** The second entry of [demo_pool] against the incumbent of value 8 and
    a relaxation of value 7; every draw is half of [RANDOM_MAX], rounded
    up. *)
Definition demo_build : MaravilhaSubMIP.Build :=
  {| MaravilhaSubMIP.entry := SolutionPool.mkEntry [0; 1; 2] 10 ULLONG_MAX;
     MaravilhaSubMIP.incumbent_objective := 8;
     MaravilhaSubMIP.incumbent_solution := [1; 0; 3];
     MaravilhaSubMIP.relaxed_objective := 7;
     MaravilhaSubMIP.relaxed_solution := [1 # 2; 1 # 2; 3];
     MaravilhaSubMIP.draws := fun _ => (2 ^ 31)%Z |}.

(** The same with a pool entry of value 25 and a relaxation of value 3:
    both gaps exceed 100 %. *)
Definition demo_build_far : MaravilhaSubMIP.Build :=
  {| MaravilhaSubMIP.entry := SolutionPool.mkEntry [0; 1; 2] 25 ULLONG_MAX;
     MaravilhaSubMIP.incumbent_objective := 8;
     MaravilhaSubMIP.incumbent_solution := [1; 0; 3];
     MaravilhaSubMIP.relaxed_objective := 3;
     MaravilhaSubMIP.relaxed_solution := [1 # 2; 1 # 2; 3];
     MaravilhaSubMIP.draws := fun _ => (2 ^ 31)%Z |}.

Definition demo_freed : list nat :=
  Eval vm_compute in the [] (MaravilhaSubMIP.freed demo_maravilha 3 demo_build).

(** A build of [n] variables whose vectors have [n] cells. *)
Definition build_for (n : nat) (b : MaravilhaSubMIP.Build) : Prop :=
  length (MaravilhaSubMIP.incumbent_solution b) = n
  /\ length (SolutionPool.solution (MaravilhaSubMIP.entry b)) = n
  /\ length (MaravilhaSubMIP.relaxed_solution b) = n.

(** ** The pool under the callbacks *)

(** One call of [add_entry] with a candidate among those [offered]. *)
Definition pool_step (offered : list IloNum -> IloNum -> Prop) (p p' : SolutionPool.t) : Prop :=
  exists solution value b,
    offered solution value /\ SolutionPool.add_entry p solution value = Ok (b, p').

(** The solution and value of a sub-MIP answer that holds one. *)
Definition answer_of (r : SubMIP) (solution : list IloNum) (value : IloNum) : Prop :=
  solve r = true /\ getValues r = solution /\ getObjValue r = value.

(** What the sub-MIPs of a run returned. *)
Definition offered_by_rothberg (c : Rothberg.Call) (solution : list IloNum) (value : IloNum)
    : Prop :=
  exists i, answer_of (Rothberg.m_submip (Rothberg.mutations c i)) solution value
            \/ answer_of (Rothberg.r_submip (Rothberg.recombinations c i)) solution value.

Definition offered_by_maravilha (c : Maravilha.Call) (solution : list IloNum) (value : IloNum)
    : Prop :=
  exists i, answer_of (Maravilha.i_submip (Maravilha.iterations c i)) solution value.

(** A well-formed event on a problem of [n] variables whose binary ones
    are [vars]. *)
Definition event_for (n : nat) (vars : list nat) (e : Event Rothberg.t) : Prop :=
  match e with
  | incumbent_found getObjValue getValues => length getValues = n /\ finite getObjValue
  | node_reached _ reads => rothberg_call_for n vars reads
  end.

(** Two incumbents and, between them and after them, two nodes at which
    the heuristic is due. *)
Definition demo_events : list (Event Rothberg.t) :=
  [incumbent_found (H := Rothberg.t) 10 [0; 1; 2];
   node_reached (H := Rothberg.t) 0 demo_call;
   incumbent_found (H := Rothberg.t) 8 [1; 0; 3];
   node_reached (H := Rothberg.t) 100 demo_call].

(** ** What [std::sort] requires *)

(** The requirement of [std::sort] on its comparator, over the range it
    sorts: a strict weak ordering.  Where it is not met the standard leaves
    the behaviour of [std::sort] undefined; the model sorts all the same. *)
Definition strict_weak_ordering {A : Type} (comp : A -> A -> bool) (l : list A) : Prop :=
  (forall a, a ∈ l -> comp a a = false)
  /\ (forall a b c, a ∈ l -> b ∈ l -> c ∈ l ->
                    comp a b = true -> comp b c = true -> comp a c = true)
  /\ (forall a b c, a ∈ l -> b ∈ l -> c ∈ l ->
                    comp a b = false -> comp b a = false ->
                    comp b c = false -> comp c b = false ->
                    comp a c = false /\ comp c a = false).

(** Two objective values that the pool's comparator orders by age: their
    rounded distance is below the threshold. *)
Definition close (a b : IloNum) : Prop :=
  Qabs (Binary64.round (a - b)) < SolutionPool.SIMILARITY_THRESHOLD.

(** The values of [es] fall into groups: two values close to a third are
    close to each other. *)
Definition grouped (es : list SolutionPool.Entry) : Prop :=
  forall e1 e2 e3,
    e1 ∈ es -> e2 ∈ es -> e3 ∈ es ->
    close (SolutionPool.value e1) (SolutionPool.value e2) ->
    close (SolutionPool.value e2) (SolutionPool.value e3) ->
    close (SolutionPool.value e1) (SolutionPool.value e3).

(** Three solutions whose values are 0, 0.000006 and 0.000012: the middle
    one is close to both others, which are not close to each other.  The
    pool they give. *)
Definition near_values : list (list IloNum * IloNum) :=
  [([0], 0); ([1], Binary64.round (6 # 1000000)); ([2], Binary64.round (12 # 1000000))].

Definition pool_near : SolutionPool.t :=
  Eval vm_compute in
    the (SolutionPool.new Minimize 3 true)
      (SolutionPool.add_entries (SolutionPool.new Minimize 3 true) near_values).

(** * Proofs *)

(** ** Rounding to the nearest double *)

Lemma nearest_even_bounds (y : Q) :
  (Qfloor y <= Binary64.nearest_even y <= Qfloor y + 1)%Z.
Proof.
  unfold Binary64.nearest_even.
  destruct (Qcompare _ _); [destruct (Z.even _)| |]; lia.
Qed.

Lemma nearest_even_comp (x y : Q) :
  x == y -> Binary64.nearest_even x = Binary64.nearest_even y.
Proof.
  intros H. unfold Binary64.nearest_even.
  rewrite (Qfloor_comp _ _ H).
  assert (E : x - inject_Z (Qfloor y) == y - inject_Z (Qfloor y)) by (rewrite H; reflexivity).
  now rewrite (Qcompare_comp _ _ E (1 # 2) (1 # 2) (Qeq_refl _)).
Qed.

Lemma nearest_even_Z (n : Z) : Binary64.nearest_even (inject_Z n) = n.
Proof.
  unfold Binary64.nearest_even. rewrite Qfloor_Z.
  assert (E : inject_Z n - inject_Z n == 0) by ring.
  now rewrite (Qcompare_comp _ _ E (1 # 2) (1 # 2) (Qeq_refl _)).
Qed.

Lemma nearest_even_le (x y : Q) :
  x <= y -> (Binary64.nearest_even x <= Binary64.nearest_even y)%Z.
Proof.
  intros H. pose proof (Qfloor_resp_le _ _ H) as Hf.
  destruct (Z.eq_dec (Qfloor x) (Qfloor y)) as [E | N].
  - unfold Binary64.nearest_even. rewrite E.
    destruct (Qcompare_spec (x - inject_Z (Qfloor y)) (1 # 2)) as [Hx | Hx | Hx];
      destruct (Qcompare_spec (y - inject_Z (Qfloor y)) (1 # 2)) as [Hy | Hy | Hy];
      try destruct (Z.even (Qfloor y)); try lia; exfalso; lra.
  - pose proof (nearest_even_bounds x). pose proof (nearest_even_bounds y). lia.
Qed.

Lemma Qfloor_opp_Z (y : Q) (n : Z) : y == inject_Z n -> Qfloor (- y) = (- Qfloor y)%Z.
Proof.
  intros H. rewrite (Qfloor_comp _ _ H).
  assert (E : - y == inject_Z (- n)) by (rewrite H, inject_Z_opp; reflexivity).
  rewrite (Qfloor_comp _ _ E). now rewrite !Qfloor_Z.
Qed.

Lemma Qfloor_opp_frac (y : Q) :
  inject_Z (Qfloor y) < y -> Qfloor (- y) = (- Qfloor y - 1)%Z.
Proof.
  intros H. pose proof (Qlt_floor y) as H1. pose proof (Qfloor_le (- y)) as H2.
  pose proof (Qlt_floor (- y)) as H3.
  rewrite inject_Z_plus in H1, H3. change (inject_Z 1) with 1 in *.
  assert (A : (Qfloor (- y) < - Qfloor y)%Z).
  { rewrite Zlt_Qlt, inject_Z_opp. lra. }
  assert (B : (- Qfloor y - 2 < Qfloor (- y))%Z).
  { rewrite Zlt_Qlt. unfold Z.sub. rewrite !inject_Z_plus, !inject_Z_opp.
    change (inject_Z 2) with 2. lra. }
  lia.
Qed.

Lemma nearest_even_opp (y : Q) : Binary64.nearest_even (- y) = (- Binary64.nearest_even y)%Z.
Proof.
  destruct (Qlt_le_dec (inject_Z (Qfloor y)) y) as [Hlt | Hle].
  - unfold Binary64.nearest_even. rewrite (Qfloor_opp_frac y Hlt).
    pose proof (Qlt_floor y) as H1. rewrite inject_Z_plus in H1. change (inject_Z 1) with 1 in H1.
    assert (E : - y - inject_Z (- Qfloor y - 1) == 1 - (y - inject_Z (Qfloor y))).
    { unfold Z.sub. rewrite inject_Z_plus, !inject_Z_opp. change (inject_Z 1) with 1. ring. }
    rewrite (Qcompare_comp _ _ E (1 # 2) (1 # 2) (Qeq_refl _)).
    destruct (Qcompare_spec (y - inject_Z (Qfloor y)) (1 # 2)) as [Hy | Hy | Hy];
      destruct (Qcompare_spec (1 - (y - inject_Z (Qfloor y))) (1 # 2)) as [Hz | Hz | Hz];
      try (exfalso; lra); try lia.
    replace (- Qfloor y - 1)%Z with (- (Qfloor y + 1))%Z by lia.
    rewrite Z.even_opp, Z.even_add. simpl (Z.even 1).
    destruct (Z.even (Qfloor y)); simpl; lia.
  - assert (E : y == inject_Z (Qfloor y)) by (pose proof (Qfloor_le y); lra).
    assert (E' : - y == inject_Z (- Qfloor y)) by (rewrite inject_Z_opp, <- E; reflexivity).
    rewrite (nearest_even_comp _ _ E'), (nearest_even_comp y _ E). now rewrite !nearest_even_Z.
Qed.

Lemma pow2_pos (k : Z) : 0 < 2 ^ k.
Proof. apply Qpower_0_lt. reflexivity. Qed.

Lemma pow2_succ (k : Z) : 2 ^ (k + 1) == 2 * 2 ^ k.
Proof. rewrite Qpower_plus by discriminate. change (2 ^ 1) with 2. ring. Qed.

Lemma pow2_le (n m : Z) : (n <= m)%Z -> 2 ^ n <= 2 ^ m.
Proof. intros H. apply Qpower_le_compat_l; [exact H | discriminate]. Qed.

Lemma pow2_Z (n : Z) : (0 <= n)%Z -> inject_Z (2 ^ n) == 2 ^ n.
Proof. apply Zpower_Qpower. Qed.

Lemma ilog2_spec (x : Q) :
  0 < x -> 2 ^ Binary64.ilog2 x <= x /\ x < 2 ^ (Binary64.ilog2 x + 1).
Proof.
  intros Hx. destruct x as [n d]. unfold Binary64.ilog2. cbn [Qnum Qden].
  assert (Hn : (0 < n)%Z) by (unfold Qlt in Hx; simpl in Hx; lia).
  set (a := Z.log2 n). set (b := Z.log2 (Z.pos d)).
  destruct (Z.log2_spec n Hn) as [A1 A2]. fold a in A1, A2.
  destruct (Z.log2_spec (Z.pos d) eq_refl) as [B1 B2]. fold b in B1, B2.
  pose proof (Z.log2_nonneg n) as Ha. fold a in Ha.
  pose proof (Z.log2_nonneg (Z.pos d)) as Hb. fold b in Hb.
  rewrite Z.pow_succ_r in A2, B2 by assumption.
  rewrite Zle_Qle in A1, B1. rewrite Zlt_Qlt in A2, B2.
  rewrite inject_Z_mult in A2, B2. rewrite pow2_Z in A1, A2, B1, B2 by assumption.
  change (inject_Z 2) with 2 in *.
  assert (Hk : 2 ^ (a - b) * 2 ^ b == 2 ^ a).
  { rewrite <- Qpower_plus by discriminate. now replace (a - b + b)%Z with a by lia. }
  assert (Hxd : (n # d) * inject_Z (Z.pos d) == inject_Z n).
  { rewrite (Qmake_Qdiv n d). field. discriminate. }
  pose proof (pow2_pos (a - b)) as Pk. pose proof (pow2_pos b) as Pb.
  assert (Hd : 0 < inject_Z (Z.pos d)) by reflexivity.
  assert (Up : n # d < 2 * 2 ^ (a - b)).
  { apply (Qmult_lt_r _ _ (inject_Z (Z.pos d)) Hd). rewrite Hxd.
    apply Qlt_le_trans with (2 * 2 ^ a); [exact A2|].
    rewrite <- Hk. rewrite <- Qmult_assoc. apply Qmult_le_l; [reflexivity|].
    apply Qmult_le_l; assumption. }
  assert (Lo : 2 ^ (a - b) < 2 * (n # d)).
  { apply (Qmult_lt_r _ _ (2 ^ b) Pb). rewrite Hk.
    apply Qle_lt_trans with (inject_Z n); [exact A1|].
    rewrite <- Hxd. rewrite <- Qmult_assoc, (Qmult_comm 2), <- Qmult_assoc.
    apply Qmult_lt_l; [exact Hx|]. lra. }
  destruct (Qle_bool (2 ^ (a - b)) (n # d)) eqn:E.
  - apply Qle_bool_iff in E. split; [exact E|]. now rewrite pow2_succ.
  - assert (E' : n # d < 2 ^ (a - b)).
    { apply Qnot_le_lt. intros Hle. apply Qle_bool_iff in Hle. congruence. }
    replace (a - b - 1 + 1)%Z with (a - b)%Z by lia. split; [|exact E'].
    assert (Hs : 2 ^ (a - b) == 2 * 2 ^ (a - b - 1)).
    { rewrite <- pow2_succ. now replace (a - b - 1 + 1)%Z with (a - b)%Z by lia. }
    lra.
Qed.

Lemma ilog2_le (x y : Q) : 0 < x -> x <= y -> (Binary64.ilog2 x <= Binary64.ilog2 y)%Z.
Proof.
  intros Hx Hxy.
  destruct (ilog2_spec x Hx) as [X1 _].
  destruct (ilog2_spec y) as [_ Y2]; [lra|].
  destruct (Z.le_gt_cases (Binary64.ilog2 x) (Binary64.ilog2 y)) as [H | H]; [exact H|].
  exfalso. assert (Hp : 2 ^ (Binary64.ilog2 y + 1) <= 2 ^ Binary64.ilog2 x) by (apply pow2_le; lia).
  lra.
Qed.

Lemma Qabs_Qred_pos (x : Q) : 0 < x -> Qabs (Qred x) == x.
Proof.
  intros H. rewrite Qabs_pos; [apply Qred_correct|]. rewrite Qred_correct. lra.
Qed.

Lemma Qabs_Qred_comp (x y : Q) : x == y -> Qabs (Qred x) = Qabs (Qred y).
Proof. intros H. now rewrite (Qred_complete _ _ H). Qed.

Lemma Qabs_opp_eq (x : Q) : Qabs (- x) = Qabs x.
Proof. destruct x as [n d]. unfold Qabs, Qopp. simpl. now rewrite Z.abs_opp. Qed.

Lemma ulp_exponent_comp (x y : Q) : x == y -> Binary64.ulp_exponent x = Binary64.ulp_exponent y.
Proof. intros H. unfold Binary64.ulp_exponent. now rewrite (Qabs_Qred_comp _ _ H). Qed.

Lemma ulp_exponent_opp (x : Q) : Binary64.ulp_exponent (- x) = Binary64.ulp_exponent x.
Proof. unfold Binary64.ulp_exponent. now rewrite Qred_opp, Qabs_opp_eq. Qed.

Lemma ilog2_comp (x y : Q) : 0 < x -> x == y -> Binary64.ilog2 x = Binary64.ilog2 y.
Proof.
  intros Hx H. apply Z.le_antisymm; apply ilog2_le; lra.
Qed.

Lemma ulp_exponent_pos (x : Q) :
  0 < x -> Binary64.ulp_exponent x = Z.max (Binary64.ilog2 x - 52) (-1074).
Proof.
  intros H. unfold Binary64.ulp_exponent. f_equal. f_equal.
  apply ilog2_comp; [|now apply Qabs_Qred_pos].
  rewrite Qabs_Qred_pos; assumption.
Qed.

Lemma ulp_exponent_le (x y : Q) :
  0 < x -> x <= y -> (Binary64.ulp_exponent x <= Binary64.ulp_exponent y)%Z.
Proof.
  intros Hx Hxy. rewrite !ulp_exponent_pos by lra.
  pose proof (ilog2_le x y Hx Hxy). lia.
Qed.

(** A positive number is below [2^53] units of its last place, and, but
    for the subnormals, at least [2^52] of them. *)
Lemma below_2_53_ulp (x : Q) : 0 < x -> x < 2 ^ (Binary64.ulp_exponent x + 53).
Proof.
  intros Hx. destruct (ilog2_spec x Hx) as [_ H].
  eapply Qlt_le_trans; [exact H|]. apply pow2_le. rewrite ulp_exponent_pos by assumption. lia.
Qed.

Lemma above_2_52_ulp (x : Q) :
  0 < x -> (-1074 < Binary64.ulp_exponent x)%Z -> 2 ^ (Binary64.ulp_exponent x + 52) <= x.
Proof.
  intros Hx Hc. destruct (ilog2_spec x Hx) as [H _].
  rewrite ulp_exponent_pos in * by assumption.
  replace (Z.max (Binary64.ilog2 x - 52) (-1074) + 52)%Z with (Binary64.ilog2 x) by lia.
  exact H.
Qed.

Lemma round_comp (x y : Q) : x == y -> Binary64.round x == Binary64.round y.
Proof.
  intros H. unfold Binary64.round. rewrite (ulp_exponent_comp _ _ H).
  assert (E : x / 2 ^ Binary64.ulp_exponent y == y / 2 ^ Binary64.ulp_exponent y)
    by (rewrite H; reflexivity).
  now rewrite (nearest_even_comp _ _ E).
Qed.

#[global] Instance round_Proper : Proper (Qeq ==> Qeq) Binary64.round.
Proof. intros x y H. now apply round_comp. Qed.

Lemma round_0 : Binary64.round 0 == 0.
Proof. reflexivity. Qed.

Lemma round_opp (x : Q) : Binary64.round (- x) == - Binary64.round x.
Proof.
  unfold Binary64.round. rewrite ulp_exponent_opp.
  assert (E : - x / 2 ^ Binary64.ulp_exponent x == - (x / 2 ^ Binary64.ulp_exponent x)).
  { field. apply Qpower_not_0. discriminate. }
  rewrite (nearest_even_comp _ _ E), nearest_even_opp, inject_Z_opp. ring.
Qed.

Lemma round_nonneg (x : Q) : 0 <= x -> 0 <= Binary64.round x.
Proof.
  intros H. unfold Binary64.round. pose proof (pow2_pos (Binary64.ulp_exponent x)) as P.
  apply Qmult_le_0_compat; [|lra].
  change 0 with (inject_Z 0). rewrite <- Zle_Qle.
  rewrite <- (nearest_even_Z 0). apply nearest_even_le.
  apply Qle_shift_div_l; [exact P|]. change (inject_Z 0) with 0. lra.
Qed.

Lemma round_le_pos (x y : Q) : 0 < x -> x <= y -> Binary64.round x <= Binary64.round y.
Proof.
  intros Hx Hxy. assert (Hy : 0 < y) by lra.
  pose proof (ulp_exponent_le x y Hx Hxy) as Hc.
  set (cx := Binary64.ulp_exponent x) in *. set (cy := Binary64.ulp_exponent y) in *.
  pose proof (pow2_pos cx) as Px. pose proof (pow2_pos cy) as Py.
  destruct (Z.eq_dec cx cy) as [E | N].
  - unfold Binary64.round. fold cx cy. rewrite E.
    apply Qmult_le_r; [exact Py|]. rewrite <- Zle_Qle. apply nearest_even_le.
    apply Qmult_le_r; [now apply Qinv_lt_0_compat | exact Hxy].
  - apply Qle_trans with (2 ^ (cx + 53)).
    + unfold Binary64.round. fold cx.
      rewrite (Qpower_plus 2 cx 53) by discriminate. rewrite (Qmult_comm (2 ^ cx)).
      apply Qmult_le_r; [exact Px|].
      change (2 ^ 53) with (inject_Z (2 ^ 53)). rewrite <- Zle_Qle.
      rewrite <- (nearest_even_Z (2 ^ 53)). apply nearest_even_le.
      apply Qle_shift_div_r; [exact Px|].
      change (inject_Z (2 ^ 53)) with (2 ^ 53). rewrite (Qmult_comm (2 ^ 53)).
      rewrite <- (Qpower_plus 2 cx 53) by discriminate.
      apply Qlt_le_weak, below_2_53_ulp, Hx.
    + apply Qle_trans with (2 ^ (cy + 52)); [apply pow2_le; lia|].
      unfold Binary64.round. fold cy.
      rewrite (Qpower_plus 2 cy 52) by discriminate. rewrite (Qmult_comm (2 ^ cy)).
      apply Qmult_le_r; [exact Py|].
      change (2 ^ 52) with (inject_Z (2 ^ 52)). rewrite <- Zle_Qle.
      rewrite <- (nearest_even_Z (2 ^ 52)). apply nearest_even_le.
      apply Qle_shift_div_l; [exact Py|].
      change (inject_Z (2 ^ 52)) with (2 ^ 52). rewrite (Qmult_comm (2 ^ 52)).
      rewrite <- (Qpower_plus 2 cy 52) by discriminate.
      apply above_2_52_ulp; [exact Hy|]. unfold cx, cy in *. unfold Binary64.ulp_exponent in *. lia.
Qed.

(** Rounding keeps the order. *)
Lemma round_le (x y : Q) : x <= y -> Binary64.round x <= Binary64.round y.
Proof.
  intros H. destruct (Qlt_le_dec 0 x) as [Hx | Hx].
  - now apply round_le_pos.
  - destruct (Qlt_le_dec y 0) as [Hy | Hy].
    + assert (G : Binary64.round (- y) <= Binary64.round (- x)) by (apply round_le_pos; lra).
      rewrite !round_opp in G. lra.
    + assert (G1 : 0 <= Binary64.round (- x)) by (apply round_nonneg; lra).
      rewrite round_opp in G1. pose proof (round_nonneg y Hy). lra.
Qed.

Lemma round_abs (x : Q) : Qabs (Binary64.round x) == Binary64.round (Qabs x).
Proof.
  destruct (Qlt_le_dec x 0) as [H | H].
  - rewrite (Qabs_neg x) by lra. rewrite round_opp. apply Qabs_neg.
    assert (G : 0 <= Binary64.round (- x)) by (apply round_nonneg; lra).
    rewrite round_opp in G. lra.
  - rewrite (Qabs_pos x) by exact H. apply Qabs_pos. now apply round_nonneg.
Qed.

(** What is at most a double rounds to at most that double. *)
Lemma round_le_double (x p : Q) : Binary64.is_double p -> x <= p -> Binary64.round x <= p.
Proof.
  intros [Hp _] H. apply Qle_trans with (Binary64.round p); [now apply round_le|].
  rewrite Hp. apply Qle_refl.
Qed.

Lemma round_ge_double (x p : Q) : Binary64.is_double p -> p <= x -> p <= Binary64.round x.
Proof.
  intros [Hp _] H. apply Qle_trans with (Binary64.round p); [|now apply round_le].
  rewrite Hp. apply Qle_refl.
Qed.

Lemma round_abs_le_double (x p : Q) :
  Binary64.is_double p -> Qabs x <= p -> Qabs (Binary64.round x) <= p.
Proof. intros Hp H. rewrite round_abs. now apply round_le_double. Qed.

(** A double that is below a rounded number is below the number. *)
Lemma lt_round_double (a x : Q) : Binary64.is_double a -> a < Binary64.round x -> a < x.
Proof.
  intros Ha H. apply Qnot_le_lt. intros Hle.
  pose proof (round_le_double x a Ha Hle). lra.
Qed.

Lemma round_lt_double (a x : Q) : Binary64.is_double a -> Binary64.round x < a -> x < a.
Proof.
  intros Ha H. apply Qnot_le_lt. intros Hle.
  pose proof (round_ge_double x a Ha Hle). lra.
Qed.

Lemma is_double_0 : Binary64.is_double 0.
Proof. split; [reflexivity | discriminate]. Qed.

Lemma is_double_1 : Binary64.is_double 1.
Proof. split; vm_compute; [reflexivity | discriminate]. Qed.

Lemma is_double_d1e_5 : Binary64.is_double Binary64.d1e_5.
Proof. split; vm_compute; [reflexivity | discriminate]. Qed.

Lemma is_double_half_d1e_5 : Binary64.is_double (Binary64.d1e_5 * (1 # 2)).
Proof. split; vm_compute; [reflexivity | discriminate]. Qed.

Lemma d1e_5_nearest : Binary64.round (1 # 100000) == Binary64.d1e_5.
Proof. vm_compute. reflexivity. Qed.

Lemma d1e_5_bounds : 1 # 100000 < Binary64.d1e_5 /\ Binary64.d1e_5 < 1 # 99999.
Proof. split; reflexivity. Qed.

#[local] Arguments Qabs : simpl never.
#[local] Arguments Qminus : simpl never.
#[local] Arguments Qplus : simpl never.
#[local] Arguments Qmult : simpl never.
#[local] Arguments Qopp : simpl never.
#[local] Arguments Qdiv : simpl never.
#[local] Arguments inject_Z : simpl never.
#[local] Arguments Qle_bool : simpl never.
#[local] Arguments to_ull : simpl never.

Lemma Qltb_lt (a b : Q) : Qltb a b = true <-> a < b.
Proof.
  unfold Qltb. rewrite negb_true_iff. split.
  - intros H. apply Qnot_le_lt. intros Hle. apply Qle_bool_iff in Hle. congruence.
  - intros H. destruct (Qle_bool b a) eqn:E; [|reflexivity].
    apply Qle_bool_iff in E. lra.
Qed.

Lemma Qltb_ge (a b : Q) : Qltb a b = false <-> b <= a.
Proof.
  unfold Qltb. rewrite negb_false_iff. apply Qle_bool_iff.
Qed.

Lemma std_max_spec (a b : Q) :
  a <= std_max a b /\ b <= std_max a b /\ (std_max a b = a \/ std_max a b = b).
Proof.
  unfold std_max. destruct (Qltb a b) eqn:E.
  - apply Qltb_lt in E. repeat split; try lra. now right.
  - apply Qltb_ge in E. repeat split; try lra. now left.
Qed.

Lemma std_min_spec (a b : Q) :
  std_min a b <= a /\ std_min a b <= b /\ (std_min a b = a \/ std_min a b = b).
Proof.
  unfold std_min. destruct (Qltb b a) eqn:E.
  - apply Qltb_lt in E. repeat split; try lra. now right.
  - apply Qltb_ge in E. repeat split; try lra. now left.
Qed.

Lemma std_max_Qmax (a b : Q) : std_max a b == Qmax a b.
Proof.
  unfold std_max. destruct (Qltb a b) eqn:E.
  - apply Qltb_lt in E. symmetry. apply Q.max_r. lra.
  - apply Qltb_ge in E. symmetry. apply Q.max_l. exact E.
Qed.

Lemma std_min_Qmin (a b : Q) : std_min a b == Qmin a b.
Proof.
  unfold std_min. destruct (Qltb b a) eqn:E.
  - apply Qltb_lt in E. symmetry. apply Q.min_r. lra.
  - apply Qltb_ge in E. symmetry. apply Q.min_l. exact E.
Qed.

Lemma bind_Ok {A B} (m : Outcome A) (k : A -> Outcome B) (b : B) :
  bind m k = Ok b -> exists a, m = Ok a /\ k a = Ok b.
Proof. destruct m; simpl; [eauto | discriminate]. Qed.

Lemma sort_insert_length {A} (comp : A -> A -> bool) x l :
  length (sort_insert comp x l) = S (length l).
Proof. induction l as [|y l IH]; simpl; [reflexivity|]. destruct (comp x y); simpl; congruence. Qed.

Lemma sort_insert_perm {A} (comp : A -> A -> bool) x l :
  Permutation (x :: l) (sort_insert comp x l).
Proof.
  induction l as [|y l IH]; simpl; [reflexivity|].
  destruct (comp x y); [reflexivity|].
  rewrite perm_swap. now apply perm_skip.
Qed.

Lemma std_sort_perm {A} (comp : A -> A -> bool) l : Permutation l (std_sort comp l).
Proof.
  induction l as [|x l IH]; simpl; [reflexivity|].
  rewrite <- sort_insert_perm. now apply perm_skip.
Qed.

Lemma std_sort_length {A} (comp : A -> A -> bool) l : length (std_sort comp l) = length l.
Proof. symmetry. apply Permutation_length, std_sort_perm. Qed.

(** ** The solution pool *)

Lemma overwrite_same_length (dst src : list IloNum) :
  length dst = length src -> overwrite dst src = Ok src.
Proof.
  revert dst. induction src as [|s src IH]; intros [|d dst] Hlen; simpl in *;
    try discriminate; try reflexivity.
  rewrite IH by congruence. reflexivity.
Qed.

Lemma equal_decides (solution stored : list IloNum) :
  length stored = length solution ->
  exists b, SolutionPool.equal solution stored = Ok b /\ (b = true <-> similar solution stored).
Proof.
  revert stored. induction solution as [|x xs IH]; intros [|y ys] Hlen; simpl in *;
    try discriminate.
  - exists true. split; [reflexivity|]. split; [constructor | reflexivity].
  - destruct (Qltb SolutionPool.SIMILARITY_THRESHOLD (Qabs (Binary64.round (x - y)))) eqn:E.
    + exists false. split; [reflexivity|]. split; [discriminate|].
      intros H. inversion H; subst. apply Qltb_lt in E. lra.
    + destruct (IH ys) as (b & Hb & Hiff); [congruence|].
      exists b. split; [exact Hb|]. rewrite Hiff. split.
      * intros H. constructor; [now apply Qltb_ge in E | exact H].
      * intros H. now inversion H.
Qed.

Lemma similar_strictly_similar solution stored :
  similar_strictly solution stored -> similar solution stored.
Proof.
  unfold similar_strictly, similar. induction 1; constructor; [|assumption].
  apply round_abs_le_double; [apply is_double_d1e_5 | now apply Qlt_le_weak].
Qed.

Lemma similar_length solution stored : similar solution stored -> length solution = length stored.
Proof. apply Forall2_length. Qed.

(** The scan stops at the first stored solution that is similar. *)
Lemma scan_similar sense solution es i worst_idx worst_val :
  dimension (length solution) es ->
  Exists (fun e => similar solution (SolutionPool.solution e)) es ->
  SolutionPool.scan sense solution es i worst_idx worst_val = Ok SolutionPool.Similar.
Proof.
  intros Hdim. revert i worst_idx worst_val.
  induction es as [|e es IH]; intros i wi wv Hex.
  - inversion Hex.
  - apply Forall_cons in Hdim as [He Hes]. simpl.
    destruct (equal_decides solution (SolutionPool.solution e) He) as (b & -> & Hiff). simpl.
    destruct b; [reflexivity|].
    apply Exists_cons in Hex as [Hsim | Hex]; [apply Hiff in Hsim; discriminate|].
    destruct (SolutionPool.worse sense (SolutionPool.value e) wv); now apply IH.
Qed.

Lemma worse_false sense v w : SolutionPool.worse sense v w = false <-> no_worse sense v w.
Proof. destruct sense; simpl; apply Qltb_ge. Qed.

Lemma worse_true sense v w : SolutionPool.worse sense v w = true <-> strictly_better sense w v.
Proof. destruct sense; simpl; apply Qltb_lt. Qed.

Lemma better_true sense v w : SolutionPool.better sense v w = true <-> strictly_better sense v w.
Proof. destruct sense; simpl; apply Qltb_lt. Qed.

Lemma no_worse_trans sense a b c : no_worse sense a b -> no_worse sense b c -> no_worse sense a c.
Proof. destruct sense; simpl; lra. Qed.

Lemma strictly_better_no_worse sense a b : strictly_better sense a b -> no_worse sense a b.
Proof. destruct sense; simpl; lra. Qed.

(** Without a similar stored solution the scan ends with the first entry
    whose value is the worst one, or with its initial values when no entry
    is worse than the initial [worst_val]. *)
Lemma scan_worst sense solution es i worst_idx worst_val :
  dimension (length solution) es ->
  Forall (fun e => ~ similar solution (SolutionPool.solution e)) es ->
  exists worst_idx' worst_val',
    SolutionPool.scan sense solution es i worst_idx worst_val
      = Ok (SolutionPool.Worst worst_idx' worst_val')
    /\ (forall e, e ∈ es -> no_worse sense (SolutionPool.value e) worst_val')
    /\ no_worse sense worst_val worst_val'
    /\ ((worst_idx' = worst_idx /\ worst_val' = worst_val)
        \/ (exists e, (i <= worst_idx')%nat /\ es !! (worst_idx' - i)%nat = Some e
                      /\ SolutionPool.value e = worst_val')).
Proof.
  intros Hdim Hns. revert i worst_idx worst_val.
  induction es as [|e es IH]; intros i wi wv.
  - exists wi, wv. simpl. split; [reflexivity|]. split; [intros e He; inversion He|].
    split; [destruct sense; simpl; lra | now left].
  - apply Forall_cons in Hdim as [He Hes]. apply Forall_cons in Hns as [Hne Hnes].
    simpl.
    destruct (equal_decides solution (SolutionPool.solution e) He) as (b & -> & Hiff). simpl.
    destruct b; [exfalso; apply Hne, Hiff; reflexivity|].
    destruct (SolutionPool.worse sense (SolutionPool.value e) wv) eqn:Ew.
    + destruct (IH Hes Hnes (S i) i (SolutionPool.value e)) as (wi' & wv' & -> & Hall & Hle & Hwhere).
      exists wi', wv'. split; [reflexivity|]. split; [|split].
      * intros e' He'. apply elem_of_cons in He' as [-> | He']; [exact Hle | now apply Hall].
      * apply worse_true in Ew. apply strictly_better_no_worse in Ew.
        eapply no_worse_trans; eassumption.
      * right. destruct Hwhere as [[-> ->] | (e' & Hi & Hlook & Hv)].
        -- exists e. split; [lia|]. rewrite Nat.sub_diag. split; reflexivity.
        -- exists e'. split; [lia|]. split; [|exact Hv].
           replace (wi' - i)%nat with (S (wi' - S i)) by lia. exact Hlook.
    + destruct (IH Hes Hnes (S i) wi wv) as (wi' & wv' & -> & Hall & Hle & Hwhere).
      exists wi', wv'. split; [reflexivity|]. split; [|split].
      * intros e' He'. apply elem_of_cons in He' as [-> | He']; [| now apply Hall].
        apply worse_false in Ew. eapply no_worse_trans; eassumption.
      * exact Hle.
      * destruct Hwhere as [[-> ->] | (e' & Hi & Hlook & Hv)]; [now left|].
        right. exists e'. split; [lia|]. split; [|exact Hv].
        replace (wi' - i)%nat with (S (wi' - S i)) by lia. exact Hlook.
Qed.

(** Whatever [add_entry] answers, the pool's parameters stay, and the
    number of entries stays or grows by one, the latter only below
    [max_size_]. *)
Lemma add_entry_size p solution value b p' :
  SolutionPool.add_entry p solution value = Ok (b, p') ->
  SolutionPool.max_size_ p' = SolutionPool.max_size_ p
  /\ SolutionPool.sense_ p' = SolutionPool.sense_ p
  /\ SolutionPool.sorted_ p' = SolutionPool.sorted_ p
  /\ (SolutionPool.size p' = SolutionPool.size p
      \/ ((SolutionPool.size p < SolutionPool.max_size_ p)%nat
          /\ SolutionPool.size p' = S (SolutionPool.size p))).
Proof.
  unfold SolutionPool.add_entry, SolutionPool.size. intros H.
  apply bind_Ok in H as (s & _ & H). destruct s as [|wi wv].
  { injection H as <- <-. auto. }
  apply bind_Ok in H as (ins & Hins & H). destruct ins as [es|].
  2:{ injection H as <- <-. auto. }
  injection H as <- <-. simpl. repeat (split; [reflexivity|]).
  assert (Hlen : length (if SolutionPool.sorted_ p
                         then std_sort (SolutionPool.before (SolutionPool.sense_ p)) es
                         else es) = length es).
  { destruct (SolutionPool.sorted_ p); [apply std_sort_length | reflexivity]. }
  rewrite Hlen. clear Hlen.
  unfold SolutionPool.try_insert in Hins.
  destruct (length (SolutionPool.entries_ p) <? SolutionPool.max_size_ p)%nat eqn:E.
  - injection Hins as <-. right. apply Nat.ltb_lt in E. split; [exact E|].
    rewrite length_app. simpl. lia.
  - destruct (SolutionPool.better _ _ _); [|discriminate].
    apply bind_Ok in Hins as (old & _ & Hins).
    apply bind_Ok in Hins as (cells & _ & Hins).
    injection Hins as <-. left. apply length_insert.
Qed.

Lemma add_entries_size p cands p' :
  SolutionPool.add_entries p cands = Ok p' ->
  (SolutionPool.size p <= SolutionPool.max_size_ p)%nat ->
  (SolutionPool.size p' <= SolutionPool.max_size_ p')%nat
  /\ SolutionPool.max_size_ p' = SolutionPool.max_size_ p.
Proof.
  revert p. induction cands as [|[solution value] cands IH]; intros p H Hle; simpl in H.
  - injection H as <-. auto.
  - apply bind_Ok in H as ([b p1] & H1 & H). simpl in H.
    apply add_entry_size in H1 as (Hmax & _ & _ & Hsize).
    destruct (IH p1 H) as [H2 H3]; [lia|]. split; [exact H2 | congruence].
Qed.

Lemma similar_cases solution es :
  dimension (length solution) es ->
  Exists (fun e => similar solution (SolutionPool.solution e)) es
  \/ Forall (fun e => ~ similar solution (SolutionPool.solution e)) es.
Proof.
  induction 1 as [|e es He Hes IH]; [right; constructor|].
  destruct (equal_decides solution (SolutionPool.solution e) He) as ([] & _ & Hiff).
  - left. constructor. now apply Hiff.
  - destruct IH as [IH | IH]; [left; now apply Exists_cons_tl|].
    right. constructor; [|exact IH]. intros Hs. apply Hiff in Hs. discriminate.
Qed.

Lemma elem_of_insert_inv {A} (l : list A) i x y :
  y ∈ <[i:=x]> l -> y = x \/ y ∈ l.
Proof.
  intros Hy.
  assert (HF : Forall (fun z => z = x \/ z ∈ l) (<[i:=x]> l)).
  { apply Forall_insert; [|now left]. apply Forall_forall. intros z Hz. now right. }
  rewrite Forall_forall in HF. now apply HF.
Qed.

Lemma worst_init_finite sense v :
  finite v -> SolutionPool.better sense v (SolutionPool.worst_init sense) = false.
Proof.
  unfold finite. intros [Hlo Hhi]. destruct sense; simpl; apply Qltb_ge; lra.
Qed.

(** With stored solutions of the candidate's dimension and a finite
    candidate value, [add_entry] is defined, and what it stores has that
    dimension too. *)
Lemma add_entry_defined p solution value :
  dimension (length solution) (SolutionPool.entries_ p) ->
  finite value ->
  exists b p', SolutionPool.add_entry p solution value = Ok (b, p')
               /\ dimension (length solution) (SolutionPool.entries_ p').
Proof.
  intros Hdim Hfin. unfold SolutionPool.add_entry.
  destruct (similar_cases solution _ Hdim) as [Hex | Hall].
  { rewrite (scan_similar _ _ _ _ _ _ Hdim Hex). simpl. eauto. }
  destruct (scan_worst (SolutionPool.sense_ p) solution _ 0 0
              (SolutionPool.worst_init (SolutionPool.sense_ p)) Hdim Hall)
    as (wi & wv & -> & _ & _ & Hwhere).
  cbn [bind]. unfold SolutionPool.try_insert.
  assert (Hsorted : forall es, dimension (length solution) es ->
            dimension (length solution)
              (if SolutionPool.sorted_ p
               then std_sort (SolutionPool.before (SolutionPool.sense_ p)) es else es)).
  { intros es Hes. destruct (SolutionPool.sorted_ p); [|exact Hes].
    unfold dimension. now rewrite <- (std_sort_perm _ es). }
  destruct (length (SolutionPool.entries_ p) <? SolutionPool.max_size_ p)%nat.
  { cbn [bind]. eexists _, _. split; [reflexivity|]. cbn [SolutionPool.entries_].
    apply Hsorted. apply Forall_app. split; [exact Hdim|]. now constructor. }
  destruct (SolutionPool.better _ value wv) eqn:Eb.
  2:{ cbn [bind]. eauto. }
  destruct Hwhere as [[-> ->] | (old & _ & Hlook & _)].
  { rewrite worst_init_finite in Eb by exact Hfin. discriminate. }
  rewrite Nat.sub_0_r in Hlook. unfold at_index. rewrite Hlook. cbn [bind].
  assert (Hold : length (SolutionPool.solution old) = length solution).
  { unfold dimension in Hdim. rewrite Forall_forall in Hdim.
    apply Hdim. eapply list_elem_of_lookup_2, Hlook. }
  rewrite (overwrite_same_length _ _ Hold). cbn [bind].
  eexists _, _. split; [reflexivity|]. cbn [SolutionPool.entries_].
  apply Hsorted. apply Forall_insert; [exact Hdim | reflexivity].
Qed.

Lemma add_entries_defined p cands n :
  dimension n (SolutionPool.entries_ p) ->
  Forall (fun c => length (fst c) = n /\ finite (snd c)) cands ->
  exists p', SolutionPool.add_entries p cands = Ok p'.
Proof.
  intros Hdim Hc. revert p Hdim.
  induction Hc as [|[solution value] cands [Hlen Hfin] _ IH]; intros p Hdim; simpl in *.
  - eauto.
  - subst n. destruct (add_entry_defined p solution value Hdim Hfin) as (b & p1 & -> & Hdim1).
    cbn [bind snd]. now apply IH.
Qed.

(** C2.  Pool bound: after any number of [add_entry] calls on a pool
    constructed with [max_size], with candidates of one dimension and
    finite values, the calls are all defined and the pool holds at most
    [max_size] entries; and one call leaves the number of entries as it is
    or, only when it is below [max_size], adds one. *)
Theorem pool_bound (sense : Sense) (max_size : nat) (sorted : bool)
    (cands : list (list IloNum * IloNum)) (n k : nat) :
  Forall (fun c => length (fst c) = n /\ finite (snd c)) cands ->
  (exists p', SolutionPool.add_entries (SolutionPool.new sense max_size sorted)
                (take k cands) = Ok p'
              /\ (SolutionPool.size p' <= SolutionPool.max_size p')%nat
              /\ SolutionPool.max_size p' = max_size)
  /\ (forall p solution value b p',
        SolutionPool.add_entry p solution value = Ok (b, p') ->
        SolutionPool.max_size p' = SolutionPool.max_size p
        /\ (SolutionPool.size p' = SolutionPool.size p
            \/ ((SolutionPool.size p < SolutionPool.max_size p)%nat
                /\ SolutionPool.size p' = S (SolutionPool.size p)))).
Proof.
  intros Hc. split.
  - destruct (add_entries_defined (SolutionPool.new sense max_size sorted) (take k cands) n)
      as [p' Hp'].
    + constructor.
    + now apply Forall_take.
    + exists p'. split; [exact Hp'|].
      apply add_entries_size in Hp' as [H1 H2];
        [|unfold SolutionPool.size; simpl; lia].
      split; [exact H1 | exact H2].
  - intros p solution value b p' H.
    apply add_entry_size in H as (H1 & _ & _ & H2). split; [exact H1 | exact H2].
Qed.

(** C3.  A candidate similar to a stored solution (every coordinate closer
    than the threshold) is rejected, whatever its objective value, and the
    pool is what it was. *)
Theorem similar_rejected (p : SolutionPool.t) (solution : list IloNum) (value : IloNum) :
  dimension (length solution) (SolutionPool.entries_ p) ->
  Exists (fun e => similar_strictly solution (SolutionPool.solution e))
    (SolutionPool.entries_ p) ->
  SolutionPool.add_entry p solution value = Ok (false, p).
Proof.
  intros Hdim Hex. unfold SolutionPool.add_entry.
  rewrite (scan_similar _ solution (SolutionPool.entries_ p) 0 0 _ Hdim).
  - reflexivity.
  - eapply Exists_impl; [exact Hex|]. intros e. apply similar_strictly_similar.
Qed.

Lemma no_worse_Qeq sense a b c : b == c -> no_worse sense a b -> no_worse sense a c.
Proof. destruct sense; simpl; lra. Qed.

Lemma strictly_better_Qeq sense a b c :
  b == c -> strictly_better sense a b <-> strictly_better sense a c.
Proof. destruct sense; simpl; split; lra. Qed.

(** In a pool of finite values the scan ends at an entry that holds the
    worst value. *)
Lemma scan_finds_worst sense solution es w :
  dimension (length solution) es ->
  Forall (fun e => finite (SolutionPool.value e)) es ->
  Forall (fun e => ~ similar solution (SolutionPool.solution e)) es ->
  is_worst sense es w ->
  exists worst_idx worst_val old,
    SolutionPool.scan sense solution es 0 0 (SolutionPool.worst_init sense)
      = Ok (SolutionPool.Worst worst_idx worst_val)
    /\ es !! worst_idx = Some old
    /\ SolutionPool.value old == w
    /\ worst_val == w.
Proof.
  intros Hdim Hfin Hns [Hex Hall].
  apply Exists_exists in Hex as (ew & Hew & Hw). rewrite Forall_forall in Hall.
  destruct (scan_worst sense solution es 0 0 (SolutionPool.worst_init sense) Hdim Hns)
    as (wi & wv & Hscan & Hle & _ & Hwhere).
  exists wi, wv.
  destruct Hwhere as [[-> ->] | (old & _ & Hlook & Hv)].
  - destruct es as [|e0 es]; [inversion Hew|].
    exists e0. split; [exact Hscan|]. split; [reflexivity|].
    assert (Hval : forall e, e ∈ e0 :: es ->
              SolutionPool.value e == SolutionPool.worst_init sense).
    { intros e He. specialize (Hle e He).
      rewrite Forall_forall in Hfin. specialize (Hfin e He). unfold finite in Hfin.
      destruct sense; simpl in *; lra. }
    pose proof (Hval ew Hew) as H1. pose proof (Hval e0 (list_elem_of_here _ _)) as H2.
    split; lra.
  - rewrite Nat.sub_0_r in Hlook. exists old. split; [exact Hscan|]. split; [exact Hlook|].
    pose proof (Hall old (list_elem_of_lookup_2 _ _ _ Hlook)) as H1.
    pose proof (Hle ew Hew) as H2. rewrite Hv in H1.
    assert (wv == w) by (destruct sense; simpl in *; lra).
    split; [rewrite Hv|]; assumption.
Qed.

(** C4, as the code has it.  A full pool and a candidate that the pool's
    test tells from every stored solution (on some coordinate the rounded
    difference exceeds the double 1e-5): the candidate is inserted exactly
    when its value is strictly better than the worst stored value; it then
    takes the place of an entry holding that worst value (solution, value
    and age), the other entries stay, in their places when the pool is not
    sorted, and the worst stored value gets no worse. *)
Theorem worst_replacement (p : SolutionPool.t) (solution : list IloNum)
    (value w : IloNum) :
  SolutionPool.size p = SolutionPool.max_size p ->
  dimension (length solution) (SolutionPool.entries_ p) ->
  Forall (fun e => finite (SolutionPool.value e)) (SolutionPool.entries_ p) ->
  Forall (fun e => ~ similar solution (SolutionPool.solution e)) (SolutionPool.entries_ p) ->
  is_worst (SolutionPool.sense_ p) (SolutionPool.entries_ p) w ->
  exists b p',
    SolutionPool.add_entry p solution value = Ok (b, p')
    /\ (b = true <-> strictly_better (SolutionPool.sense_ p) value w)
    /\ (b = false -> p' = p)
    /\ (b = true ->
        exists i old,
          SolutionPool.entries_ p !! i = Some old
          /\ SolutionPool.value old == w
          /\ (let replaced :=
                <[i := SolutionPool.mkEntry solution value (SolutionPool.next_age_ p)]>
                  (SolutionPool.entries_ p) in
              SolutionPool.entries_ p' ≡ₚ replaced
              /\ (SolutionPool.sorted_ p = false -> SolutionPool.entries_ p' = replaced))
          /\ SolutionPool.next_age_ p' = to_ull (SolutionPool.next_age_ p - 1)
          /\ SolutionPool.size p' = SolutionPool.size p
          /\ forall w', is_worst (SolutionPool.sense_ p) (SolutionPool.entries_ p') w' ->
                        no_worse (SolutionPool.sense_ p) w' w).
Proof.
  intros Hfull Hdim Hfin Hns Hw.
  destruct (scan_finds_worst _ solution _ w Hdim Hfin Hns Hw)
    as (wi & wv & old & Hscan & Hlook & Hold & Hwv).
  unfold SolutionPool.add_entry. rewrite Hscan. cbn [bind].
  unfold SolutionPool.try_insert.
  unfold SolutionPool.size, SolutionPool.max_size in Hfull.
  rewrite Hfull, Nat.ltb_irrefl.
  destruct (SolutionPool.better (SolutionPool.sense_ p) value wv) eqn:Eb.
  - apply better_true in Eb. apply (strictly_better_Qeq _ _ _ _ Hwv) in Eb.
    unfold at_index. rewrite Hlook. cbn [bind].
    assert (Hlen : length (SolutionPool.solution old) = length solution).
    { unfold dimension in Hdim. rewrite Forall_forall in Hdim.
      apply Hdim. eapply list_elem_of_lookup_2, Hlook. }
    rewrite (overwrite_same_length _ _ Hlen). cbn [bind].
    eexists true, _. split; [reflexivity|].
    split; [tauto|]. split; [discriminate|]. intros _.
    exists wi, old. split; [exact Hlook|]. split; [exact Hold|].
    cbn [SolutionPool.entries_ SolutionPool.next_age_]. split.
    { split.
      - destruct (SolutionPool.sorted_ p); [|reflexivity].
        symmetry. apply std_sort_perm.
      - intros ->. reflexivity. }
    split; [reflexivity|]. split.
    { unfold SolutionPool.size. cbn [SolutionPool.entries_].
      destruct (SolutionPool.sorted_ p); [rewrite std_sort_length|]; apply length_insert. }
    intros w' [Hex' _]. apply Exists_exists in Hex' as (e' & He' & Hw').
    assert (He'' : e' ∈ <[wi := SolutionPool.mkEntry solution value (SolutionPool.next_age_ p)]>
                          (SolutionPool.entries_ p)).
    { destruct (SolutionPool.sorted_ p); [|exact He'].
      now rewrite (std_sort_perm (SolutionPool.before (SolutionPool.sense_ p))). }
    apply elem_of_insert_inv in He'' as [-> | He''].
    + cbn [SolutionPool.value] in Hw'.
      destruct (SolutionPool.sense_ p); simpl in *; lra.
    + destruct Hw as [_ Hall]. rewrite Forall_forall in Hall. specialize (Hall e' He'').
      destruct (SolutionPool.sense_ p); simpl in *; lra.
  - cbn [bind]. eexists false, p. split; [reflexivity|].
    split; [|split; [reflexivity | discriminate]].
    split; [discriminate|]. intros Hb.
    apply (strictly_better_Qeq _ _ _ _ Hwv) in Hb. apply better_true in Hb. congruence.
Qed.

Lemma equal_false_not_similar solution stored :
  length stored = length solution ->
  SolutionPool.equal solution stored = Ok false -> ~ similar solution stored.
Proof.
  intros Hlen He Hs. destruct (equal_decides solution stored Hlen) as (b & Hb & Hiff).
  apply Hiff in Hs. congruence.
Qed.

Lemma pool_bound_witness :
  (exists p', SolutionPool.add_entries (SolutionPool.new Minimize 3 true)
                (take 3 pool_scenario) = Ok p'
              /\ (SolutionPool.size p' <= SolutionPool.max_size p')%nat
              /\ SolutionPool.max_size p' = 3%nat)
  /\ (forall p solution value b p',
        SolutionPool.add_entry p solution value = Ok (b, p') ->
        SolutionPool.max_size p' = SolutionPool.max_size p
        /\ (SolutionPool.size p' = SolutionPool.size p
            \/ ((SolutionPool.size p < SolutionPool.max_size p)%nat
                /\ SolutionPool.size p' = S (SolutionPool.size p)))).
Proof.
  apply (pool_bound Minimize 3 true pool_scenario 3 3).
  unfold pool_scenario, finite.
  repeat constructor; vm_compute; congruence.
Defined.

Lemma similar_rejected_witness :
  SolutionPool.add_entry pool_full [0; 0; 1] 1 = Ok (false, pool_full).
Proof.
  apply (similar_rejected pool_full [0; 0; 1] 1).
  - unfold pool_full, dimension. repeat constructor.
  - unfold pool_full, similar_strictly. cbn [SolutionPool.entries_].
    right. right. left. cbn [SolutionPool.solution].
    repeat constructor; vm_compute; reflexivity.
Defined.

Lemma worst_replacement_witness :
  exists b p',
    SolutionPool.add_entry pool_full [1; 1; 0] 5 = Ok (b, p')
    /\ (b = true <-> strictly_better Minimize 5 12).
Proof.
  destruct (worst_replacement pool_full [1; 1; 0] 5 12) as (b & p' & Hadd & Hiff & _).
  - reflexivity.
  - unfold pool_full, dimension. repeat constructor.
  - unfold pool_full, finite. repeat constructor; vm_compute; congruence.
  - unfold pool_full. cbn [SolutionPool.entries_].
    repeat constructor; apply equal_false_not_similar; vm_compute; reflexivity.
  - unfold pool_full, is_worst. cbn [SolutionPool.entries_ SolutionPool.sense_]. split.
    + right. right. left. reflexivity.
    + repeat constructor; vm_compute; congruence.
  - exists b, p'. split; [exact Hadd | exact Hiff].
Defined.

(** C4 as stated fails: the only solution of [pool_single], [0], and the
    candidate, the double 1e-5, differ by exactly the threshold, which is
    not "less than the threshold", and the candidate's value 5 is better
    than the worst value 10; yet the pool's test finds them similar and
    rejects the candidate. *)
Lemma worst_replacement_as_stated_fails : ~ worst_replacement_as_stated.
Proof.
  intros H.
  destruct (H pool_single [Binary64.d1e_5] 5 10) as (b & p' & Hadd & Hiff).
  - reflexivity.
  - unfold pool_single, dimension. repeat constructor.
  - unfold finite. split; vm_compute; congruence.
  - unfold pool_single, finite. repeat constructor; vm_compute; congruence.
  - unfold pool_single. cbn [SolutionPool.entries_]. repeat constructor.
    cbn [SolutionPool.solution]. intros Hs. inversion Hs as [|x y xs ys Hxy _]; subst.
    revert Hxy. vm_compute. intros Hxy. discriminate.
  - unfold pool_single, is_worst. cbn [SolutionPool.entries_ SolutionPool.sense_]. split.
    + left. reflexivity.
    + repeat constructor. vm_compute. congruence.
  - assert (Hcode : SolutionPool.add_entry pool_single [Binary64.d1e_5] 5
                     = Ok (false, pool_single))
      by (vm_compute; reflexivity).
    rewrite Hcode in Hadd. injection Hadd as <- _.
    assert (Hb : false = true) by (apply Hiff; vm_compute; reflexivity).
    discriminate.
Qed.

Example scenario1 :
  SolutionPool.add_entries (SolutionPool.new Minimize 3 true) pool_scenario = Ok pool_full.
Proof. vm_compute. reflexivity. Qed.

Example scenario2 :
  SolutionPool.add_entry pool_full [1; 1; 0] 15 = Ok (false, pool_full).
Proof. vm_compute. reflexivity. Qed.

Example scenario3 :
  option_map (fun r => (fst r, map SolutionPool.value (SolutionPool.entries_ (snd r))))
    (match SolutionPool.add_entry pool_full [1; 1; 0] 5 with
     | Ok r => Some r
     | Undefined _ => None
     end)
  = Some (true, [5; 8; 10]).
Proof. vm_compute. reflexivity. Qed.

(** ** [std_sort] and the contract of [std::sort] *)

Section SortContract.
Context {A : Type} (comp : A -> A -> bool) (l : list A).

(** [comp] is a strict total order on the elements of [l]. *)
Hypothesis comp_asym :
  forall a b, a ∈ l -> b ∈ l -> comp a b = true -> comp b a = false.
Hypothesis comp_trans :
  forall a b c, a ∈ l -> b ∈ l -> c ∈ l ->
                comp a b = true -> comp b c = true -> comp a c = true.
Hypothesis comp_total :
  forall a b, a ∈ l -> b ∈ l -> comp a b = false -> comp b a = false -> a = b.

Lemma sort_insert_ordered x s :
  x ∈ l -> (forall y, y ∈ s -> y ∈ l) ->
  StronglySorted (ordered_by comp) s -> StronglySorted (ordered_by comp) (sort_insert comp x s).
Proof using comp_asym comp_trans.
  intros Hx. induction s as [|y s IH]; intros Hs Hsorted; simpl.
  - repeat constructor.
  - apply StronglySorted_inv in Hsorted as [Hsorted Hy].
    assert (Hyl : y ∈ l) by (apply Hs, list_elem_of_here).
    assert (Hsl : forall z, z ∈ s -> z ∈ l) by (intros z Hz; apply Hs; now right).
    destruct (comp x y) eqn:E.
    + constructor; [now constructor|]. constructor; [now apply comp_asym|].
      rewrite Forall_forall in Hy |- *. intros z Hz. unfold ordered_by.
      destruct (comp z x) eqn:Ezx; [|reflexivity].
      rewrite <- (Hy z Hz). symmetry.
      apply (comp_trans z x y); auto.
    + constructor; [now apply IH|].
      rewrite Forall_forall in Hy |- *. intros z Hz.
      rewrite <- (sort_insert_perm comp x s) in Hz.
      apply elem_of_cons in Hz as [-> | Hz]; [exact E | now apply Hy].
Qed.

Lemma std_sort_ordered s :
  (forall y, y ∈ s -> y ∈ l) -> StronglySorted (ordered_by comp) (std_sort comp s).
Proof using comp_asym comp_trans.
  induction s as [|x s IH]; intros Hs; simpl; [constructor|].
  apply sort_insert_ordered.
  - apply Hs, list_elem_of_here.
  - intros y Hy. rewrite <- (std_sort_perm comp s) in Hy. apply Hs. now right.
  - apply IH. intros y Hy. apply Hs. now right.
Qed.

Lemma ordered_unique l1 l2 :
  (forall y, y ∈ l1 -> y ∈ l) ->
  l1 ≡ₚ l2 -> StronglySorted (ordered_by comp) l1 -> StronglySorted (ordered_by comp) l2 -> l1 = l2.
Proof using comp_total.
  revert l2. induction l1 as [|a l1 IH]; intros l2 Hl Hperm H1 H2.
  - apply Permutation_nil in Hperm. now subst.
  - destruct l2 as [|b l2]; [symmetry in Hperm; now apply Permutation_nil in Hperm|].
    apply StronglySorted_inv in H1 as [H1 Ha]. apply StronglySorted_inv in H2 as [H2 Hb].
    rewrite Forall_forall in Ha, Hb.
    assert (Hal : a ∈ l) by (apply Hl, list_elem_of_here).
    assert (Hbl : b ∈ l).
    { apply Hl. rewrite Hperm. apply list_elem_of_here. }
    assert (Hab : a = b).
    { assert (Ha2 : a ∈ b :: l2) by (rewrite <- Hperm; apply list_elem_of_here).
      assert (Hb1 : b ∈ a :: l1) by (rewrite Hperm; apply list_elem_of_here).
      apply elem_of_cons in Ha2 as [Heq | Ha2]; [exact Heq|].
      apply elem_of_cons in Hb1 as [Heq | Hb1]; [now symmetry|].
      apply comp_total; auto.
      - apply (Hb a Ha2).
      - apply (Ha b Hb1). }
    subst b. f_equal. apply IH; auto.
    + intros y Hy. apply Hl. now right.
    + eapply Permutation_cons_inv, Hperm.
Qed.

(** Where [comp] is a strict total order on the range, the contract of
    [std::sort] leaves one result, and [std_sort] computes it. *)
Lemma std_sort_unique l' :
  l ≡ₚ l' -> StronglySorted (ordered_by comp) l' -> l' = std_sort comp l.
Proof using comp_asym comp_trans comp_total.
  intros Hperm Hsorted. symmetry. apply ordered_unique.
  - intros y Hy. now rewrite <- (std_sort_perm comp l) in Hy.
  - rewrite <- Hperm. symmetry. apply std_sort_perm.
  - apply std_sort_ordered. auto.
  - exact Hsorted.
Qed.
End SortContract.

(** ** The order of a sorted pool *)

(** The rounded distance of two doubles is the same both ways, and is 0
    between equal ones. *)
Lemma round_distance_sym (a b : Q) :
  Qabs (Binary64.round (a - b)) == Qabs (Binary64.round (b - a)).
Proof.
  assert (E : b - a == - (a - b)) by ring.
  rewrite (round_comp _ _ E), round_opp. symmetry. apply Qabs_opp.
Qed.

Lemma round_distance_same (a b : Q) : a == b -> Qabs (Binary64.round (a - b)) == 0.
Proof.
  intros H. assert (E : a - b == 0) by lra. rewrite (round_comp _ _ E). reflexivity.
Qed.

Lemma before_asym sense e1 e2 :
  SolutionPool.before sense e1 e2 = true -> SolutionPool.before sense e2 e1 = false.
Proof.
  unfold SolutionPool.before.
  pose proof (round_distance_sym (SolutionPool.value e1) (SolutionPool.value e2)) as Habs.
  destruct (Qltb (Qabs (Binary64.round (SolutionPool.value e1 - SolutionPool.value e2))) _)
    eqn:E1;
  destruct (Qltb (Qabs (Binary64.round (SolutionPool.value e2 - SolutionPool.value e1))) _)
    eqn:E2.
  - intros H. apply Z.ltb_lt in H. apply Z.ltb_ge. now apply Z.lt_le_incl.
  - apply Qltb_lt in E1. apply Qltb_ge in E2. lra.
  - apply Qltb_ge in E1. apply Qltb_lt in E2. lra.
  - destruct sense; intros H; apply Qltb_lt in H; apply Qltb_ge; lra.
Qed.

Lemma before_false_in_order sense e1 e2 :
  SolutionPool.before sense e2 e1 = false -> in_order sense e1 e2.
Proof.
  unfold SolutionPool.before, in_order.
  pose proof (round_distance_sym (SolutionPool.value e1) (SolutionPool.value e2)) as Habs.
  destruct (Qltb (Qabs (Binary64.round (SolutionPool.value e2 - SolutionPool.value e1))) _)
    eqn:E.
  - apply Qltb_lt in E. intros H. apply Z.ltb_ge in H.
    split; [intros _; exact H | lra].
  - apply Qltb_ge in E. intros H. split; [lra|]. intros Hfar.
    assert (Hne : ~ SolutionPool.value e1 == SolutionPool.value e2).
    { intros Heq. pose proof (round_distance_same _ _ Heq) as H0.
      unfold SolutionPool.SIMILARITY_THRESHOLD, Binary64.d1e_5 in *. lra. }
    destruct sense; apply Qltb_ge in H; simpl; lra.
Qed.

Section Sorting.
Context {A : Type} (comp : A -> A -> bool).
Hypothesis comp_asym : forall a b, comp a b = true -> comp b a = false.

(** Neighbours in the result of [std_sort] are never the wrong way round,
    transitive comparator or not. *)
Lemma sort_insert_sorted x l :
  Sorted (fun a b => comp b a = false) l ->
  Sorted (fun a b => comp b a = false) (sort_insert comp x l).
Proof using comp_asym.
  induction l as [|y l IH]; intros Hs; simpl.
  - repeat constructor.
  - destruct (comp x y) eqn:E.
    + constructor; [exact Hs|]. constructor. now apply comp_asym.
    + apply Sorted_inv in Hs as [Hs Hhd]. constructor; [now apply IH|].
      destruct l as [|z l]; simpl.
      * constructor. exact E.
      * destruct (comp x z); constructor; [exact E|].
        now apply HdRel_inv in Hhd.
Qed.

Lemma std_sort_sorted l : Sorted (fun a b => comp b a = false) (std_sort comp l).
Proof using comp_asym.
  induction l as [|x l IH]; simpl; [constructor | now apply sort_insert_sorted].
Qed.
End Sorting.

Lemma Sorted_neighbours {A} (R : A -> A -> Prop) l i a b :
  Sorted R l -> l !! i = Some a -> l !! S i = Some b -> R a b.
Proof.
  intros Hs. revert i. induction Hs as [|x l Hs IH Hhd]; intros i Ha Hb.
  - discriminate.
  - destruct i as [|i]; simpl in *.
    + injection Ha as ->. destruct l as [|y l]; [discriminate|].
      simpl in Hb. injection Hb as ->. now apply HdRel_inv in Hhd.
    + eapply IH; eassumption.
Qed.

Lemma add_entry_inserted p solution value p' :
  SolutionPool.add_entry p solution value = Ok (true, p') ->
  exists es,
    SolutionPool.entries_ p'
    = (if SolutionPool.sorted_ p
       then std_sort (SolutionPool.before (SolutionPool.sense_ p)) es else es)
    /\ SolutionPool.next_age_ p' = to_ull (SolutionPool.next_age_ p - 1)
    /\ exists e, e ∈ es /\ SolutionPool.value e = value
                 /\ SolutionPool.age e = SolutionPool.next_age_ p.
Proof.
  unfold SolutionPool.add_entry. intros H.
  apply bind_Ok in H as (s & _ & H). destruct s as [|wi wv]; [discriminate|].
  apply bind_Ok in H as (ins & Hins & H). destruct ins as [es|]; [|discriminate].
  injection H as <-. exists es. cbn [SolutionPool.entries_ SolutionPool.next_age_].
  split; [reflexivity|]. split; [reflexivity|].
  unfold SolutionPool.try_insert in Hins.
  destruct (length (SolutionPool.entries_ p) <? SolutionPool.max_size_ p)%nat.
  - injection Hins as <-. eexists. split.
    { apply elem_of_app. right. apply list_elem_of_here. }
    split; reflexivity.
  - destruct (SolutionPool.better _ _ _); [|discriminate].
    apply bind_Ok in Hins as (old & Hold & Hins).
    apply bind_Ok in Hins as (cells & _ & Hins).
    injection Hins as <-. eexists. split.
    { apply list_elem_of_insert. unfold at_index in Hold.
      destruct (SolutionPool.entries_ p !! wi) eqn:E; [|discriminate].
      eapply lookup_lt_Some, E. }
    split; reflexivity.
Qed.

(** C5, as the code has it.  After a successful [add_entry] on a sorted
    pool, of two neighbours whose values are closer than the threshold the
    later one never has the smaller age, and otherwise the earlier one is
    strictly better; the entry just inserted carries the age [next_age_],
    which starts at the largest value and is decremented at each insertion. *)
Theorem sort_invariant (p : SolutionPool.t) (solution : list IloNum) (value : IloNum)
    (p' : SolutionPool.t) :
  SolutionPool.sorted_ p = true ->
  SolutionPool.add_entry p solution value = Ok (true, p') ->
  (forall i e1 e2,
      SolutionPool.entries_ p' !! i = Some e1 ->
      SolutionPool.entries_ p' !! S i = Some e2 ->
      in_order (SolutionPool.sense_ p) e1 e2)
  /\ (exists e, e ∈ SolutionPool.entries_ p' /\ SolutionPool.value e = value
                /\ SolutionPool.age e = SolutionPool.next_age_ p)
  /\ SolutionPool.next_age_ p' = to_ull (SolutionPool.next_age_ p - 1)
  /\ (forall sense max_size sorted,
        SolutionPool.next_age_ (SolutionPool.new sense max_size sorted) = ULLONG_MAX).
Proof.
  intros Hsorted H.
  apply add_entry_inserted in H as (es & Hes & Hage & e & He & Hv & Ha).
  rewrite Hsorted in Hes. split; [|split; [|split]].
  - intros i e1 e2 H1 H2. apply before_false_in_order. rewrite Hes in H1, H2.
    eapply (Sorted_neighbours (fun a b => SolutionPool.before (SolutionPool.sense_ p) b a = false));
      [|exact H1|exact H2].
    apply std_sort_sorted. apply before_asym.
  - exists e. split; [|split; assumption].
    rewrite Hes. now rewrite <- (std_sort_perm _ es).
  - exact Hage.
  - reflexivity.
Qed.

Lemma sort_invariant_witness :
  (forall i e1 e2,
      SolutionPool.entries_ pool_two !! i = Some e1 ->
      SolutionPool.entries_ pool_two !! S i = Some e2 ->
      in_order Minimize e1 e2)
  /\ (exists e, e ∈ SolutionPool.entries_ pool_two /\ SolutionPool.value e = ten_and_a_bit
                /\ SolutionPool.age e = SolutionPool.next_age_ pool_one)
  /\ SolutionPool.next_age_ pool_two = to_ull (SolutionPool.next_age_ pool_one - 1)
  /\ (forall sense max_size sorted,
        SolutionPool.next_age_ (SolutionPool.new sense max_size sorted) = ULLONG_MAX).
Proof.
  apply (sort_invariant pool_one [1] ten_and_a_bit pool_two).
  - reflexivity.
  - vm_compute. reflexivity.
Defined.

(** C5 as stated fails: in [pool_two], reached from [pool_one] by one
    successful [add_entry], the first entry (10.000005) is worse than the
    second (10). *)
Lemma sort_invariant_as_stated_fails :
  ~ (forall p solution value p',
       SolutionPool.sorted_ p = true ->
       SolutionPool.add_entry p solution value = Ok (true, p') ->
       sort_invariant_as_stated (SolutionPool.sense_ p') (SolutionPool.entries_ p')).
Proof.
  intros H.
  assert (Hadd : SolutionPool.add_entry pool_one [1] ten_and_a_bit = Ok (true, pool_two))
    by (vm_compute; reflexivity).
  specialize (H pool_one [1] ten_and_a_bit pool_two eq_refl Hadd).
  destruct (H 0%nat _ _ eq_refl eq_refl) as [Hbad _].
  revert Hbad. vm_compute. intros Hbad. now apply Hbad.
Qed.

Example pool_one_reached :
  SolutionPool.add_entries (SolutionPool.new Minimize 3 true) [([0], 10)] = Ok pool_one.
Proof. vm_compute. reflexivity. Qed.

(** ** The abort callback *)

Lemma main_within_limits c i :
  AbortCallback.aborted_ c = false ->
  AbortCallback.initialized_ c = true ->
  within_limits c i ->
  AbortCallback.main c i
  = if Qltb Binary64.d1e_5
          (Binary64.round
             (AbortCallback.obj_last_incumbent_ c - AbortCallback.IncumbentObjValue i))
    then (AbortCallback.set_last c (AbortCallback.IncumbentObjValue i) (AbortCallback.Nnodes64 i),
          false)
    else if (AbortCallback.nodes_unsuccessful_ c
             <? to_ull (AbortCallback.Nnodes64 i - AbortCallback.nodes_last_incumbent_ c))%Z
         then (AbortCallback.set_aborted c, true)
         else (c, false).
Proof.
  intros Ha Hi [Ht Hn]. unfold AbortCallback.main. rewrite Ha, Ht, Hi.
  apply Z.leb_gt in Hn. rewrite Hn. reflexivity.
Qed.

Lemma mains_no_decrease c infos :
  AbortCallback.aborted_ c = false ->
  AbortCallback.initialized_ c = true ->
  Forall (fun i => within_limits c i
                   /\ AbortCallback.obj_last_incumbent_ c <= AbortCallback.IncumbentObjValue i)
    infos ->
  AbortCallback.nodes_last_incumbent_ (fst (AbortCallback.mains c infos))
  = AbortCallback.nodes_last_incumbent_ c
  /\ AbortCallback.obj_last_incumbent_ (fst (AbortCallback.mains c infos))
     = AbortCallback.obj_last_incumbent_ c
  /\ (snd (AbortCallback.mains c infos) = true <-> Exists (stagnated c) infos).
Proof.
  intros Ha Hi. induction 1 as [|i infos [Hlim Hobj] _ IH]; simpl.
  - repeat split; try discriminate. intros H; inversion H.
  - rewrite (main_within_limits c i Ha Hi Hlim).
    destruct (Qltb _ _) eqn:E.
    { apply Qltb_lt in E. exfalso.
      assert (G : Binary64.round (AbortCallback.obj_last_incumbent_ c
                                  - AbortCallback.IncumbentObjValue i) <= 0)
        by (apply round_le_double; [apply is_double_0 | lra]).
      unfold Binary64.d1e_5 in E. lra. }
    destruct (_ <? _)%Z eqn:En; simpl.
    + repeat split; try reflexivity. intros _. left. now apply Z.ltb_lt in En.
    + destruct IH as (H1 & H2 & H3). repeat split; try assumption.
      * intros H. right. now apply H3.
      * intros H. apply H3. apply Exists_cons in H as [H | H]; [|exact H].
        apply Z.ltb_ge in En. unfold stagnated in H.
        exfalso. revert H En. apply Z.lt_nge.
Qed.

(** C10.  Past the time and node checks, an initialized callback records a
    new incumbent, and the node at which it was found, exactly when the
    incumbent value has decreased by more than 1e-5 (the decrease as the
    machine rounds it, against the double 1e-5; a decrease of at most that
    double never counts); it has no field for the sense of the problem.
    So while the incumbent value never goes below the recorded one, as in a
    maximization that keeps improving, the recorded node stays, and the
    callback aborts as soon as more than [nodes_unsuccessful_] nodes have
    passed since it. *)
Theorem stagnation_ignores_sense :
  (forall c i,
      AbortCallback.aborted_ c = false ->
      AbortCallback.initialized_ c = true ->
      within_limits c i ->
      let c' := fst (AbortCallback.main c i) in
      let decrease :=
        AbortCallback.obj_last_incumbent_ c - AbortCallback.IncumbentObjValue i in
      (Binary64.d1e_5 < Binary64.round decrease ->
       AbortCallback.nodes_last_incumbent_ c' = AbortCallback.Nnodes64 i
       /\ AbortCallback.obj_last_incumbent_ c' = AbortCallback.IncumbentObjValue i
       /\ snd (AbortCallback.main c i) = false)
      /\ (Binary64.round decrease <= Binary64.d1e_5 \/ decrease <= Binary64.d1e_5 ->
          AbortCallback.nodes_last_incumbent_ c' = AbortCallback.nodes_last_incumbent_ c
          /\ AbortCallback.obj_last_incumbent_ c' = AbortCallback.obj_last_incumbent_ c
          /\ (snd (AbortCallback.main c i) = true <-> stagnated c i)))
  /\ (forall c infos,
        AbortCallback.aborted_ c = false ->
        AbortCallback.initialized_ c = true ->
        Forall (fun i => within_limits c i
                         /\ AbortCallback.obj_last_incumbent_ c
                            <= AbortCallback.IncumbentObjValue i) infos ->
        AbortCallback.nodes_last_incumbent_ (fst (AbortCallback.mains c infos))
        = AbortCallback.nodes_last_incumbent_ c
        /\ (snd (AbortCallback.mains c infos) = true <-> Exists (stagnated c) infos)).
Proof.
  split.
  - intros c i Ha Hi Hlim c' decrease. subst c' decrease.
    rewrite (main_within_limits c i Ha Hi Hlim).
    split; intros H.
    + apply Qltb_lt in H. rewrite H. simpl. auto.
    + assert (H' : Binary64.round (AbortCallback.obj_last_incumbent_ c
                                   - AbortCallback.IncumbentObjValue i) <= Binary64.d1e_5).
      { destruct H as [H | H]; [exact H|].
        apply round_le_double; [apply is_double_d1e_5 | exact H]. }
      apply Qltb_ge in H'. rewrite H'. unfold stagnated.
      destruct (_ <? _)%Z eqn:En; simpl.
      * apply Z.ltb_lt in En. repeat split; auto.
      * apply Z.ltb_ge in En. repeat split; try discriminate.
        intros Hs. exfalso. revert Hs En. apply Z.lt_nge.
  - intros c infos Ha Hi HF.
    destruct (mains_no_decrease c infos Ha Hi HF) as (H1 & _ & H3). split; assumption.
Qed.

Lemma stagnation_ignores_sense_witness :
  AbortCallback.nodes_last_incumbent_
    (fst (AbortCallback.mains abort_callback_started improving_calls)) = 0%Z
  /\ snd (AbortCallback.mains abort_callback_started improving_calls) = true.
Proof.
  destruct (proj2 stagnation_ignores_sense abort_callback_started improving_calls)
    as [H1 H2].
  - reflexivity.
  - reflexivity.
  - unfold improving_calls, within_limits.
    repeat constructor; vm_compute; congruence.
  - split; [exact H1|]. apply H2. unfold improving_calls, stagnated.
    right. right. left. vm_compute. reflexivity.
Defined.

(** ** What the heuristics share *)

(** The test compares the candidate with a rounded sum; a candidate that
    is a double and passes it beats the incumbent by more than the
    tolerance. *)
Lemma improves_beats sense a b :
  Binary64.is_double a -> improves sense a b = true -> beats sense a b.
Proof.
  intros Ha. destruct sense; simpl; intros H; apply Qltb_lt in H.
  - now apply lt_round_double.
  - now apply round_lt_double.
Qed.

Lemma beats_trans sense a b c : beats sense a b -> beats sense b c -> beats sense a c.
Proof. destruct sense; simpl; unfold THRESHOLD, Binary64.d1e_5; lra. Qed.

Lemma beats_strictly_better sense a b : beats sense a b -> strictly_better sense a b.
Proof. destruct sense; simpl; unfold THRESHOLD, Binary64.d1e_5; lra. Qed.

(** [assign_all] overwrites the whole of [dst] with the leading cells of
    [src]. *)
Lemma assign_all_take (dst src cells : list IloNum) :
  assign_all dst src = Ok cells -> cells = take (length dst) src /\ length cells = length dst.
Proof.
  revert src cells. induction dst as [|d dst IH]; intros src cells H; simpl in H.
  - injection H as <-. split; reflexivity.
  - destruct src as [|x src]; [discriminate|].
    apply bind_Ok in H as (r & Hr & H). injection H as <-.
    destruct (IH _ _ Hr) as [-> Hlen]. simpl. split; [reflexivity | now rewrite Hlen].
Qed.

(** The one block that changes the running incumbent. *)
Lemma harvest_spec {H : Type} sense r (s s' : Search H) b :
  harvest sense r s = Ok (s', b) ->
  heuristic s' = heuristic s
  /\ trace s' = trace s
  /\ (SolutionPool.size (pool s) <= SolutionPool.size (pool s'))%nat
  /\ b = solve r && improves sense (getObjValue r) (incumbent_objective s)
  /\ (if b
      then incumbent_objective s' = getObjValue r
           /\ assign_all (incumbent_solution s) (getValues r) = Ok (incumbent_solution s')
      else incumbent_is (incumbent_objective s) (incumbent_solution s) s').
Proof.
  unfold harvest. destruct (solve r).
  - intros H0. apply bind_Ok in H0 as ([b0 p0] & Hadd & H0). simpl in H0.
    apply add_entry_size in Hadd as (_ & _ & _ & Hsize).
    destruct (improves sense (getObjValue r) (incumbent_objective s)).
    + apply bind_Ok in H0 as (cells & Hcells & H0). injection H0 as <- <-. simpl.
      repeat split; try reflexivity; try assumption. lia.
    + injection H0 as <- <-. simpl. repeat split; try reflexivity. lia.
  - intros H0. injection H0 as <- <-. simpl. repeat split; reflexivity || lia.
Qed.

(** After the block the incumbent is the one before, or the solution of
    the sub-MIP, which beats it. *)
Lemma harvest_incumbent {H : Type} sense r (s s' : Search H) b :
  Binary64.is_double (getObjValue r) ->
  harvest sense r s = Ok (s', b) ->
  (b = false /\ incumbent_is (incumbent_objective s) (incumbent_solution s) s')
  \/ (b = true /\ solve r = true /\ incumbent_objective s' = getObjValue r
      /\ incumbent_solution s' = take (length (incumbent_solution s)) (getValues r)
      /\ beats sense (getObjValue r) (incumbent_objective s)).
Proof.
  intros Hd H0. apply harvest_spec in H0 as (_ & _ & _ & Hb & Hinc).
  destruct b.
  - right. symmetry in Hb. apply andb_true_iff in Hb as [Hs Hi].
    apply (improves_beats _ _ _ Hd) in Hi. destruct Hinc as [Ho Hcells].
    apply assign_all_take in Hcells as [Hcells _]. auto.
  - left. auto.
Qed.

(** ** Rothberg: one iteration *)

Lemma fix_to_seed_bounds seed vars j count bounds :
  Rothberg.fix_to_seed seed vars j count = Ok bounds -> Forall sets_bounds bounds.
Proof.
  revert j bounds. induction vars as [|index vars IH]; intros j bounds H; simpl in H.
  - injection H as <-. constructor.
  - apply bind_Ok in H as (a & Ha & H). apply bind_Ok in H as (rest & Hrest & H).
    injection H as <-. constructor; [|eapply IH, Hrest].
    destruct (j <? count)%nat.
    + apply bind_Ok in Ha as (x & _ & Ha). injection Ha as <-. exact I.
    + injection Ha as <-. exact I.
Qed.

Lemma fix_to_consensus_bounds es vars bounds :
  Rothberg.fix_to_consensus es vars = Ok bounds -> Forall sets_bounds bounds.
Proof.
  revert bounds. induction vars as [|idx vars IH]; intros bounds H; simpl in H.
  - injection H as <-. constructor.
  - apply bind_Ok in H as (e0 & _ & H). apply bind_Ok in H as (x0 & _ & H).
    apply bind_Ok in H as (fixit & _ & H). apply bind_Ok in H as (rest & Hrest & H).
    injection H as <-. constructor; [|eapply IH, Hrest]. destruct fixit; exact I.
Qed.

Lemma fix_to_pair_bounds solution1 solution2 vars bounds :
  Rothberg.fix_to_pair solution1 solution2 vars = Ok bounds -> Forall sets_bounds bounds.
Proof.
  revert bounds. induction vars as [|idx vars IH]; intros bounds H; simpl in H.
  - injection H as <-. constructor.
  - apply bind_Ok in H as (x1 & _ & H). apply bind_Ok in H as (x2 & _ & H).
    apply bind_Ok in H as (rest & Hrest & H).
    injection H as <-. constructor; [|eapply IH, Hrest]. destruct (Qltb _ _); exact I.
Qed.

(** What one mutation iteration does: the calls it makes, the incumbent
    it leaves and the fixing fraction it sets. *)
Lemma mutation_spec c m s s' :
  Rothberg.mutation c m s = Ok s' ->
  let improved :=
    solve (Rothberg.m_submip m)
    && improves (Rothberg.submip_sense_ (heuristic s))
         (getObjValue (Rothberg.m_submip m)) (incumbent_objective s) in
  (exists bounds,
      Forall sets_bounds bounds
      /\ trace s' = trace s ++ [clear] ++ bounds
                    ++ [extract; Rothberg.abort_callback (heuristic s) c; solve_submip])
  /\ heuristic s'
     = Rothberg.update_fixing_fraction
         (Rothberg.set_binary_variables (heuristic s) (Rothberg.m_shuffle m))
         improved (getStatus (Rothberg.m_submip m))
  /\ (1 <= SolutionPool.size (pool s))%nat
  /\ (SolutionPool.size (pool s) <= SolutionPool.size (pool s'))%nat
  /\ (if improved
      then incumbent_objective s' = getObjValue (Rothberg.m_submip m)
           /\ assign_all (incumbent_solution s) (getValues (Rothberg.m_submip m))
              = Ok (incumbent_solution s')
      else incumbent_is (incumbent_objective s) (incumbent_solution s) s').
Proof.
  unfold Rothberg.mutation. intros H.
  apply bind_Ok in H as (idx0 & Hidx0 & H). apply bind_Ok in H as (idx & _ & H).
  apply bind_Ok in H as (entry & _ & H). apply bind_Ok in H as (count & _ & H).
  apply bind_Ok in H as (bounds & Hbounds & H). apply bind_Ok in H as ([s2 b] & Hh & H).
  injection H as <-. apply harvest_spec in Hh as (Hheur & Htrace & Hsize & Hb & Hinc).
  cbn [fst snd heuristic with_heuristic with_actions trace pool incumbent_objective
       incumbent_solution] in *.
  subst b. split; [|split; [|split; [|split]]].
  - exists bounds. split; [eapply fix_to_seed_bounds, Hbounds | exact Htrace].
  - rewrite Hheur. reflexivity.
  - unfold umod in Hidx0.
    destruct (Z.of_nat (SolutionPool.size (pool s)) =? 0)%Z eqn:E; [discriminate|].
    apply Z.eqb_neq in E. destruct (SolutionPool.size (pool s)); [now elim E | apply le_n_S, Nat.le_0_l].
  - exact Hsize.
  - exact Hinc.
Qed.

(** What one recombination iteration does. *)
Lemma recombination_spec c consider_all i r s s' :
  Rothberg.recombination c consider_all i r s = Ok s' ->
  let improved :=
    solve (Rothberg.r_submip r)
    && improves (Rothberg.submip_sense_ (heuristic s))
         (getObjValue (Rothberg.r_submip r)) (incumbent_objective s) in
  (exists bounds start,
      Rothberg.build i consider_all r s = Ok (bounds, start)
      /\ Forall sets_bounds bounds
      /\ trace s' = trace s ++ [clear] ++ bounds
                    ++ [extract; addMIPStart start;
                        Rothberg.abort_callback (heuristic s) c; solve_submip])
  /\ heuristic s' = heuristic s
  /\ (SolutionPool.size (pool s) <= SolutionPool.size (pool s'))%nat
  /\ (if improved
      then incumbent_objective s' = getObjValue (Rothberg.r_submip r)
           /\ assign_all (incumbent_solution s) (getValues (Rothberg.r_submip r))
              = Ok (incumbent_solution s')
      else incumbent_is (incumbent_objective s) (incumbent_solution s) s').
Proof.
  unfold Rothberg.recombination. intros H.
  apply bind_Ok in H as ([bounds start] & Hbuild & H).
  apply bind_Ok in H as ([s2 b] & Hh & H).
  injection H as <-. apply harvest_spec in Hh as (Hheur & Htrace & Hsize & Hb & Hinc).
  cbn [fst snd heuristic with_heuristic with_actions trace pool incumbent_objective
       incumbent_solution] in *.
  subst b. split; [|split; [|split]].
  - exists bounds, start. split; [exact Hbuild|]. split; [|exact Htrace].
    unfold Rothberg.build in Hbuild. destruct (Rothberg.mode _ _).
    + apply bind_Ok in Hbuild as (bs & Hbs & Hbuild).
      apply bind_Ok in Hbuild as (e0 & _ & Hbuild). injection Hbuild as <- <-.
      eapply fix_to_consensus_bounds, Hbs.
    + apply bind_Ok in Hbuild as (k & _ & Hbuild).
      apply bind_Ok in Hbuild as (idx1 & _ & Hbuild).
      apply bind_Ok in Hbuild as (entry1 & _ & Hbuild).
      apply bind_Ok in Hbuild as (entry2 & _ & Hbuild).
      apply bind_Ok in Hbuild as (bs & Hbs & Hbuild). injection Hbuild as <- <-.
      eapply fix_to_pair_bounds, Hbs.
  - exact Hheur.
  - exact Hsize.
  - exact Hinc.
Qed.

(** ** Rothberg: the loops *)

Lemma mutation_loop_inv (P : Search Rothberg.t -> Prop) c :
  (forall i s s', P s -> Rothberg.mutation c (Rothberg.mutations c i) s = Ok s' -> P s') ->
  forall n i s s', P s -> Rothberg.mutation_loop c n i s = Ok s' -> P s'.
Proof.
  intros Hstep. induction n as [|n IH]; intros i s s' HP H; simpl in H.
  - injection H as <-. exact HP.
  - destruct (time_reached _ _ _).
    + injection H as <-. exact HP.
    + apply bind_Ok in H as (s1 & H1 & H). eapply IH; [|exact H]. eapply Hstep; eassumption.
Qed.

Lemma recombination_loop_inv (P : Search Rothberg.t -> Prop) c consider_all :
  (forall i s s', P s ->
     Rothberg.recombination c consider_all i (Rothberg.recombinations c i) s = Ok s' -> P s') ->
  forall n i s s', P s -> Rothberg.recombination_loop c consider_all n i s = Ok s' -> P s'.
Proof.
  intros Hstep. induction n as [|n IH]; intros i s s' HP H; simpl in H.
  - injection H as <-. exact HP.
  - destruct (time_reached _ _ _).
    + injection H as <-. exact HP.
    + apply bind_Ok in H as (s1 & H1 & H). eapply IH; [|exact H]. eapply Hstep; eassumption.
Qed.

(** A property of the search that the two loop bodies keep and that does
    not look at the offset or at the trace holds after [run]. *)
Lemma run_inv (P : Search Rothberg.t -> Prop) h p c s :
  (forall i s s', P s -> Rothberg.mutation c (Rothberg.mutations c i) s = Ok s' -> P s') ->
  (forall ca i s s', P s ->
     Rothberg.recombination c ca i (Rothberg.recombinations c i) s = Ok s' -> P s') ->
  (forall s, P s -> P (with_heuristic s (Rothberg.update_offset (heuristic s)))) ->
  (forall s acts, P s -> P (with_actions s acts)) ->
  P (mkSearch h p (Rothberg.getIncumbentObjValue c) (Rothberg.cplex_getValues c) []) ->
  Rothberg.run h p c = Ok s -> P s.
Proof.
  intros Hm Hr Ho Ha H0. unfold Rothberg.run. intros H.
  apply bind_Ok in H as (s1 & H1 & H). apply bind_Ok in H as (s2 & H2 & H).
  injection H as <-. apply Ha.
  assert (P1 : P s1).
  { unfold Rothberg.mutation_phase in H1. destruct (1 <=? _)%nat.
    - apply bind_Ok in H1 as (s1' & H1 & H1'). injection H1' as <-. apply Ho.
      eapply mutation_loop_inv; [exact Hm | exact H0 | exact H1].
    - injection H1 as <-. exact H0. }
  unfold Rothberg.recombination_phase in H2. destruct (2 <=? _)%nat.
  - apply bind_Ok in H2 as (ca & _ & H2).
    eapply recombination_loop_inv; [apply Hr | exact P1 | exact H2].
  - injection H2 as <-. exact P1.
Qed.

(** ** Rothberg: the mutation phase *)

Lemma update_fixing_fraction_offsets h vars improved status :
  same_offsets h
    (Rothberg.update_fixing_fraction (Rothberg.set_binary_variables h vars) improved status).
Proof.
  unfold Rothberg.update_fixing_fraction, same_offsets.
  destruct improved; [|destruct status]; simpl; auto.
Qed.

Lemma mutation_loop_offsets c n i s s' :
  Rothberg.mutation_loop c n i s = Ok s' -> same_offsets (heuristic s) (heuristic s').
Proof.
  apply (mutation_loop_inv (fun s1 => same_offsets (heuristic s) (heuristic s1))).
  - intros j s1 s2 (H1 & H2 & H3 & H4 & H5) Hm.
    apply mutation_spec in Hm as (_ & -> & _).
    destruct (update_fixing_fraction_offsets (heuristic s1) (Rothberg.m_shuffle (Rothberg.mutations c j))
                (solve (Rothberg.m_submip (Rothberg.mutations c j))
                 && improves (Rothberg.submip_sense_ (heuristic s1))
                      (getObjValue (Rothberg.m_submip (Rothberg.mutations c j)))
                      (incumbent_objective s1))
                (getStatus (Rothberg.m_submip (Rothberg.mutations c j))))
      as (G1 & G2 & G3 & G4 & G5).
    unfold same_offsets. rewrite G1, G2, G3, G4, G5. auto.
  - unfold same_offsets. auto.
Qed.

(** [std::max] and [std::min] by cases. *)
Lemma std_max_cases (a b : Q) : (a < b -> std_max a b = b) /\ (b <= a -> std_max a b = a).
Proof.
  unfold std_max. split; intros H.
  - apply Qltb_lt in H. now rewrite H.
  - apply Qltb_ge in H. now rewrite H.
Qed.

Lemma std_min_cases (a b : Q) : (b < a -> std_min a b = b) /\ (a <= b -> std_min a b = a).
Proof.
  unfold std_min. split; intros H.
  - apply Qltb_lt in H. now rewrite H.
  - apply Qltb_ge in H. now rewrite H.
Qed.

(** C7.  A mutation iteration leaves the offset alone.  When it did not
    improve the incumbent and the sub-MIP ended Optimal or Infeasible, the
    fixing fraction becomes the difference [fixing_fraction - offset] (as
    the machine rounds it) when that is positive, and 0 when it is not;
    with any other status it becomes the sum [fixing_fraction + offset]
    when that is below 1, and 1 when it is not; with an improvement it
    stays.  The loop itself never touches the offset, and the mutation
    phase, however many iterations it makes before the loop ends or the
    time limit breaks it, ends with the offset equal to the product
    [(1 - offset_reduction) * offset] when that is above [offset_minimum],
    and to [offset_minimum] when it is not. *)
Theorem fixing_fraction_adaptation :
  (forall c m s s',
      Rothberg.mutation c m s = Ok s' ->
      let h := heuristic s in
      let status := getStatus (Rothberg.m_submip m) in
      let improved :=
        solve (Rothberg.m_submip m)
        && improves (Rothberg.submip_sense_ h)
             (getObjValue (Rothberg.m_submip m)) (incumbent_objective s) in
      let lowered := Binary64.round (Rothberg.fixing_fraction_ h - Rothberg.offset_ h) in
      let raised := Binary64.round (Rothberg.fixing_fraction_ h + Rothberg.offset_ h) in
      Rothberg.offset_ (heuristic s') = Rothberg.offset_ h
      /\ (improved = true ->
          Rothberg.fixing_fraction_ (heuristic s') = Rothberg.fixing_fraction_ h)
      /\ (improved = false -> status = Optimal \/ status = Infeasible ->
          (0 < lowered -> Rothberg.fixing_fraction_ (heuristic s') = lowered)
          /\ (lowered <= 0 -> Rothberg.fixing_fraction_ (heuristic s') = 0))
      /\ (improved = false -> status <> Optimal -> status <> Infeasible ->
          (raised < 1 -> Rothberg.fixing_fraction_ (heuristic s') = raised)
          /\ (1 <= raised -> Rothberg.fixing_fraction_ (heuristic s') = 1)))
  /\ (forall c n i s s',
        Rothberg.mutation_loop c n i s = Ok s' ->
        Rothberg.offset_ (heuristic s') = Rothberg.offset_ (heuristic s))
  /\ (forall c s s',
        (1 <= SolutionPool.size (pool s))%nat ->
        Rothberg.mutation_phase c s = Ok s' ->
        let h := heuristic s in
        let reduced :=
          Binary64.round (Binary64.round (1 - Rothberg.offset_reduction_ h)
                          * Rothberg.offset_ h) in
        (Rothberg.offset_minimum_ h < reduced -> Rothberg.offset_ (heuristic s') = reduced)
        /\ (reduced <= Rothberg.offset_minimum_ h ->
            Rothberg.offset_ (heuristic s') = Rothberg.offset_minimum_ h)).
Proof.
  split; [|split].
  - intros c m s s' H h status improved lowered raised.
    apply mutation_spec in H as (_ & -> & _). subst h status improved lowered raised.
    split; [apply update_fixing_fraction_offsets|].
    unfold Rothberg.update_fixing_fraction.
    cbn [Rothberg.fixing_fraction_ Rothberg.offset_ Rothberg.set_binary_variables].
    split; [|split].
    + intros Hi. rewrite Hi. reflexivity.
    + intros Hi Hs. rewrite Hi.
      assert (E : Rothberg.fixing_fraction_
                    (match getStatus (Rothberg.m_submip m) with
                     | Optimal | Infeasible =>
                         Rothberg.set_fixing_fraction
                           (Rothberg.set_binary_variables (heuristic s) (Rothberg.m_shuffle m))
                           (std_max 0
                              (Binary64.round
                                 (Rothberg.fixing_fraction_ (heuristic s)
                                  - Rothberg.offset_ (heuristic s))))
                     | _ =>
                         Rothberg.set_fixing_fraction
                           (Rothberg.set_binary_variables (heuristic s) (Rothberg.m_shuffle m))
                           (std_min 1
                              (Binary64.round
                                 (Rothberg.fixing_fraction_ (heuristic s)
                                  + Rothberg.offset_ (heuristic s))))
                     end)
                  = std_max 0
                      (Binary64.round
                         (Rothberg.fixing_fraction_ (heuristic s)
                          - Rothberg.offset_ (heuristic s)))).
      { destruct Hs as [-> | ->]; reflexivity. }
      cbn [Rothberg.fixing_fraction_ Rothberg.offset_ Rothberg.set_binary_variables] in *.
      rewrite E. apply std_max_cases.
    + intros Hi H1 H2. rewrite Hi.
      cbn [Rothberg.fixing_fraction_ Rothberg.offset_ Rothberg.set_binary_variables].
      destruct (getStatus (Rothberg.m_submip m)); try congruence;
        cbn [Rothberg.fixing_fraction_ Rothberg.set_fixing_fraction];
        split; intros Hc; first [now apply std_min_cases | now apply std_min_cases].
  - intros c n i s s' H. now apply mutation_loop_offsets in H as (H1 & _).
  - intros c s s' Hsize H h reduced. unfold Rothberg.mutation_phase in H.
    apply Nat.leb_le in Hsize. rewrite Hsize in H.
    apply bind_Ok in H as (s1 & H1 & H). injection H as <-.
    apply mutation_loop_offsets in H1 as (H1 & H2 & H3 & _).
    cbn [heuristic with_heuristic]. unfold Rothberg.update_offset.
    cbn [Rothberg.offset_ Rothberg.set_offset]. subst h reduced. rewrite H1, H2, H3.
    apply std_max_cases.
Qed.

Lemma fixing_fraction_adaptation_witness :
  Rothberg.fixing_fraction_ (heuristic (scenario5_after 1)) = Binary64.round (3 # 10)
  /\ Rothberg.fixing_fraction_ (heuristic (scenario5_after 3)) = 0
  /\ Rothberg.offset_ (heuristic demo_after_mutations)
     = Binary64.round ((3 # 4) * Binary64.round (1 # 5)).
Proof.
  split; [|split].
  - transitivity (Binary64.round ((1 # 2) - Binary64.round (1 # 5)));
      [|vm_compute; reflexivity].
    apply (proj1 fixing_fraction_adaptation scenario5_call (Rothberg.mutations scenario5_call 0)
             (scenario5_after 0) (scenario5_after 1)).
    + vm_compute. reflexivity.
    + reflexivity.
    + right. reflexivity.
    + vm_compute. reflexivity.
  - apply (proj1 fixing_fraction_adaptation scenario5_call (Rothberg.mutations scenario5_call 2)
             (scenario5_after 2) (scenario5_after 3)).
    + vm_compute. reflexivity.
    + reflexivity.
    + right. reflexivity.
    + vm_compute. discriminate.
  - transitivity (Binary64.round (Binary64.round (1 - (1 # 4)) * Binary64.round (1 # 5)));
      [|vm_compute; reflexivity].
    apply (proj2 (proj2 fixing_fraction_adaptation) demo_call (demo_start 2)
             demo_after_mutations).
    + vm_compute. lia.
    + vm_compute. reflexivity.
    + vm_compute. reflexivity.
Defined.

Lemma not_sets_bounds_start start bounds : Forall sets_bounds bounds -> addMIPStart start ∉ bounds.
Proof.
  intros HF Hin. rewrite Forall_forall in HF. apply (HF _ Hin).
Qed.

(** C9, as the code has it.  A mutation iteration sets bounds, extracts
    the model, installs the abort callback with the time limit of [run],
    no node limit and the stagnation limit [submip_nodes_unsuccessful_],
    and solves; the mutation phase installs no MIP start at all. *)
Theorem mutation_submip_setup :
  (forall c m s s',
      Rothberg.mutation c m s = Ok s' ->
      exists bounds,
        Forall sets_bounds bounds
        /\ trace s' = trace s ++ [clear] ++ bounds
                      ++ [extract;
                          use_AbortCallback (Rothberg.timer c) (Rothberg.time_limit c)
                            ULLONG_MAX
                            (to_ull (Rothberg.submip_nodes_unsuccessful_ (heuristic s)));
                          solve_submip])
  /\ (forall c s s',
        Rothberg.mutation_phase c s = Ok s' ->
        exists added, trace s' = trace s ++ added /\ forall start, addMIPStart start ∉ added).
Proof.
  split.
  - intros c m s s' H. apply mutation_spec in H as (Hb & _). exact Hb.
  - intros c s s' H. unfold Rothberg.mutation_phase in H.
    assert (Hloop : forall n i s1,
               Rothberg.mutation_loop c n i s = Ok s1 ->
               exists added, trace s1 = trace s ++ added
                             /\ forall start, addMIPStart start ∉ added).
    { intros n i s1.
      apply (mutation_loop_inv
               (fun s1 => exists added, trace s1 = trace s ++ added
                                        /\ forall start, addMIPStart start ∉ added)).
      - intros j s2 s3 (added & Htr & Hno) Hm.
        apply mutation_spec in Hm as ((bounds & Hb & Htr') & _).
        exists (added ++ [clear] ++ bounds
                ++ [extract; Rothberg.abort_callback (heuristic s2) c; solve_submip]).
        split; [rewrite Htr', Htr; now rewrite <- app_assoc|].
        intros start Hin. apply elem_of_app in Hin as [Hin | Hin]; [now apply (Hno start)|].
        apply elem_of_app in Hin as [Hin | Hin].
        { apply list_elem_of_singleton in Hin. discriminate. }
        apply elem_of_app in Hin as [Hin | Hin].
        { now apply (not_sets_bounds_start start bounds Hb). }
        repeat (apply elem_of_cons in Hin as [Hin | Hin]; [discriminate|]).
        inversion Hin.
      - exists []. split; [now rewrite app_nil_r|]. intros start Hin. inversion Hin. }
    destruct (1 <=? _)%nat.
    + apply bind_Ok in H as (s1 & H1 & H). injection H as <-.
      cbn [trace with_heuristic]. eapply Hloop, H1.
    + injection H as <-. exists []. split; [now rewrite app_nil_r|].
      intros start Hin. inversion Hin.
Qed.

Lemma mutation_submip_setup_witness :
  exists bounds,
    Forall sets_bounds bounds
    /\ trace demo_mutated
       = [] ++ [clear] ++ bounds ++ [extract; use_AbortCallback false 0 ULLONG_MAX 100; solve_submip].
Proof.
  apply (proj1 mutation_submip_setup demo_call (Rothberg.mutations demo_call 0)
           (demo_start 2) demo_mutated).
  vm_compute. reflexivity.
Defined.

(** C9 as stated fails: the first mutation iteration of the demo call
    solves its sub-MIP without a MIP start. *)
Lemma mutation_warm_start_fails : ~ mutation_warm_start_as_stated.
Proof.
  intros H.
  destruct (H demo_call (Rothberg.mutations demo_call 0) (demo_start 2) demo_mutated)
    as (before & after & Htr & _).
  { vm_compute. reflexivity. }
  assert (Hin : addMIPStart (incumbent_solution (demo_start 2)) ∈ trace demo_mutated).
  { rewrite Htr. apply elem_of_app. right. apply elem_of_app. right. apply list_elem_of_here. }
  unfold demo_mutated in Hin. cbn [trace] in Hin.
  repeat (apply elem_of_cons in Hin as [Hin | Hin]; [discriminate|]).
  inversion Hin.
Qed.

(** ** Rothberg: the recombination phase *)

Lemma consensus_index_in_range r n :
  (0 < n)%Z -> exists consider_all, umod r n = Ok consider_all /\ (0 <= consider_all < n)%Z.
Proof.
  intros Hn. unfold umod. destruct (n =? 0)%Z eqn:E; [apply Z.eqb_eq in E; lia|].
  eexists. split; [reflexivity|]. now apply Z.mod_pos_bound.
Qed.

Lemma mode_consensus i consider_all :
  Rothberg.mode i consider_all = Rothberg.Consensus <-> i = consider_all.
Proof.
  unfold Rothberg.mode. destruct (i =? consider_all)%Z eqn:E.
  - apply Z.eqb_eq in E. tauto.
  - apply Z.eqb_neq in E. split; [discriminate | tauto].
Qed.

(** C6, where the code departs from it.  With [num_recombinations_ = 0]
    and at least two solutions in the pool, the recombination phase does
    not end with no iteration made: line 168 takes a remainder by zero. *)
Theorem zero_recombinations_undefined :
  (forall c s,
      Rothberg.num_recombinations_ (heuristic s) = 0%Z ->
      (2 <= SolutionPool.size (pool s))%nat ->
      Rothberg.recombination_phase c s = Undefined DivisionByZero)
  /\ Rothberg.run (demo_rothberg 0) demo_pool demo_call = Undefined DivisionByZero.
Proof.
  split.
  - intros c s Hn Hsize. unfold Rothberg.recombination_phase.
    apply Nat.leb_le in Hsize. rewrite Hsize, Hn. reflexivity.
  - vm_compute. reflexivity.
Qed.

Lemma zero_recombinations_undefined_witness :
  Rothberg.recombination_phase demo_call (demo_start 0) = Undefined DivisionByZero.
Proof.
  apply (proj1 zero_recombinations_undefined demo_call (demo_start 0)).
  - reflexivity.
  - vm_compute. lia.
Defined.

(** ** Maravilha: one iteration and the loop *)

Lemma iteration_spec c it s s' :
  Maravilha.iteration c it s = Ok s' ->
  let improved :=
    solve (Maravilha.i_submip it)
    && improves (Maravilha.submip_sense_ (heuristic s))
         (getObjValue (Maravilha.i_submip it)) (incumbent_objective s) in
  heuristic s'
  = Maravilha.update_submip_size (heuristic s) improved (getStatus (Maravilha.i_submip it))
  /\ (SolutionPool.size (pool s) <= SolutionPool.size (pool s'))%nat
  /\ (if improved
      then incumbent_objective s' = getObjValue (Maravilha.i_submip it)
           /\ assign_all (incumbent_solution s) (getValues (Maravilha.i_submip it))
              = Ok (incumbent_solution s')
      else incumbent_is (incumbent_objective s) (incumbent_solution s) s').
Proof.
  unfold Maravilha.iteration. intros H.
  apply bind_Ok in H as (idx & _ & H). apply bind_Ok in H as (entry & _ & H).
  apply bind_Ok in H as (fixed & _ & H). apply bind_Ok in H as ([s2 b] & Hh & H).
  injection H as <-. apply harvest_spec in Hh as (Hheur & Htrace & Hsize & Hb & Hinc).
  cbn [fst snd heuristic with_heuristic with_actions trace pool incumbent_objective
       incumbent_solution] in *.
  subst b. rewrite Hheur. auto.
Qed.

Lemma update_submip_size_sense h improved status :
  Maravilha.submip_sense_ (Maravilha.update_submip_size h improved status)
  = Maravilha.submip_sense_ h
  /\ Maravilha.offset_ (Maravilha.update_submip_size h improved status)
     = Maravilha.offset_ h.
Proof.
  unfold Maravilha.update_submip_size. destruct improved; [|destruct status]; auto.
Qed.

Lemma loop_inv (P : Search Maravilha.t -> Prop) c :
  (forall i s s', P s -> Maravilha.iteration c (Maravilha.iterations c i) s = Ok s' -> P s') ->
  forall n i s s', P s -> Maravilha.loop c n i s = Ok s' -> P s'.
Proof.
  intros Hstep. induction n as [|n IH]; intros i s s' HP H; simpl in H.
  - injection H as <-. exact HP.
  - destruct (time_reached _ _ _).
    + injection H as <-. exact HP.
    + apply bind_Ok in H as (s1 & H1 & H). eapply IH; [|exact H]. eapply Hstep; eassumption.
Qed.

Lemma maravilha_run_inv (P : Search Maravilha.t -> Prop) h p c s :
  (forall i s s', P s -> Maravilha.iteration c (Maravilha.iterations c i) s = Ok s' -> P s') ->
  (forall s acts, P s -> P (with_actions s acts)) ->
  P (mkSearch h p (Maravilha.getIncumbentObjValue c) (Maravilha.getIncumbentValues c) []) ->
  Maravilha.run h p c = Ok s -> P s.
Proof.
  intros Hi Ha H0. unfold Maravilha.run. destruct (0 <? _)%nat.
  - intros H. apply bind_Ok in H as (s1 & H1 & H). injection H as <-. apply Ha.
    eapply loop_inv; [exact Hi | exact H0 | exact H1].
  - intros H. injection H as <-. exact H0.
Qed.

(** ** The running incumbent *)

Lemma kept_or_taken_step {H : Type} sense obj sol (answers : SubMIP -> Prop)
    (s s' : Search H) r :
  answers r ->
  Binary64.is_double (getObjValue r) ->
  kept_or_taken sense obj sol answers (incumbent_objective s) (incumbent_solution s) ->
  (if solve r && improves sense (getObjValue r) (incumbent_objective s)
   then incumbent_objective s' = getObjValue r
        /\ assign_all (incumbent_solution s) (getValues r) = Ok (incumbent_solution s')
   else incumbent_is (incumbent_objective s) (incumbent_solution s) s') ->
  kept_or_taken sense obj sol answers (incumbent_objective s') (incumbent_solution s').
Proof.
  intros Hr Hd [Hlen Hk] Hinc. destruct (solve r && improves sense _ _) eqn:E.
  - apply andb_true_iff in E as [Es E]. apply (improves_beats _ _ _ Hd) in E.
    destruct Hinc as [Ho Hcells]. apply assign_all_take in Hcells as [Hcells Hlen'].
    split; [congruence|]. right. exists r. rewrite Ho, Hcells, Hlen.
    repeat split; try assumption; try reflexivity.
    destruct Hk as [[Hk _] | (r0 & _ & _ & _ & _ & Hb)].
    + now rewrite <- Hk.
    + eapply beats_trans; eassumption.
  - destruct Hinc as [Ho Hs]. rewrite Ho, Hs. split; assumption.
Qed.

Lemma kept_step {H : Type} sense obj sol (s s' : Search H) r :
  Binary64.is_double (getObjValue r) ->
  incumbent_is obj sol s ->
  ~ qualifies sense obj r ->
  (if solve r && improves sense (getObjValue r) (incumbent_objective s)
   then incumbent_objective s' = getObjValue r
        /\ assign_all (incumbent_solution s) (getValues r) = Ok (incumbent_solution s')
   else incumbent_is (incumbent_objective s) (incumbent_solution s) s') ->
  incumbent_is obj sol s'.
Proof.
  intros Hd [Hk1 Hk2] Hq Hinc. destruct (solve r && improves sense _ _) eqn:E.
  - apply andb_true_iff in E as [E1 E2]. apply (improves_beats _ _ _ Hd) in E2.
    exfalso. apply Hq. split; [exact E1 | now rewrite <- Hk1].
  - destruct Hinc as [Ho Hs]. split; congruence.
Qed.

Lemma kept_or_taken_no_worse sense obj sol answers o sl :
  kept_or_taken sense obj sol answers o sl -> no_worse sense o obj.
Proof.
  intros [_ [[-> _] | (r & _ & _ & _ & _ & Hb)]].
  - destruct sense; simpl; lra.
  - apply strictly_better_no_worse, beats_strictly_better, Hb.
Qed.

Lemma kept_or_taken_start sense obj sol answers : kept_or_taken sense obj sol answers obj sol.
Proof. split; [reflexivity | left; split; reflexivity]. Qed.

Lemma rothberg_run_incumbent (P : IloNum -> list IloNum -> Prop) h p c s :
  (forall i (s1 s2 : Search Rothberg.t),
      Rothberg.submip_sense_ (heuristic s1) = Rothberg.submip_sense_ h ->
      P (incumbent_objective s1) (incumbent_solution s1) ->
      (let r := Rothberg.m_submip (Rothberg.mutations c i) in
       if solve r && improves (Rothberg.submip_sense_ h) (getObjValue r) (incumbent_objective s1)
       then incumbent_objective s2 = getObjValue r
            /\ assign_all (incumbent_solution s1) (getValues r) = Ok (incumbent_solution s2)
       else incumbent_is (incumbent_objective s1) (incumbent_solution s1) s2) ->
      P (incumbent_objective s2) (incumbent_solution s2)) ->
  (forall i (s1 s2 : Search Rothberg.t),
      Rothberg.submip_sense_ (heuristic s1) = Rothberg.submip_sense_ h ->
      P (incumbent_objective s1) (incumbent_solution s1) ->
      (let r := Rothberg.r_submip (Rothberg.recombinations c i) in
       if solve r && improves (Rothberg.submip_sense_ h) (getObjValue r) (incumbent_objective s1)
       then incumbent_objective s2 = getObjValue r
            /\ assign_all (incumbent_solution s1) (getValues r) = Ok (incumbent_solution s2)
       else incumbent_is (incumbent_objective s1) (incumbent_solution s1) s2) ->
      P (incumbent_objective s2) (incumbent_solution s2)) ->
  P (Rothberg.getIncumbentObjValue c) (Rothberg.cplex_getValues c) ->
  Rothberg.run h p c = Ok s ->
  P (incumbent_objective s) (incumbent_solution s).
Proof.
  intros Hm Hr H0 Hrun.
  apply (run_inv (fun s1 => Rothberg.submip_sense_ (heuristic s1) = Rothberg.submip_sense_ h
                            /\ P (incumbent_objective s1) (incumbent_solution s1))
           h p c s); try assumption.
  - intros i s1 s2 [Hs HP] Hmut. apply mutation_spec in Hmut as (_ & Hh & _ & _ & Hinc).
    split.
    + rewrite Hh. destruct (update_fixing_fraction_offsets (heuristic s1)
        (Rothberg.m_shuffle (Rothberg.mutations c i))
        (solve (Rothberg.m_submip (Rothberg.mutations c i))
         && improves (Rothberg.submip_sense_ (heuristic s1))
              (getObjValue (Rothberg.m_submip (Rothberg.mutations c i)))
              (incumbent_objective s1))
        (getStatus (Rothberg.m_submip (Rothberg.mutations c i)))) as (_ & _ & _ & G & _).
      now rewrite G.
    + rewrite Hs in Hinc. eapply Hm; eassumption.
  - intros ca i s1 s2 [Hs HP] Hrec. apply recombination_spec in Hrec as (_ & Hh & _ & Hinc).
    split; [now rewrite Hh|]. rewrite Hs in Hinc. eapply Hr; eassumption.
  - intros s1 [Hs HP]. split; assumption.
  - intros s1 acts [Hs HP]. split; assumption.
  - split; [reflexivity | exact H0].
Qed.

Lemma maravilha_run_incumbent (P : IloNum -> list IloNum -> Prop) h p c s :
  (forall i (s1 s2 : Search Maravilha.t),
      P (incumbent_objective s1) (incumbent_solution s1) ->
      (let r := Maravilha.i_submip (Maravilha.iterations c i) in
       if solve r && improves (Maravilha.submip_sense_ h) (getObjValue r) (incumbent_objective s1)
       then incumbent_objective s2 = getObjValue r
            /\ assign_all (incumbent_solution s1) (getValues r) = Ok (incumbent_solution s2)
       else incumbent_is (incumbent_objective s1) (incumbent_solution s1) s2) ->
      P (incumbent_objective s2) (incumbent_solution s2)) ->
  P (Maravilha.getIncumbentObjValue c) (Maravilha.getIncumbentValues c) ->
  Maravilha.run h p c = Ok s ->
  P (incumbent_objective s) (incumbent_solution s).
Proof.
  intros Hi H0 Hrun.
  apply (maravilha_run_inv
           (fun s1 => Maravilha.submip_sense_ (heuristic s1) = Maravilha.submip_sense_ h
                      /\ P (incumbent_objective s1) (incumbent_solution s1))
           h p c s); try assumption.
  - intros i s1 s2 [Hs HP] Hit. apply iteration_spec in Hit as (Hh & _ & Hinc). split.
    + rewrite Hh. now rewrite (proj1 (update_submip_size_sense _ _ _)).
    + rewrite Hs in Hinc. eapply Hi; eassumption.
  - intros s1 acts [Hs HP]. split; assumption.
  - split; [reflexivity | exact H0].
Qed.

(** C1.  The block that harvests a sub-MIP solution replaces the running
    incumbent only by that solution, objective value and vector together,
    and only when it beats the incumbent by more than the tolerance.  So
    what [run] hands to [setSolution] is the incumbent it read at its start
    or the solution of one of the sub-MIPs it solved, which beats that
    incumbent: its objective is never worse, and it is the incumbent read
    at the start when no sub-MIP answer beats that one.  The objective
    values the solver returns are doubles.  [Maravilha::run] calls
    [setSolution] only with a non-empty pool. *)
Theorem incumbent_non_regression :
  (forall (H : Type) sense r (s s' : Search H) b,
      Binary64.is_double (getObjValue r) ->
      harvest sense r s = Ok (s', b) ->
      (b = false /\ incumbent_is (incumbent_objective s) (incumbent_solution s) s')
      \/ (b = true /\ solve r = true /\ incumbent_objective s' = getObjValue r
          /\ incumbent_solution s' = take (length (incumbent_solution s)) (getValues r)
          /\ beats sense (getObjValue r) (incumbent_objective s)))
  /\ (forall h p c s,
        (forall r, rothberg_answer c r -> Binary64.is_double (getObjValue r)) ->
        Rothberg.run h p c = Ok s ->
        let sense := Rothberg.submip_sense_ h in
        let obj := Rothberg.getIncumbentObjValue c in
        let sol := Rothberg.cplex_getValues c in
        (exists acts, trace s = acts ++ [setSolution (incumbent_solution s)])
        /\ no_worse sense (incumbent_objective s) obj
        /\ (incumbent_is obj sol s
            \/ exists r,
                 rothberg_answer c r /\ solve r = true
                 /\ incumbent_objective s = getObjValue r
                 /\ incumbent_solution s = take (length sol) (getValues r)
                 /\ beats sense (getObjValue r) obj)
        /\ ((forall r, rothberg_answer c r -> ~ qualifies sense obj r) ->
            incumbent_is obj sol s))
  /\ (forall h p c s,
        (forall r, maravilha_answer c r -> Binary64.is_double (getObjValue r)) ->
        Maravilha.run h p c = Ok s ->
        let sense := Maravilha.submip_sense_ h in
        let obj := Maravilha.getIncumbentObjValue c in
        let sol := Maravilha.getIncumbentValues c in
        ((0 < SolutionPool.size p)%nat ->
         exists acts, trace s = acts ++ [setSolution (incumbent_solution s)])
        /\ (SolutionPool.size p = 0%nat -> trace s = [])
        /\ no_worse sense (incumbent_objective s) obj
        /\ (incumbent_is obj sol s
            \/ exists r,
                 maravilha_answer c r /\ solve r = true
                 /\ incumbent_objective s = getObjValue r
                 /\ incumbent_solution s = take (length sol) (getValues r)
                 /\ beats sense (getObjValue r) obj)
        /\ ((forall r, maravilha_answer c r -> ~ qualifies sense obj r) ->
            incumbent_is obj sol s)).
Proof.
  split; [|split].
  - intros H sense r s s' b. apply harvest_incumbent.
  - intros h p c s Hd Hrun sense obj sol.
    assert (Hm : forall i, rothberg_answer c (Rothberg.m_submip (Rothberg.mutations c i)))
      by (intros i; exists i; now left).
    assert (Hr : forall i, rothberg_answer c (Rothberg.r_submip (Rothberg.recombinations c i)))
      by (intros i; exists i; now right).
    assert (Hk : kept_or_taken sense obj sol (rothberg_answer c)
                   (incumbent_objective s) (incumbent_solution s)).
    { apply (rothberg_run_incumbent (kept_or_taken sense obj sol (rothberg_answer c))
               h p c s); try assumption.
      - intros i s1 s2 _ HP Hinc.
        exact (kept_or_taken_step sense obj sol _ s1 s2 _ (Hm i) (Hd _ (Hm i)) HP Hinc).
      - intros i s1 s2 _ HP Hinc.
        exact (kept_or_taken_step sense obj sol _ s1 s2 _ (Hr i) (Hd _ (Hr i)) HP Hinc).
      - apply kept_or_taken_start. }
    split; [|split; [|split]].
    + unfold Rothberg.run in Hrun.
      apply bind_Ok in Hrun as (s1 & _ & Hrun). apply bind_Ok in Hrun as (s2 & _ & Hrun).
      injection Hrun as <-. exists (trace s2). reflexivity.
    + eapply kept_or_taken_no_worse, Hk.
    + destruct Hk as [_ [Hk | (r & Hk)]]; [left; exact Hk | right].
      exists r. destruct Hk as (G1 & G2 & G3 & G4 & G5). rewrite <- G3. auto.
    + intros Hq.
      apply (rothberg_run_incumbent (fun o sl => o = obj /\ sl = sol) h p c s);
        try assumption.
      * intros i s1 s2 _ HP Hinc.
        exact (kept_step sense obj _ s1 s2 _ (Hd _ (Hm i)) HP (Hq _ (Hm i)) Hinc).
      * intros i s1 s2 _ HP Hinc.
        exact (kept_step sense obj _ s1 s2 _ (Hd _ (Hr i)) HP (Hq _ (Hr i)) Hinc).
      * split; reflexivity.
  - intros h p c s Hd Hrun sense obj sol.
    assert (Ha : forall i, maravilha_answer c (Maravilha.i_submip (Maravilha.iterations c i)))
      by (intros i; now exists i).
    assert (Hk : kept_or_taken sense obj sol (maravilha_answer c)
                   (incumbent_objective s) (incumbent_solution s)).
    { apply (maravilha_run_incumbent (kept_or_taken sense obj sol (maravilha_answer c))
               h p c s); try assumption.
      - intros i s1 s2 HP Hinc.
        exact (kept_or_taken_step sense obj sol _ s1 s2 _ (Ha i) (Hd _ (Ha i)) HP Hinc).
      - apply kept_or_taken_start. }
    split; [|split; [|split; [|split]]].
    + intros Hsize. unfold Maravilha.run in Hrun.
      apply Nat.ltb_lt in Hsize. rewrite Hsize in Hrun.
      apply bind_Ok in Hrun as (s1 & _ & Hrun).
      injection Hrun as <-. exists (trace s1). reflexivity.
    + intros Hsize. unfold Maravilha.run in Hrun. rewrite Hsize in Hrun.
      simpl in Hrun. injection Hrun as <-. reflexivity.
    + eapply kept_or_taken_no_worse, Hk.
    + destruct Hk as [_ [Hk | (r & Hk)]]; [left; exact Hk | right].
      exists r. destruct Hk as (G1 & G2 & G3 & G4 & G5). rewrite <- G3. auto.
    + intros Hq.
      apply (maravilha_run_incumbent (fun o sl => o = obj /\ sl = sol) h p c s);
        try assumption.
      * intros i s1 s2 HP Hinc.
        exact (kept_step sense obj _ s1 s2 _ (Hd _ (Ha i)) HP (Hq _ (Ha i)) Hinc).
      * split; reflexivity.
Qed.

Lemma demo_answers_double r : rothberg_answer demo_call r -> Binary64.is_double (getObjValue r).
Proof. intros [i [-> | ->]]; split; vm_compute; first [reflexivity | discriminate]. Qed.

Lemma demo_maravilha_answers_double r :
  maravilha_answer demo_maravilha_call r -> Binary64.is_double (getObjValue r).
Proof. intros [[|i] ->]; split; vm_compute; first [reflexivity | discriminate]. Qed.

Lemma incumbent_non_regression_witness :
  (no_worse Minimize (incumbent_objective demo_result) 8
   /\ (incumbent_is 8 [1; 0; 3] demo_result
       \/ exists r, rothberg_answer demo_call r /\ solve r = true
                    /\ incumbent_objective demo_result = getObjValue r
                    /\ incumbent_solution demo_result = take 3 (getValues r)
                    /\ beats Minimize (getObjValue r) 8))
  /\ no_worse Minimize (incumbent_objective demo_maravilha_result) 8.
Proof.
  split.
  - destruct (proj1 (proj2 incumbent_non_regression) (demo_rothberg 2) demo_pool demo_call
                demo_result demo_answers_double) as (_ & H1 & H2 & _).
    + vm_compute. reflexivity.
    + split; [exact H1 | exact H2].
  - apply (proj2 (proj2 incumbent_non_regression) demo_maravilha demo_pool
             demo_maravilha_call demo_maravilha_result demo_maravilha_answers_double).
    vm_compute. reflexivity.
Defined.

(** ** The adaptive parameters *)

Lemma update_fixing_fraction_in_range h vars improved status :
  rothberg_in_range h ->
  rothberg_in_range
    (Rothberg.update_fixing_fraction (Rothberg.set_binary_variables h vars) improved status).
Proof.
  unfold rothberg_in_range, Rothberg.update_fixing_fraction.
  intros ([Hf0 Hf1] & Ho & Hm).
  set (lowered := Binary64.round (Rothberg.fixing_fraction_ h - Rothberg.offset_ h)).
  set (raised := Binary64.round (Rothberg.fixing_fraction_ h + Rothberg.offset_ h)).
  assert (Hl : lowered <= 1) by (apply round_le_double; [apply is_double_1 | lra]).
  assert (Hr : 0 <= raised) by (apply round_nonneg; lra).
  pose proof (std_max_spec 0 lowered) as (M1 & M2 & M3).
  pose proof (std_min_spec 1 raised) as (N1 & N2 & N3).
  assert (Hdown : 0 <= std_max 0 lowered <= 1).
  { destruct M3 as [E | E]; rewrite E in *; lra. }
  assert (Hup : 0 <= std_min 1 raised <= 1).
  { destruct N3 as [E | E]; rewrite E in *; lra. }
  destruct improved; [|destruct status]; simpl; auto.
Qed.

Lemma rothberg_step_in_range h h' :
  rothberg_step h h' -> rothberg_in_range h -> rothberg_in_range h'.
Proof.
  intros [c m s s' H | h0 | c ca i r s s' H] Hr.
  - apply mutation_spec in H as (_ & -> & _). now apply update_fixing_fraction_in_range.
  - destruct Hr as (Hf & Ho & Hm). unfold rothberg_in_range, Rothberg.update_offset. simpl.
    pose proof (std_max_spec (Rothberg.offset_minimum_ h0)
                  (Binary64.round (Binary64.round (1 - Rothberg.offset_reduction_ h0)
                                   * Rothberg.offset_ h0))) as (M1 & _).
    repeat split; try assumption; try apply Hf. lra.
  - apply recombination_spec in H as (_ & -> & _). exact Hr.
Qed.

Lemma rothberg_run_steps h p c s :
  Rothberg.run h p c = Ok s -> rtc rothberg_step h (heuristic s).
Proof.
  apply (run_inv (fun s1 => rtc rothberg_step h (heuristic s1))).
  - intros i s1 s2 Hs Hm. eapply rtc_r; [exact Hs | econstructor; exact Hm].
  - intros ca i s1 s2 Hs Hr. eapply rtc_r; [exact Hs | econstructor; exact Hr].
  - intros s1 Hs. eapply rtc_r; [exact Hs | apply step_update_offset].
  - intros s1 acts Hs. exact Hs.
  - apply rtc_refl.
Qed.

Lemma maravilha_run_steps h p c s :
  Maravilha.run h p c = Ok s -> rtc maravilha_step h (heuristic s).
Proof.
  apply (maravilha_run_inv (fun s1 => rtc maravilha_step h (heuristic s1))).
  - intros i s1 s2 Hs Hi. eapply rtc_r; [exact Hs | econstructor; exact Hi].
  - intros s1 acts Hs. exact Hs.
  - apply rtc_refl.
Qed.

(** C8, where the code departs from it.  Rothberg's fixing fraction stays
    in [0,1] over any number of steps of the heuristic, whatever rounding
    does to the sum and the difference: [std::max] and [std::min] clamp
    it, and the offset never turns negative.  The update of Maravilha's
    window has no such clamp.  From [submip_min = 0.03 <= submip_max = 0.29]
    and [offset = 1], one call of [run] whose single sub-MIP is infeasible
    moves [submip_min] to the rounded sum 0.29000000000000004: above
    [submip_max]. *)
Theorem window_update_unclamped :
  (forall h h',
      0 <= Rothberg.fixing_fraction_ h <= 1 ->
      0 <= Rothberg.offset_ h ->
      0 <= Rothberg.offset_minimum_ h ->
      rtc rothberg_step h h' ->
      0 <= Rothberg.fixing_fraction_ h' <= 1)
  /\ (forall h p c s, Rothberg.run h p c = Ok s -> rtc rothberg_step h (heuristic s))
  /\ (forall h p c s, Maravilha.run h p c = Ok s -> rtc maravilha_step h (heuristic s))
  /\ (maravilha_in_range window_demo
      /\ Maravilha.run window_demo demo_pool window_demo_call = Ok window_demo_result
      /\ Maravilha.submip_max_ (heuristic window_demo_result)
         < Maravilha.submip_min_ (heuristic window_demo_result)).
Proof.
  split; [|split; [|split]].
  - intros h h' Hf Ho Hm Hsteps.
    assert (Hr : rothberg_in_range h') ; [|apply Hr].
    assert (H0 : rothberg_in_range h) by (unfold rothberg_in_range; repeat split; lra).
    clear Hf Ho Hm. induction Hsteps as [|x y z Hxy _ IH]; [exact H0|].
    apply IH. eapply rothberg_step_in_range; eassumption.
  - apply rothberg_run_steps.
  - apply maravilha_run_steps.
  - split; [|split].
    + unfold maravilha_in_range. vm_compute. intuition congruence.
    + vm_compute. reflexivity.
    + vm_compute. reflexivity.
Qed.

Lemma window_update_unclamped_witness :
  0 <= Rothberg.fixing_fraction_ (heuristic demo_result) <= 1.
Proof.
  apply (proj1 window_update_unclamped (demo_rothberg 2) (heuristic demo_result)).
  - vm_compute. split; discriminate.
  - vm_compute. discriminate.
  - vm_compute. discriminate.
  - apply (proj1 (proj2 window_update_unclamped) (demo_rothberg 2) demo_pool demo_call
             demo_result).
    vm_compute. reflexivity.
Defined.

(** On the window of [window_demo] the processor's operations give what
    the model's rounding gives: line 196 leaves [submip_min] at
    0.29000000000000004, above [submip_max]. *)
Example window_on_the_processor :
  Float64.to_Q Float64.d0_03 == Maravilha.submip_min_ window_demo
  /\ Float64.to_Q Float64.d0_29 == Maravilha.submip_max_ window_demo
  /\ Float64.to_Q (Float64.move_submip_min Float64.d0_03 Float64.d0_29 Float64.one)
     == Maravilha.submip_min_ (heuristic window_demo_result)
  /\ PrimFloat.ltb Float64.d0_29
       (Float64.move_submip_min Float64.d0_03 Float64.d0_29 Float64.one) = true.
Proof. repeat split; vm_compute; reflexivity. Qed.

(** ** Where [Rothberg::run] is defined *)

Lemma at_index_defined {A} (v : list A) i :
  (i < length v)%nat -> exists a, at_index v i = Ok a /\ v !! i = Some a.
Proof.
  intros Hi. unfold at_index. destruct (lookup_lt_is_Some_2 v i Hi) as [a Ha].
  rewrite Ha. eauto.
Qed.

Lemma assign_all_same_length dst src :
  length dst = length src -> assign_all dst src = Ok src.
Proof.
  revert src. induction dst as [|d dst IH]; intros [|x src] Hlen; simpl in *;
    try discriminate; try reflexivity.
  rewrite IH by congruence. reflexivity.
Qed.

Lemma std_round_range (x : Q) (L : Z) :
  0 <= x -> x <= inject_Z L -> (0 <= std_round x <= L)%Z.
Proof.
  intros H0 HL. unfold std_round.
  assert (E : Qle_bool 0 x = true) by now apply Qle_bool_iff.
  rewrite E. split.
  - change 0%Z with (Qfloor 0). apply Qfloor_resp_le. lra.
  - pose proof (Qfloor_le (x + (1 # 2))) as Hf.
    assert (Hlt : inject_Z (Qfloor (x + (1 # 2))) < inject_Z (L + 1)).
    { rewrite inject_Z_plus. change (inject_Z 1) with 1. lra. }
    rewrite <- Zlt_Qlt in Hlt. clear - Hlt. lia.
Qed.

Lemma count_fixed_variables_defined h :
  0 <= Rothberg.fixing_fraction_ h <= 1 ->
  (Z.of_nat (length (Rothberg.binary_variables_ h)) <= ULLONG_MAX)%Z ->
  exists count, Rothberg.count_fixed_variables h = Ok count.
Proof.
  intros [Hf0 Hf1] Hlen. unfold Rothberg.count_fixed_variables, to_size_t.
  set (L := Z.of_nat (length (Rothberg.binary_variables_ h))) in *.
  assert (HL : 0 <= inject_Z L).
  { change 0 with (inject_Z 0). rewrite <- Zle_Qle. subst L. clear. lia. }
  destruct (std_round_range (inject_Z L * Rothberg.fixing_fraction_ h) L) as [R0 R1].
  - apply Qmult_le_0_compat; assumption.
  - clear - HL Hf0 Hf1. nra.
  - assert (E1 : (std_round (inject_Z L * Rothberg.fixing_fraction_ h) <? 0)%Z = false)
      by (apply Z.ltb_ge; exact R0).
    assert (E2 : (ULLONG_MAX <? std_round (inject_Z L * Rothberg.fixing_fraction_ h))%Z = false).
    { apply Z.ltb_ge. clear - R1 Hlen. lia. }
    rewrite E1, E2. simpl. eauto.
Qed.

Lemma fix_to_seed_defined seed vars j count :
  Forall (fun index => (index < length seed)%nat) vars ->
  exists bounds, Rothberg.fix_to_seed seed vars j count = Ok bounds.
Proof.
  intros Hv. revert j. induction Hv as [|index vars Hi _ IH]; intros j; simpl.
  - eauto.
  - destruct (IH (S j)) as [rest ->].
    destruct (j <? count)%nat.
    + destruct (at_index_defined seed index Hi) as (x & -> & _). simpl. eauto.
    + simpl. eauto.
Qed.

Lemma agree_defined n value idx es :
  dimension n es -> (idx < n)%nat -> exists b, Rothberg.agree value idx es = Ok b.
Proof.
  intros Hd Hi. induction Hd as [|e es He _ IH]; simpl; [eauto|].
  destruct (at_index_defined (SolutionPool.solution e) idx) as (x & -> & _); [lia|].
  simpl. destruct (Qle_bool _ _); eauto.
Qed.

Lemma fix_to_consensus_defined n es vars :
  dimension n es -> (1 <= length es)%nat ->
  Forall (fun index => (index < n)%nat) vars ->
  exists bounds, Rothberg.fix_to_consensus es vars = Ok bounds.
Proof.
  intros Hd Hlen Hv. induction Hv as [|idx vars Hi _ IH]; [simpl; eauto|].
  destruct es as [|e0 es]; [simpl in Hlen; lia|].
  pose proof Hd as Hd'. apply Forall_cons in Hd' as [He0 Hes].
  destruct IH as [rest Hrest].
  change (Rothberg.fix_to_consensus (e0 :: es) (idx :: vars))
    with (x0 <- at_index (SolutionPool.solution e0) idx ;;
          fixit <- Rothberg.agree (round01 x0) idx es ;;
          rest <- Rothberg.fix_to_consensus (e0 :: es) vars ;;
          Ok ((if fixit : bool then fix_variable idx (round01 x0) else free_variable idx)
                :: rest)).
  destruct (at_index_defined (SolutionPool.solution e0) idx) as (x0 & -> & _); [lia|].
  cbn [bind].
  destruct (agree_defined n (round01 x0) idx es Hes Hi) as [b ->]. cbn [bind].
  rewrite Hrest. cbn [bind]. eauto.
Qed.

Lemma fix_to_pair_defined solution1 solution2 vars :
  Forall (fun index => (index < length solution1)%nat) vars ->
  Forall (fun index => (index < length solution2)%nat) vars ->
  exists bounds, Rothberg.fix_to_pair solution1 solution2 vars = Ok bounds.
Proof.
  intros H1. induction H1 as [|idx vars Hi1 _ IH]; intros H2; simpl; [eauto|].
  apply Forall_cons in H2 as [Hi2 H2].
  destruct (at_index_defined solution1 idx Hi1) as (x1 & -> & _).
  destruct (at_index_defined solution2 idx Hi2) as (x2 & -> & _). simpl.
  destruct (IH H2) as [rest ->]. simpl. eauto.
Qed.

Lemma harvest_defined {H : Type} n sense r (s : Search H) :
  pool_for n (pool s) -> length (incumbent_solution s) = n -> answer_for n r ->
  exists s' b,
    harvest sense r s = Ok (s', b)
    /\ pool_for n (pool s') /\ length (incumbent_solution s') = n.
Proof.
  intros (Hd & Hsize & Hmax) Hinc Hr. unfold harvest.
  destruct (solve r) eqn:Es; [|eexists _, _; split; [reflexivity|]; repeat split; assumption].
  destruct (Hr Es) as [Hlen Hfin].
  destruct (add_entry_defined (pool s) (getValues r) (getObjValue r)) as (b & p' & Hadd & Hd');
    [now rewrite Hlen | exact Hfin |].
  rewrite Hadd. cbn [bind snd].
  assert (Hp' : pool_for n p').
  { apply add_entry_size in Hadd as (Hm & _ & _ & Hs).
    split; [now rewrite <- Hlen|]. rewrite Hm. split; [|exact Hmax].
    destruct Hs as [-> | [Hlt ->]]; [exact Hsize | exact Hlt]. }
  destruct (improves sense _ _).
  - rewrite (assign_all_same_length (incumbent_solution s) (getValues r)) by congruence.
    cbn [bind]. eexists _, _. split; [reflexivity|]. split; assumption.
  - eexists _, _. split; [reflexivity|]. split; assumption.
Qed.

Lemma umod_defined a b :
  (0 < b)%Z -> exists r, umod a b = Ok r /\ (0 <= r < b)%Z.
Proof.
  intros Hb. unfold umod. destruct (b =? 0)%Z eqn:E; [apply Z.eqb_eq in E; lia|].
  eexists. split; [reflexivity|]. now apply Z.mod_pos_bound.
Qed.

Lemma dimension_lookup n es i e :
  dimension n es -> es !! i = Some e -> length (SolutionPool.solution e) = n.
Proof.
  intros Hd He. unfold dimension in Hd. rewrite Forall_forall in Hd.
  apply Hd. eapply list_elem_of_lookup_2, He.
Qed.

Section Defined.
Context (n : nat) (vars : list nat).
Hypothesis vars_in_range : Forall (fun index => (index < n)%nat) vars.
Hypothesis vars_count : (Z.of_nat (length vars) <= ULLONG_MAX)%Z.

Lemma mutation_defined c m s :
  search_for n vars s ->
  (1 <= SolutionPool.size (pool s))%nat ->
  Rothberg.m_shuffle m ≡ₚ vars ->
  answer_for n (Rothberg.m_submip m) ->
  exists s', Rothberg.mutation c m s = Ok s' /\ search_for n vars s'.
Proof using vars_in_range vars_count.
  intros (Hvars & Hrange & Hpool & Hinc) Hsize Hshuffle Hanswer.
  unfold Rothberg.mutation.
  destruct (umod_defined (Rothberg.m_random1 m) (Z.of_nat (SolutionPool.size (pool s))))
    as (idx0 & -> & Hidx0); [lia|]. cbn [bind].
  assert (Hidx : exists idx,
             (if (idx0 =? 0)%Z then Ok idx0 else umod (Rothberg.m_random2 m) idx0) = Ok idx
             /\ (0 <= idx < Z.of_nat (SolutionPool.size (pool s)))%Z).
  { destruct (idx0 =? 0)%Z eqn:E.
    - exists idx0. split; [reflexivity | exact Hidx0].
    - apply Z.eqb_neq in E.
      destruct (umod_defined (Rothberg.m_random2 m) idx0) as (idx & -> & Hidx); [lia|].
      exists idx. split; [reflexivity | lia]. }
  destruct Hidx as (idx & -> & Hidx). cbn [bind].
  destruct (at_index_defined (SolutionPool.get_entries (pool s)) (Z.to_nat idx))
    as (entry & -> & Hentry).
  { unfold SolutionPool.get_entries, SolutionPool.size in *. lia. }
  cbn [bind].
  destruct (count_fixed_variables_defined (heuristic s)) as [count ->].
  { apply Hrange. }
  { rewrite Hvars. exact vars_count. }
  cbn [bind].
  destruct Hpool as (Hdim & Hpool).
  pose proof (dimension_lookup n _ _ _ Hdim Hentry) as Hseed.
  destruct (fix_to_seed_defined (SolutionPool.solution entry) (Rothberg.m_shuffle m) 0 count)
    as [bounds ->].
  { rewrite Hseed, Hshuffle. exact vars_in_range. }
  cbn [bind].
  match goal with
  | |- context [harvest ?sense ?r ?s1] =>
      destruct (harvest_defined n sense r s1) as (s2 & b & Hh & Hpool2 & Hinc2);
        [split; assumption | exact Hinc | exact Hanswer |]
  end.
  rewrite Hh. cbn [bind fst snd]. eexists. split; [reflexivity|].
  apply harvest_spec in Hh as (Hheur & _).
  cbn [heuristic with_heuristic with_actions] in Hheur.
  unfold search_for. cbn [heuristic with_heuristic pool incumbent_solution].
  rewrite Hheur. split; [|split; [|split; assumption]].
  - unfold Rothberg.update_fixing_fraction.
    destruct b; [|destruct (getStatus _)]; exact Hshuffle.
  - now apply update_fixing_fraction_in_range.
Qed.

Lemma build_defined i consider_all r s :
  search_for n vars s ->
  (2 <= SolutionPool.size (pool s))%nat ->
  exists bounds start, Rothberg.build i consider_all r s = Ok (bounds, start).
Proof using vars_in_range.
  intros (Hvars & _ & (Hdim & Hsize & Hmax) & _) H2.
  assert (Hv : Forall (fun index => (index < n)%nat)
                 (Rothberg.binary_variables_ (heuristic s)))
    by (rewrite Hvars; exact vars_in_range).
  unfold Rothberg.build, SolutionPool.get_entries.
  unfold SolutionPool.size in *. destruct (Rothberg.mode _ _).
  - destruct (fix_to_consensus_defined n (SolutionPool.entries_ (pool s))
                (Rothberg.binary_variables_ (heuristic s))) as [bounds ->];
      [exact Hdim | lia | exact Hv |]. cbn [bind].
    destruct (at_index_defined (SolutionPool.entries_ (pool s)) 0) as (e0 & -> & _); [lia|].
    cbn [bind]. eauto.
  - assert (Hull : to_ull (Z.of_nat (length (SolutionPool.entries_ (pool s))) - 1)
                   = (Z.of_nat (length (SolutionPool.entries_ (pool s))) - 1)%Z).
    { unfold to_ull. apply Z.mod_small. unfold ULLONG_MAX in Hmax. lia. }
    rewrite Hull.
    destruct (umod_defined (Rothberg.r_random1 r)
                (Z.of_nat (length (SolutionPool.entries_ (pool s))) - 1))
      as (k & -> & Hk); [lia|]. cbn [bind].
    destruct (umod_defined (Rothberg.r_random2 r) (k + 1)) as (idx1 & -> & Hidx1); [lia|].
    cbn [bind].
    destruct (at_index_defined (SolutionPool.entries_ (pool s)) (Z.to_nat idx1))
      as (entry1 & -> & He1); [lia|]. cbn [bind].
    destruct (at_index_defined (SolutionPool.entries_ (pool s)) (Z.to_nat (k + 1)))
      as (entry2 & -> & He2); [lia|]. cbn [bind].
    destruct (fix_to_pair_defined (SolutionPool.solution entry1)
                (SolutionPool.solution entry2)
                (Rothberg.binary_variables_ (heuristic s))) as [bounds ->].
    + now rewrite (dimension_lookup n _ _ _ Hdim He1).
    + now rewrite (dimension_lookup n _ _ _ Hdim He2).
    + cbn [bind]. eauto.
Qed.

Lemma recombination_defined c consider_all i r s :
  search_for n vars s ->
  (2 <= SolutionPool.size (pool s))%nat ->
  answer_for n (Rothberg.r_submip r) ->
  exists s', Rothberg.recombination c consider_all i r s = Ok s' /\ search_for n vars s'.
Proof using vars_in_range.
  intros Hs H2 Hanswer. unfold Rothberg.recombination.
  destruct (build_defined i consider_all r s Hs H2) as (bounds & start & ->). cbn [bind].
  destruct Hs as (Hvars & Hrange & Hpool & Hinc).
  match goal with
  | |- context [harvest ?sense ?r ?s1] =>
      destruct (harvest_defined n sense r s1) as (s2 & b & Hh & Hpool2 & Hinc2);
        [exact Hpool | exact Hinc | exact Hanswer |]
  end.
  rewrite Hh. cbn [bind fst]. eexists. split; [reflexivity|].
  apply harvest_spec in Hh as (Hheur & _). cbn [heuristic with_actions] in Hheur.
  unfold search_for. rewrite Hheur.
  split; [exact Hvars|]. split; [exact Hrange|]. split; assumption.
Qed.

Lemma mutation_loop_defined c k i s :
  search_for n vars s ->
  (1 <= SolutionPool.size (pool s))%nat ->
  rothberg_call_for n vars c ->
  exists s', Rothberg.mutation_loop c k i s = Ok s' /\ search_for n vars s'
             /\ (SolutionPool.size (pool s) <= SolutionPool.size (pool s'))%nat.
Proof using vars_in_range vars_count.
  intros Hs H1 (_ & Hm & _). revert i s Hs H1.
  induction k as [|k IH]; intros i s Hs H1; simpl.
  - eauto.
  - destruct (time_reached _ _ _); [eauto|].
    destruct (Hm i) as [Hshuffle Hanswer].
    destruct (mutation_defined c (Rothberg.mutations c i) s Hs H1 Hshuffle Hanswer)
      as (s1 & Hmut & Hs1).
    rewrite Hmut. cbn [bind].
    apply mutation_spec in Hmut as (_ & _ & _ & Hmono & _).
    destruct (IH (S i) s1 Hs1) as (s' & -> & Hs' & Hmono'); [lia|].
    exists s'. split; [reflexivity|]. split; [exact Hs' | lia].
Qed.

Lemma recombination_loop_defined c consider_all k i s :
  search_for n vars s ->
  (2 <= SolutionPool.size (pool s))%nat ->
  rothberg_call_for n vars c ->
  exists s', Rothberg.recombination_loop c consider_all k i s = Ok s'
             /\ search_for n vars s'.
Proof using vars_in_range.
  intros Hs H2 (_ & _ & Hr). revert i s Hs H2.
  induction k as [|k IH]; intros i s Hs H2; simpl.
  - eauto.
  - destruct (time_reached _ _ _); [eauto|].
    destruct (recombination_defined c consider_all i (Rothberg.recombinations c i) s
                Hs H2 (Hr i)) as (s1 & Hrec & Hs1).
    rewrite Hrec. cbn [bind].
    apply recombination_spec in Hrec as (_ & _ & Hmono & _).
    apply IH; [exact Hs1 | lia].
Qed.
End Defined.

Lemma mutation_phase_recombinations c s s' :
  Rothberg.mutation_phase c s = Ok s' ->
  Rothberg.num_recombinations_ (heuristic s') = Rothberg.num_recombinations_ (heuristic s).
Proof.
  unfold Rothberg.mutation_phase. destruct (1 <=? _)%nat.
  - intros H. apply bind_Ok in H as (s1 & H1 & H). injection H as <-.
    cbn [heuristic with_heuristic]. unfold Rothberg.update_offset.
    cbn [Rothberg.num_recombinations_ Rothberg.set_offset].
    revert H1.
    apply (mutation_loop_inv
             (fun s1 => Rothberg.num_recombinations_ (heuristic s1)
                        = Rothberg.num_recombinations_ (heuristic s))); [|reflexivity].
    intros i s2 s3 Hn Hm. apply mutation_spec in Hm as (_ & -> & _).
    rewrite <- Hn. unfold Rothberg.update_fixing_fraction.
    destruct (_ && _); [|destruct (getStatus _)]; reflexivity.
  - intros H. injection H as <-. reflexivity.
Qed.

(** On a well-formed problem (solutions of one dimension and finite
    values everywhere, binary variables within that dimension, parameters
    in range) [Rothberg::run] is defined as soon as the number of
    recombinations is not 0. *)
Lemma rothberg_run_defined n h p c :
  rothberg_for n h ->
  pool_for n p ->
  rothberg_call_for n (Rothberg.binary_variables_ h) c ->
  Rothberg.num_recombinations_ h <> 0%Z ->
  exists s, Rothberg.run h p c = Ok s.
Proof.
  intros (Hv & Hcount & Hrange) Hpool Hcall Hn.
  assert (Hs0 : search_for n (Rothberg.binary_variables_ h)
                  (mkSearch h p (Rothberg.getIncumbentObjValue c)
                     (Rothberg.cplex_getValues c) [])).
  { split; [reflexivity|]. split; [exact Hrange|]. split; [exact Hpool | apply Hcall]. }
  unfold Rothberg.run.
  assert (H1 : exists s1,
             Rothberg.mutation_phase c
               (mkSearch h p (Rothberg.getIncumbentObjValue c) (Rothberg.cplex_getValues c) [])
             = Ok s1
             /\ search_for n (Rothberg.binary_variables_ h) s1).
  { unfold Rothberg.mutation_phase. cbn [pool heuristic].
    destruct (1 <=? SolutionPool.size p)%nat eqn:E; [|eauto].
    apply Nat.leb_le in E.
    destruct (mutation_loop_defined n _ Hv Hcount c (Z.to_nat (Rothberg.num_mutations_ h)) 0
                _ Hs0 E Hcall) as (s1 & -> & (G1 & G2 & G3 & G4) & _).
    cbn [bind]. eexists. split; [reflexivity|].
    split; [exact G1|]. split; [|split; assumption].
    eapply rothberg_step_in_range; [apply step_update_offset | exact G2]. }
  destruct H1 as (s1 & Hm & Hs1). rewrite Hm. cbn [bind].
  apply mutation_phase_recombinations in Hm. cbn [heuristic] in Hm.
  unfold Rothberg.recombination_phase.
  destruct (2 <=? SolutionPool.size (pool s1))%nat eqn:E; [|cbn [bind]; eauto].
  apply Nat.leb_le in E. rewrite Hm. unfold umod.
  destruct (Rothberg.num_recombinations_ h =? 0)%Z eqn:E0; [apply Z.eqb_eq in E0; contradiction|].
  cbn [bind].
  destruct (recombination_loop_defined n _ Hv c
              (Rothberg.random_consider_all c mod Rothberg.num_recombinations_ h)%Z
              (Z.to_nat (Rothberg.num_recombinations_ h)) 0 s1 Hs1 E Hcall) as (s2 & -> & _).
  cbn [bind]. eauto.
Qed.

(** ** Where [Maravilha::run] is defined *)

Lemma fix_to_incumbent_defined incumbent vars :
  Forall (fun index => (index < length incumbent)%nat) vars ->
  exists fixed, Maravilha.fix_to_incumbent incumbent vars = Ok fixed.
Proof.
  induction 1 as [|idx vars Hi _ [rest IH]]; simpl; [eauto|].
  destruct (at_index_defined incumbent idx Hi) as (x & -> & _). simpl.
  rewrite IH. simpl. eauto.
Qed.

Lemma iteration_defined n vars c it s :
  Forall (fun index => (index < n)%nat) vars ->
  maravilha_search_for n vars s ->
  (1 <= SolutionPool.size (pool s))%nat ->
  answer_for n (Maravilha.i_submip it) ->
  exists s', Maravilha.iteration c it s = Ok s' /\ maravilha_search_for n vars s'.
Proof.
  intros Hv (Hvars & Hpool & Hinc) Hsize Hanswer. unfold Maravilha.iteration.
  destruct (umod_defined (Maravilha.i_random it) (Z.of_nat (SolutionPool.size (pool s))))
    as (idx & -> & Hidx); [lia|]. cbn [bind].
  destruct (at_index_defined (SolutionPool.get_entries (pool s)) (Z.to_nat idx))
    as (entry & -> & _).
  { unfold SolutionPool.get_entries, SolutionPool.size in *. lia. }
  cbn [bind].
  destruct (fix_to_incumbent_defined (incumbent_solution s)
              (Maravilha.binary_variables_ (heuristic s))) as [fixed ->].
  { rewrite Hinc, Hvars. exact Hv. }
  cbn [bind].
  match goal with
  | |- context [harvest ?sense ?r ?s1] =>
      destruct (harvest_defined n sense r s1) as (s2 & b & Hh & Hpool2 & Hinc2);
        [exact Hpool | exact Hinc | exact Hanswer |]
  end.
  rewrite Hh. cbn [bind fst snd]. eexists. split; [reflexivity|].
  apply harvest_spec in Hh as (Hheur & _). cbn [heuristic with_actions] in Hheur.
  unfold maravilha_search_for. cbn [heuristic with_heuristic pool incumbent_solution].
  rewrite Hheur. split; [|split; assumption].
  unfold Maravilha.update_submip_size.
  destruct b; [|destruct (getStatus _)]; exact Hvars.
Qed.

(** On a well-formed problem [Maravilha::run] is defined. *)
Lemma maravilha_run_defined n h p c :
  Forall (fun index => (index < n)%nat) (Maravilha.binary_variables_ h) ->
  pool_for n p ->
  maravilha_call_for n c ->
  exists s, Maravilha.run h p c = Ok s.
Proof.
  intros Hv Hpool [Hinc Hanswers]. unfold Maravilha.run.
  destruct (0 <? SolutionPool.size p)%nat eqn:E; [|eauto].
  apply Nat.ltb_lt in E.
  assert (Hloop : forall k i s,
             maravilha_search_for n (Maravilha.binary_variables_ h) s ->
             (1 <= SolutionPool.size (pool s))%nat ->
             exists s', Maravilha.loop c k i s = Ok s').
  { induction k as [|k IH]; intros i s Hs H1; simpl; [eauto|].
    destruct (time_reached _ _ _); [eauto|].
    destruct (iteration_defined n _ c (Maravilha.iterations c i) s Hv Hs H1 (Hanswers i))
      as (s1 & Hit & Hs1).
    rewrite Hit. cbn [bind]. apply iteration_spec in Hit as (_ & Hmono & _).
    apply IH; [exact Hs1 | lia]. }
  destruct (Hloop (Z.to_nat (Maravilha.iterations_ h)) 0%nat
              (mkSearch h p (Maravilha.getIncumbentObjValue c)
                 (Maravilha.getIncumbentValues c) [])) as [s1 ->].
  - split; [reflexivity|]. split; assumption.
  - exact E.
  - cbn [bind]. eauto.
Qed.

(** On doubles the fixing fraction goes 0.5, 0.3 (the double nearest to
    it), 0.09999999999999998, 0, 0, and the offset ends at
    0.15000000000000002. *)
Example scenario5 :
  map scenario5_fraction [1; 2; 3; 4]%nat
  = [Qred (Binary64.round (3 # 10)); 900719925474099 # 9007199254740992; 0; 0]
  /\ option_map (fun s => (Qred (Rothberg.fixing_fraction_ (heuristic s)),
                           Qred (Rothberg.offset_ (heuristic s))))
       (match Rothberg.run scenario5_rothberg scenario5_pool scenario5_call with
        | Ok s => Some s
        | Undefined _ => None
        end)
     = Some (0, Qred (Binary64.round ((3 # 4) * Binary64.round (1 # 5)))).
Proof. split; vm_compute; reflexivity. Qed.

(** ** More about the pool *)

Lemma similar_refl solution : similar solution solution.
Proof.
  unfold similar. induction solution as [|x solution IH]; constructor; [|exact IH].
  rewrite (round_distance_same x x) by reflexivity. discriminate.
Qed.

Lemma similar_sym a b : similar a b -> similar b a.
Proof.
  unfold similar. induction 1 as [|x y a b Hxy _ IH]; constructor; [|exact IH].
  rewrite round_distance_sym. exact Hxy.
Qed.

Lemma equal_false_differs solution stored :
  SolutionPool.equal solution stored = Ok false -> ~ similar solution stored.
Proof.
  revert stored. induction solution as [|x solution IH]; intros stored H Hs; simpl in H.
  - discriminate.
  - destruct stored as [|y stored]; [discriminate|].
    apply Forall2_cons_1 in Hs as [Hxy Hs].
    destruct (Qltb _ _) eqn:E.
    + apply Qltb_lt in E. lra.
    + exact (IH stored H Hs).
Qed.

Lemma scan_worst_distinct sense solution es i worst_idx worst_val worst_idx' worst_val' :
  SolutionPool.scan sense solution es i worst_idx worst_val
  = Ok (SolutionPool.Worst worst_idx' worst_val') ->
  Forall (fun e => ~ similar solution (SolutionPool.solution e)) es.
Proof.
  revert i worst_idx worst_val.
  induction es as [|e es IH]; intros i wi wv H; [constructor|].
  simpl in H. apply bind_Ok in H as (same & Hsame & H).
  destruct same; [discriminate|]. constructor.
  - now apply equal_false_differs.
  - destruct (SolutionPool.worse _ _ _); eapply IH, H.
Qed.

(** What a call of [add_entry] did, read from its result. *)
Lemma add_entry_anatomy p solution value b p' :
  SolutionPool.add_entry p solution value = Ok (b, p') ->
  (b = false /\ p' = p)
  \/ (b = true
      /\ Forall (fun e => ~ similar solution (SolutionPool.solution e))
           (SolutionPool.entries_ p)
      /\ exists es,
           p' = SolutionPool.mk (SolutionPool.sense_ p) (SolutionPool.sorted_ p)
                  (to_ull (SolutionPool.next_age_ p - 1)) (SolutionPool.max_size_ p)
                  (if SolutionPool.sorted_ p
                   then std_sort (SolutionPool.before (SolutionPool.sense_ p)) es else es)
           /\ (((SolutionPool.size p < SolutionPool.max_size_ p)%nat
                /\ es = SolutionPool.entries_ p ++ [stored p solution value])
               \/ ((SolutionPool.max_size_ p <= SolutionPool.size p)%nat
                   /\ exists i old cells,
                        SolutionPool.entries_ p !! i = Some old
                        /\ overwrite (SolutionPool.solution old) solution = Ok cells
                        /\ es = <[i := stored p cells value]> (SolutionPool.entries_ p)))).
Proof.
  unfold SolutionPool.add_entry, SolutionPool.size. intros H.
  apply bind_Ok in H as (s & Hscan & H). destruct s as [|wi wv].
  { injection H as <- <-. now left. }
  apply bind_Ok in H as (ins & Hins & H). destruct ins as [es|].
  2:{ injection H as <- <-. now left. }
  injection H as <- <-. right. split; [reflexivity|].
  split; [eapply scan_worst_distinct, Hscan|].
  exists es. split; [reflexivity|].
  unfold SolutionPool.try_insert in Hins.
  destruct (length (SolutionPool.entries_ p) <? SolutionPool.max_size_ p)%nat eqn:E.
  - injection Hins as <-. left. apply Nat.ltb_lt in E. now split.
  - destruct (SolutionPool.better _ _ _); [|discriminate].
    apply bind_Ok in Hins as (old & Hold & Hins).
    apply bind_Ok in Hins as (cells & Hcells & Hins).
    injection Hins as <-. right. apply Nat.ltb_ge in E. split; [exact E|].
    unfold at_index in Hold.
    destruct (SolutionPool.entries_ p !! wi) as [old'|] eqn:El; [|discriminate].
    injection Hold as ->. exists wi, old, cells. now repeat split.
Qed.

Lemma without_repetitions_perm es es' :
  es ≡ₚ es' -> without_repetitions es -> without_repetitions es'.
Proof.
  intros Hperm H i j e1 e2 Hij H1 H2.
  symmetry in Hperm. apply Permutation_inj in Hperm as (_ & f & Hf & Hlook).
  rewrite Hlook in H1, H2. eapply (H (f i) (f j)); [|exact H1|exact H2].
  intros Heq. apply Hij. now apply Hf.
Qed.

Lemma without_repetitions_app es e :
  without_repetitions es ->
  Forall (fun e' => ~ similar (SolutionPool.solution e) (SolutionPool.solution e')) es ->
  without_repetitions (es ++ [e]).
Proof.
  intros H Hall i j e1 e2 Hij H1 H2. rewrite Forall_forall in Hall.
  apply lookup_app_Some in H1 as [H1 | [Hi H1]];
    apply lookup_app_Some in H2 as [H2 | [Hj H2]].
  - eapply H; eassumption.
  - apply list_lookup_singleton_Some in H2 as [_ <-].
    intros Hs. apply similar_sym in Hs. revert Hs. apply Hall.
    eapply list_elem_of_lookup_2, H1.
  - apply list_lookup_singleton_Some in H1 as [_ <-].
    apply Hall. eapply list_elem_of_lookup_2, H2.
  - apply list_lookup_singleton_Some in H1 as [H1 _].
    apply list_lookup_singleton_Some in H2 as [H2 _]. lia.
Qed.

Lemma without_repetitions_insert es k e :
  without_repetitions es ->
  Forall (fun e' => ~ similar (SolutionPool.solution e) (SolutionPool.solution e')) es ->
  without_repetitions (<[k := e]> es).
Proof.
  intros H Hall i j e1 e2 Hij H1 H2. rewrite Forall_forall in Hall.
  apply list_lookup_insert_Some in H1 as [(Hki & He1 & Hi) | [Hi H1]];
    apply list_lookup_insert_Some in H2 as [(Hkj & He2 & Hj) | [Hj H2]].
  - congruence.
  - subst e1. apply Hall. eapply list_elem_of_lookup_2, H2.
  - subst e2. intros Hs. apply similar_sym in Hs. revert Hs. apply Hall.
    eapply list_elem_of_lookup_2, H1.
  - eapply (H i j); eassumption.
Qed.

Lemma sorted_perm (sorted : bool) sense es :
  es ≡ₚ (if sorted then std_sort (SolutionPool.before sense) es else es).
Proof. destruct sorted; [apply std_sort_perm | reflexivity]. Qed.

Lemma add_entry_without_repetitions p solution value b p' :
  dimension (length solution) (SolutionPool.entries_ p) ->
  without_repetitions (SolutionPool.entries_ p) ->
  SolutionPool.add_entry p solution value = Ok (b, p') ->
  without_repetitions (SolutionPool.entries_ p').
Proof.
  intros Hdim Hrep H.
  apply add_entry_anatomy in H as [[_ ->] | (_ & Hall & es & -> & Hes)]; [exact Hrep|].
  cbn [SolutionPool.entries_].
  eapply without_repetitions_perm; [apply sorted_perm|].
  destruct Hes as [[_ ->] | (_ & i & old & cells & Hold & Hcells & ->)].
  - now apply without_repetitions_app.
  - assert (Hlen : length (SolutionPool.solution old) = length solution).
    { unfold dimension in Hdim. rewrite Forall_forall in Hdim.
      apply Hdim. eapply list_elem_of_lookup_2, Hold. }
    rewrite (overwrite_same_length _ _ Hlen) in Hcells. injection Hcells as <-.
    now apply without_repetitions_insert.
Qed.

(** X1.  The pool keeps no repetitions: when no two stored solutions are
    similar, none are after [add_entry], whatever it answered. *)
Theorem pool_without_repetitions (p : SolutionPool.t) (solution : list IloNum)
    (value : IloNum) (b : bool) (p' : SolutionPool.t) :
  dimension (length solution) (SolutionPool.entries_ p) ->
  without_repetitions (SolutionPool.entries_ p) ->
  SolutionPool.add_entry p solution value = Ok (b, p') ->
  without_repetitions (SolutionPool.entries_ p').
Proof. apply add_entry_without_repetitions. Qed.

Lemma without_repetitions_nil : without_repetitions [].
Proof. intros i j e1 e2 _ H. discriminate. Qed.

Lemma pool_without_repetitions_witness :
  without_repetitions (SolutionPool.entries_ pool_two).
Proof.
  apply (pool_without_repetitions pool_one [1] ten_and_a_bit true pool_two).
  - unfold pool_one, dimension. repeat constructor.
  - apply (pool_without_repetitions (SolutionPool.new Minimize 3 true) [0] 10 true pool_one).
    + constructor.
    + apply without_repetitions_nil.
    + vm_compute. reflexivity.
  - vm_compute. reflexivity.
Defined.

(** X2.  Below its maximum size the pool takes every candidate that is
    similar to no stored solution, whatever its value: the new entry
    carries the age [next_age_] and goes to the end, before the sort. *)
Theorem accepted_below_capacity (p : SolutionPool.t) (solution : list IloNum)
    (value : IloNum) :
  (SolutionPool.size p < SolutionPool.max_size p)%nat ->
  dimension (length solution) (SolutionPool.entries_ p) ->
  Forall (fun e => ~ similar solution (SolutionPool.solution e)) (SolutionPool.entries_ p) ->
  exists p',
    SolutionPool.add_entry p solution value = Ok (true, p')
    /\ SolutionPool.entries_ p' ≡ₚ SolutionPool.entries_ p ++ [stored p solution value]
    /\ (SolutionPool.sorted_ p = false ->
        SolutionPool.entries_ p' = SolutionPool.entries_ p ++ [stored p solution value])
    /\ SolutionPool.size p' = S (SolutionPool.size p).
Proof.
  unfold SolutionPool.size, SolutionPool.max_size. intros Hsize Hdim Hall.
  unfold SolutionPool.add_entry.
  destruct (scan_worst (SolutionPool.sense_ p) solution _ 0 0
              (SolutionPool.worst_init (SolutionPool.sense_ p)) Hdim Hall)
    as (wi & wv & -> & _).
  cbn [bind]. unfold SolutionPool.try_insert.
  apply Nat.ltb_lt in Hsize. rewrite Hsize. cbn [bind].
  eexists. split; [reflexivity|]. cbn [SolutionPool.entries_]. split; [|split].
  - symmetry. apply sorted_perm.
  - now intros ->.
  - rewrite <- (sorted_perm (SolutionPool.sorted_ p)). rewrite length_app. simpl. lia.
Qed.

Lemma accepted_below_capacity_witness :
  exists p',
    SolutionPool.add_entry pool_one [1] 1000 = Ok (true, p')
    /\ SolutionPool.entries_ p' ≡ₚ SolutionPool.entries_ pool_one ++ [stored pool_one [1] 1000]
    /\ (SolutionPool.sorted_ pool_one = false ->
        SolutionPool.entries_ p' = SolutionPool.entries_ pool_one ++ [stored pool_one [1] 1000])
    /\ SolutionPool.size p' = S (SolutionPool.size pool_one).
Proof.
  apply (accepted_below_capacity pool_one [1] 1000).
  - vm_compute. lia.
  - unfold pool_one, dimension. repeat constructor.
  - unfold pool_one. cbn [SolutionPool.entries_].
    repeat constructor; apply equal_false_differs; vm_compute; reflexivity.
Defined.

(** X3.  What the pool has just taken it does not take again: after a
    successful [add_entry] of [solution], every candidate similar to it
    (itself included) is rejected, whatever its value, and the pool stays
    as it is. *)
Theorem inserted_is_rejected_afterwards (p : SolutionPool.t) (solution : list IloNum)
    (value : IloNum) (p' : SolutionPool.t) :
  dimension (length solution) (SolutionPool.entries_ p) ->
  SolutionPool.add_entry p solution value = Ok (true, p') ->
  SolutionPool.add_entry p' solution value = Ok (false, p')
  /\ forall solution' value',
       similar solution' solution ->
       SolutionPool.add_entry p' solution' value' = Ok (false, p').
Proof.
  intros Hdim H.
  assert (Hgen : forall solution' value',
             similar solution' solution ->
             SolutionPool.add_entry p' solution' value' = Ok (false, p')).
  2:{ split; [apply Hgen, similar_refl | exact Hgen]. }
  intros solution' value' Hsim.
  pose proof (similar_length _ _ Hsim) as Hlen.
  apply add_entry_anatomy in H as [[? _] | (_ & _ & es & -> & Hes)]; [discriminate|].
  assert (Hin : dimension (length solution) es
                /\ Exists (fun e => similar solution' (SolutionPool.solution e)) es).
  { destruct Hes as [[_ ->] | (_ & i & old & cells & Hold & Hcells & ->)].
    - split.
      + apply Forall_app. split; [exact Hdim | now constructor].
      + apply Exists_app. right. now constructor.
    - assert (Hl : length (SolutionPool.solution old) = length solution).
      { unfold dimension in Hdim. rewrite Forall_forall in Hdim.
        apply Hdim. eapply list_elem_of_lookup_2, Hold. }
      rewrite (overwrite_same_length _ _ Hl) in Hcells. injection Hcells as <-.
      split.
      + apply Forall_insert; [exact Hdim | reflexivity].
      + apply Exists_exists. exists (stored p solution value). split; [|exact Hsim].
        apply list_elem_of_insert. eapply lookup_lt_Some, Hold. }
  destruct Hin as [Hdim' Hex].
  unfold SolutionPool.add_entry. cbn [SolutionPool.entries_ SolutionPool.sense_].
  rewrite scan_similar; [reflexivity | |].
  - unfold dimension. rewrite <- (sorted_perm (SolutionPool.sorted_ p)).
    rewrite Hlen. exact Hdim'.
  - rewrite <- (sorted_perm (SolutionPool.sorted_ p)). exact Hex.
Qed.

Lemma inserted_is_rejected_afterwards_witness :
  SolutionPool.add_entry pool_two [1] ten_and_a_bit = Ok (false, pool_two)
  /\ forall solution' value',
       similar solution' [1] ->
       SolutionPool.add_entry pool_two solution' value' = Ok (false, pool_two).
Proof.
  apply (inserted_is_rejected_afterwards pool_one [1] ten_and_a_bit pool_two).
  - unfold pool_one, dimension. repeat constructor.
  - vm_compute. reflexivity.
Defined.

Lemma add_entry_no_room p solution value :
  SolutionPool.max_size_ p = 0%nat -> SolutionPool.entries_ p = [] -> finite value ->
  SolutionPool.add_entry p solution value = Ok (false, p).
Proof.
  intros Hmax Hes Hfin. unfold SolutionPool.add_entry, SolutionPool.try_insert.
  rewrite Hes, Hmax. cbn [SolutionPool.scan bind length Nat.ltb Nat.leb].
  now rewrite (worst_init_finite _ value Hfin).
Qed.

(** X4.  A pool that can hold nothing stays empty: with [max_size] 0 every
    candidate of finite value is rejected. *)
Theorem pool_of_size_zero_stays_empty (sense : Sense) (sorted : bool)
    (cands : list (list IloNum * IloNum)) :
  Forall (fun c => finite (snd c)) cands ->
  SolutionPool.add_entries (SolutionPool.new sense 0 sorted) cands
  = Ok (SolutionPool.new sense 0 sorted).
Proof.
  induction 1 as [|[solution value] cands Hfin _ IH]; [reflexivity|].
  cbn [SolutionPool.add_entries].
  rewrite add_entry_no_room by (reflexivity || exact Hfin).
  cbn [bind snd]. exact IH.
Qed.

Lemma pool_of_size_zero_stays_empty_witness :
  SolutionPool.add_entries (SolutionPool.new Maximize 0 true) pool_scenario
  = Ok (SolutionPool.new Maximize 0 true).
Proof.
  apply (pool_of_size_zero_stays_empty Maximize true pool_scenario).
  unfold pool_scenario, finite. repeat constructor; vm_compute; congruence.
Defined.

(** ** Ages *)

Lemma NoDup_insert_fresh {A} (l : list A) i x :
  NoDup l -> x ∉ l -> NoDup (<[i := x]> l).
Proof.
  intros Hl. revert i. induction Hl as [|y l Hy Hl IH]; intros i Hx; [constructor|].
  apply not_elem_of_cons in Hx as [Hxy Hx].
  destruct i as [|i]; simpl.
  - constructor; assumption.
  - constructor; [|now apply IH].
    intros Hin. apply elem_of_insert_inv in Hin as [-> | Hin]; [now apply Hxy | now apply Hy].
Qed.

Lemma ages_fresh_perm p es :
  SolutionPool.entries_ p ≡ₚ es ->
  ages_fresh p ->
  ages_fresh (SolutionPool.mk (SolutionPool.sense_ p) (SolutionPool.sorted_ p)
                (SolutionPool.next_age_ p) (SolutionPool.max_size_ p) es).
Proof.
  intros Hperm (Hrange & Hall & Hnodup). unfold ages_fresh.
  cbn [SolutionPool.next_age_ SolutionPool.entries_].
  split; [exact Hrange|]. split.
  - now rewrite <- Hperm.
  - now rewrite <- Hperm.
Qed.

(** One call of [add_entry] keeps the ages fresh, as long as [next_age_]
    has not reached 0. *)
Lemma add_entry_ages p solution value b p' :
  ages_fresh p ->
  (0 < SolutionPool.next_age_ p)%Z ->
  SolutionPool.add_entry p solution value = Ok (b, p') ->
  ages_fresh p'
  /\ (SolutionPool.next_age_ p - 1 <= SolutionPool.next_age_ p' <= SolutionPool.next_age_ p)%Z.
Proof.
  intros Hfresh Hpos H.
  apply add_entry_anatomy in H as [[_ ->] | (_ & _ & es & -> & Hes)].
  { split; [exact Hfresh | lia]. }
  destruct Hfresh as (Hrange & Hall & Hnodup).
  assert (Hull : to_ull (SolutionPool.next_age_ p - 1) = (SolutionPool.next_age_ p - 1)%Z).
  { unfold to_ull. apply Z.mod_small. unfold ULLONG_MAX in Hrange. lia. }
  cbn [SolutionPool.next_age_]. rewrite Hull. split; [|lia].
  unfold ages_fresh. cbn [SolutionPool.next_age_ SolutionPool.entries_].
  rewrite <- (sorted_perm (SolutionPool.sorted_ p) (SolutionPool.sense_ p) es).
  split; [lia|].
  assert (Hold : Forall (fun e => (SolutionPool.next_age_ p - 1 < SolutionPool.age e
                                   <= ULLONG_MAX)%Z) (SolutionPool.entries_ p)).
  { eapply Forall_impl; [exact Hall|]. simpl. intros e He. lia. }
  assert (Hnew : SolutionPool.next_age_ p ∉ map SolutionPool.age (SolutionPool.entries_ p)).
  { intros Hin. apply list_elem_of_fmap in Hin as (e & He & Hin).
    rewrite Forall_forall in Hall. apply Hall in Hin. lia. }
  destruct Hes as [[_ ->] | (_ & i & old & cells & _ & _ & ->)].
  - split.
    + apply Forall_app. split; [exact Hold|]. constructor; [|constructor].
      unfold stored. simpl. lia.
    + rewrite map_app. simpl. apply NoDup_app. split; [exact Hnodup|]. split.
      * intros a Ha Ha'. apply list_elem_of_singleton in Ha'. subst a. now apply Hnew.
      * apply NoDup_singleton.
  - split.
    + apply Forall_insert; [exact Hold|]. unfold stored. simpl. lia.
    + change (map SolutionPool.age) with (fmap (M := list) SolutionPool.age).
      rewrite list_fmap_insert. apply NoDup_insert_fresh; assumption.
Qed.

Lemma add_entries_ages p cands p' :
  ages_fresh p ->
  (Z.of_nat (length cands) <= SolutionPool.next_age_ p)%Z ->
  SolutionPool.add_entries p cands = Ok p' ->
  ages_fresh p'
  /\ (SolutionPool.next_age_ p - Z.of_nat (length cands) <= SolutionPool.next_age_ p')%Z.
Proof.
  revert p. induction cands as [|[solution value] cands IH]; intros p Hfresh Hlen H.
  - injection H as <-. split; [exact Hfresh | simpl; lia].
  - cbn [SolutionPool.add_entries] in H. apply bind_Ok in H as ([b p1] & H1 & H).
    cbn [snd] in H. cbn [length] in Hlen.
    apply add_entry_ages in H1 as [Hfresh1 Hage1]; [|exact Hfresh|lia].
    apply IH in H as [Hfresh' Hage']; [|exact Hfresh1|lia].
    split; [exact Hfresh'|]. cbn [length]. lia.
Qed.

(** X5.  In a pool built by the constructor and fewer than 2^64 calls of
    [add_entry], no two entries have the same age, every age in use is
    above [next_age_], and [next_age_] has gone down by at most the number
    of calls. *)
Theorem ages_stay_fresh (sense : Sense) (max_size : nat) (sorted : bool)
    (cands : list (list IloNum * IloNum)) (p' : SolutionPool.t) :
  (Z.of_nat (length cands) <= ULLONG_MAX)%Z ->
  SolutionPool.add_entries (SolutionPool.new sense max_size sorted) cands = Ok p' ->
  NoDup (map SolutionPool.age (SolutionPool.entries_ p'))
  /\ Forall (fun e => (SolutionPool.next_age_ p' < SolutionPool.age e <= ULLONG_MAX)%Z)
       (SolutionPool.entries_ p')
  /\ (ULLONG_MAX - Z.of_nat (length cands) <= SolutionPool.next_age_ p' <= ULLONG_MAX)%Z.
Proof.
  intros Hlen H.
  apply add_entries_ages in H as [(Hrange & Hall & Hnodup) Hage].
  - cbn [SolutionPool.new SolutionPool.next_age_] in Hage.
    split; [exact Hnodup|]. split; [exact Hall | lia].
  - unfold ages_fresh, SolutionPool.new. cbn [SolutionPool.next_age_ SolutionPool.entries_].
    split; [unfold ULLONG_MAX; lia|]. split; constructor.
  - exact Hlen.
Qed.

Lemma ages_stay_fresh_witness :
  NoDup (map SolutionPool.age (SolutionPool.entries_ pool_full))
  /\ Forall (fun e => (SolutionPool.next_age_ pool_full < SolutionPool.age e <= ULLONG_MAX)%Z)
       (SolutionPool.entries_ pool_full)
  /\ (ULLONG_MAX - Z.of_nat (length pool_scenario) <= SolutionPool.next_age_ pool_full
      <= ULLONG_MAX)%Z.
Proof.
  apply (ages_stay_fresh Minimize 3 true pool_scenario pool_full).
  - vm_compute. congruence.
  - vm_compute. reflexivity.
Defined.

(** X6.  The comparator given to [std::sort] orders any two entries of
    different ages one way and not the other: it never leaves them tied. *)
Theorem before_decides (sense : Sense) (entry1 entry2 : SolutionPool.Entry) :
  SolutionPool.age entry1 <> SolutionPool.age entry2 ->
  SolutionPool.before sense entry1 entry2 = negb (SolutionPool.before sense entry2 entry1).
Proof.
  intros Hage. unfold SolutionPool.before.
  assert (Hsym : Qltb (Qabs (Binary64.round (SolutionPool.value entry2
                                             - SolutionPool.value entry1)))
                   SolutionPool.SIMILARITY_THRESHOLD
                 = Qltb (Qabs (Binary64.round (SolutionPool.value entry1
                                               - SolutionPool.value entry2)))
                     SolutionPool.SIMILARITY_THRESHOLD).
  { pose proof (round_distance_sym (SolutionPool.value entry1) (SolutionPool.value entry2)).
    destruct (Qltb (Qabs (Binary64.round (SolutionPool.value entry2
                                          - SolutionPool.value entry1))) _) eqn:E1;
      destruct (Qltb (Qabs (Binary64.round (SolutionPool.value entry1
                                            - SolutionPool.value entry2))) _) eqn:E2;
      try reflexivity.
    - apply Qltb_lt in E1. apply Qltb_ge in E2. lra.
    - apply Qltb_ge in E1. apply Qltb_lt in E2. lra. }
  rewrite Hsym. clear Hsym.
  destruct (Qltb (Qabs _) _) eqn:E.
  - destruct (Z.ltb_spec (SolutionPool.age entry1) (SolutionPool.age entry2));
      destruct (Z.ltb_spec (SolutionPool.age entry2) (SolutionPool.age entry1));
      simpl; try reflexivity; lia.
  - apply Qltb_ge in E. unfold SolutionPool.SIMILARITY_THRESHOLD, Binary64.d1e_5 in E.
    assert (Hne : ~ SolutionPool.value entry1 == SolutionPool.value entry2).
    { intros Heq. pose proof (round_distance_same _ _ Heq) as H0. lra. }
    assert (Hflip : forall a b, ~ a == b -> Qltb a b = negb (Qltb b a)).
    { intros a b Hab. destruct (Qltb a b) eqn:E1; destruct (Qltb b a) eqn:E2;
        simpl; try reflexivity.
      - apply Qltb_lt in E1, E2. lra.
      - apply Qltb_ge in E1, E2. exfalso. apply Hab. lra. }
    destruct sense; apply Hflip; [exact Hne|]. intros Heq. apply Hne. now symmetry.
Qed.

Lemma before_decides_witness :
  SolutionPool.before Minimize (SolutionPool.mkEntry [0] 10 5) (SolutionPool.mkEntry [1] 10 7)
  = negb (SolutionPool.before Minimize (SolutionPool.mkEntry [1] 10 7)
            (SolutionPool.mkEntry [0] 10 5)).
Proof.
  apply (before_decides Minimize (SolutionPool.mkEntry [0] 10 5) (SolutionPool.mkEntry [1] 10 7)).
  simpl. lia.
Defined.

(** ** More about the abort callback *)

Lemma main_aborted c i : AbortCallback.aborted_ c = true -> AbortCallback.main c i = (c, false).
Proof. unfold AbortCallback.main. now intros ->. Qed.

Lemma main_abort_sets_flag c i :
  snd (AbortCallback.main c i) = true -> AbortCallback.aborted_ (fst (AbortCallback.main c i)) = true.
Proof.
  unfold AbortCallback.main.
  repeat match goal with
         | |- context [if ?b then _ else _] => destruct b
         end; simpl; congruence.
Qed.

Lemma calls_aborted c infos :
  AbortCallback.aborted_ c = true ->
  abort_callback_calls c infos = (c, map (fun _ => false) infos).
Proof.
  intros Hc. induction infos as [|i infos IH]; [reflexivity|].
  cbn [abort_callback_calls]. rewrite (main_aborted c i Hc). cbn [fst snd].
  now rewrite IH.
Qed.

Lemma aborts_none {A} (l : list A) : aborts (map (fun _ => false) l) = 0%nat.
Proof.
  unfold aborts. induction l as [|x l IH]; [reflexivity|].
  cbn [map]. rewrite filter_cons_False by discriminate. exact IH.
Qed.

(** X7.  [abort()] is called at most once, however often CPLEX calls the
    callback: once [aborted_] is set, [main] returns at once and changes
    nothing. *)
Theorem abort_called_at_most_once (c : AbortCallback.t) (infos : list AbortCallback.Info) :
  (aborts (snd (abort_callback_calls c infos)) <= 1)%nat
  /\ (AbortCallback.aborted_ c = true ->
      abort_callback_calls c infos = (c, map (fun _ => false) infos))
  /\ (In true (snd (abort_callback_calls c infos)) ->
      AbortCallback.aborted_ (fst (abort_callback_calls c infos)) = true).
Proof.
  split; [|split].
  - revert c. induction infos as [|i infos IH]; intros c; [unfold aborts; simpl; lia|].
    cbn [abort_callback_calls snd].
    destruct (snd (AbortCallback.main c i)) eqn:E.
    + apply main_abort_sets_flag in E. rewrite (calls_aborted _ infos E). cbn [snd].
      unfold aborts. rewrite filter_cons_True by reflexivity.
      cbn [length]. fold (aborts (map (fun _ : AbortCallback.Info => false) infos)).
      rewrite aborts_none. lia.
    + unfold aborts. rewrite filter_cons_False by discriminate. apply IH.
  - apply calls_aborted.
  - revert c. induction infos as [|i infos IH]; intros c; [intros []|].
    cbn [abort_callback_calls snd fst]. intros [E | Hin].
    + apply main_abort_sets_flag in E. now rewrite (calls_aborted _ infos E).
    + now apply IH.
Qed.

Lemma abort_called_at_most_once_witness :
  (aborts (snd (abort_callback_calls abort_callback_started improving_calls)) <= 1)%nat
  /\ (AbortCallback.aborted_ abort_callback_started = true ->
      abort_callback_calls abort_callback_started improving_calls
      = (abort_callback_started, map (fun _ => false) improving_calls))
  /\ (In true (snd (abort_callback_calls abort_callback_started improving_calls)) ->
      AbortCallback.aborted_
        (fst (abort_callback_calls abort_callback_started improving_calls)) = true).
Proof. apply (abort_called_at_most_once abort_callback_started improving_calls). Defined.

Lemma main_same_but_unset c c' i :
  same_but_unset c c' ->
  snd (AbortCallback.main c' i) = snd (AbortCallback.main c i)
  /\ same_but_unset (fst (AbortCallback.main c i)) (fst (AbortCallback.main c' i)).
Proof.
  destruct c as [t tl nl nu ini ab obj nodes], c' as [t' tl' nl' nu' ini' ab' obj' nodes'].
  unfold same_but_unset. cbn. intros (-> & -> & -> & -> & -> & -> & Hset).
  unfold AbortCallback.main. cbn.
  destruct ab; [cbn; auto 10|].
  destruct (time_reached t _ tl); [cbn; auto 10|].
  destruct (nl <=? _)%Z; [cbn; auto 10|].
  destruct ini; cbn.
  2:{ auto 10. }
  destruct (Hset eq_refl) as [-> ->].
  destruct (Qltb _ _); [cbn; auto 10|].
  destruct (nu <? _)%Z; cbn; auto 10.
Qed.

Lemma calls_same_but_unset c c' infos :
  same_but_unset c c' ->
  snd (abort_callback_calls c' infos) = snd (abort_callback_calls c infos)
  /\ same_but_unset (fst (abort_callback_calls c infos)) (fst (abort_callback_calls c' infos)).
Proof.
  revert c c'. induction infos as [|i infos IH]; intros c c' H; [now split|].
  cbn [abort_callback_calls fst snd].
  destruct (main_same_but_unset c c' i H) as [-> H1].
  destruct (IH _ _ H1) as [-> H2]. now split.
Qed.

(** X8.  The two members the constructor leaves unset are never read
    before they are assigned: whatever they hold at first, the calls of
    [abort()] are the same, and so are the members once they are assigned. *)
Theorem unset_members_never_read (timer : bool) (time_limit : Q)
    (nodes_limit nodes_unsuccessful : Z) (obj0 obj0' : IloNum) (nodes0 nodes0' : Z)
    (infos : list AbortCallback.Info) :
  let c := AbortCallback.create_instance timer time_limit nodes_limit nodes_unsuccessful
             obj0 nodes0 in
  let c' := AbortCallback.create_instance timer time_limit nodes_limit nodes_unsuccessful
              obj0' nodes0' in
  snd (abort_callback_calls c' infos) = snd (abort_callback_calls c infos)
  /\ same_but_unset (fst (abort_callback_calls c infos)) (fst (abort_callback_calls c' infos)).
Proof.
  intros c c'. apply calls_same_but_unset.
  unfold same_but_unset, c, c'. cbn. repeat (split; [reflexivity|]). discriminate.
Qed.

Lemma main_default_limits c i n :
  AbortCallback.aborted_ c = false ->
  AbortCallback.nodes_limit_ c = ULLONG_MAX ->
  (LONG_MAX <= AbortCallback.nodes_unsuccessful_ c)%Z ->
  (AbortCallback.initialized_ c = true -> (0 <= AbortCallback.nodes_last_incumbent_ c <= n)%Z) ->
  (n <= AbortCallback.Nnodes64 i <= LONG_MAX)%Z ->
  (0 <= n)%Z ->
  let c' := fst (AbortCallback.main c i) in
  (snd (AbortCallback.main c i) = true <-> out_of_time c i)
  /\ (snd (AbortCallback.main c i) = false ->
      AbortCallback.aborted_ c' = false
      /\ AbortCallback.nodes_limit_ c' = ULLONG_MAX
      /\ AbortCallback.nodes_unsuccessful_ c' = AbortCallback.nodes_unsuccessful_ c
      /\ AbortCallback.timer_ c' = AbortCallback.timer_ c
      /\ AbortCallback.time_limit_ c' = AbortCallback.time_limit_ c
      /\ (AbortCallback.initialized_ c' = true ->
          (0 <= AbortCallback.nodes_last_incumbent_ c' <= AbortCallback.Nnodes64 i)%Z)).
Proof.
  intros Hab Hnl Hnu Hlast Hn Hn0. unfold out_of_time, AbortCallback.main.
  rewrite Hab, Hnl.
  destruct (time_reached _ _ _); cbn [fst snd].
  { split; [tauto | discriminate]. }
  assert (Hull : to_ull (AbortCallback.Nnodes64 i) = AbortCallback.Nnodes64 i).
  { unfold to_ull. apply Z.mod_small. unfold LONG_MAX in Hn. lia. }
  rewrite Hull.
  destruct (Z.leb_spec ULLONG_MAX (AbortCallback.Nnodes64 i)) as [Hle|_].
  { exfalso. unfold ULLONG_MAX, LONG_MAX in *. lia. }
  destruct (AbortCallback.initialized_ c) eqn:Eini; cbn [negb fst snd].
  2:{ split; [split; discriminate|]. intros _. cbn.
      repeat (split; [first [assumption | reflexivity]|]). intros _. lia. }
  destruct (Qltb _ _); cbn [fst snd].
  { split; [split; discriminate|]. intros _. cbn.
    repeat (split; [first [assumption | reflexivity]|]). intros _. lia. }
  specialize (Hlast eq_refl).
  assert (Hd : to_ull (AbortCallback.Nnodes64 i - AbortCallback.nodes_last_incumbent_ c)
               = (AbortCallback.Nnodes64 i - AbortCallback.nodes_last_incumbent_ c)%Z).
  { unfold to_ull. apply Z.mod_small. unfold LONG_MAX in Hn. lia. }
  rewrite Hd.
  destruct (Z.ltb_spec (AbortCallback.nodes_unsuccessful_ c)
              (AbortCallback.Nnodes64 i - AbortCallback.nodes_last_incumbent_ c)) as [Hlt|_].
  { exfalso. lia. }
  cbn [fst snd]. split; [split; discriminate|]. intros _.
  repeat (split; [first [assumption | reflexivity]|]). intros _. lia.
Qed.

Lemma mains_default_limits c infos n :
  AbortCallback.aborted_ c = false ->
  AbortCallback.nodes_limit_ c = ULLONG_MAX ->
  (LONG_MAX <= AbortCallback.nodes_unsuccessful_ c)%Z ->
  (AbortCallback.initialized_ c = true -> (0 <= AbortCallback.nodes_last_incumbent_ c <= n)%Z) ->
  (0 <= n)%Z ->
  node_counts_from n infos ->
  snd (AbortCallback.mains c infos) = true <-> Exists (out_of_time c) infos.
Proof.
  revert c n. induction infos as [|i infos IH]; intros c n Hab Hnl Hnu Hlast Hn0 Hnodes.
  - cbn. split; [discriminate | intros H; inversion H].
  - destruct Hnodes as [Hn Hnodes]. cbn [AbortCallback.mains].
    destruct (main_default_limits c i n Hab Hnl Hnu Hlast Hn Hn0) as [Hiff Hnext].
    destruct (snd (AbortCallback.main c i)) eqn:E.
    + rewrite E. split; [|reflexivity]. intros _. left. now apply Hiff.
    + destruct (Hnext eq_refl) as (Hab' & Hnl' & Hnu' & Ht' & Htl' & Hlast').
      rewrite (IH (fst (AbortCallback.main c i)) (AbortCallback.Nnodes64 i));
        [| exact Hab' | exact Hnl' | now rewrite Hnu' | exact Hlast' | lia | exact Hnodes].
      assert (Hsame : forall j, out_of_time (fst (AbortCallback.main c i)) j <-> out_of_time c j).
      { intros j. unfold out_of_time. now rewrite Ht', Htl'. }
      split.
      * intros Hex. right. eapply Exists_impl; [exact Hex|]. intros j. apply Hsame.
      * intros Hex. apply Exists_cons in Hex as [Hi | Hex].
        -- apply Hiff in Hi. discriminate.
        -- eapply Exists_impl; [exact Hex|]. intros j. apply Hsame.
Qed.

(** X9.  With the node limit the heuristics give it, and a stagnation
    limit of [LONG_MAX] (the default of [submip-nodes-unsuccessful]) or
    more, the abort callback of a sub-MIP aborts on time only: while the
    node count stays a non-negative [IloInt64] that never goes down, it
    calls [abort()] exactly when the time limit is reached, and never
    without a timer. *)
Theorem default_limits_abort_only_on_time (timer : bool) (time_limit : Q)
    (nodes_unsuccessful : Z) (obj0 : IloNum) (nodes0 : Z)
    (infos : list AbortCallback.Info) :
  (LONG_MAX <= nodes_unsuccessful)%Z ->
  node_counts_from 0 infos ->
  let c := AbortCallback.create_instance timer time_limit ULLONG_MAX nodes_unsuccessful
             obj0 nodes0 in
  (snd (AbortCallback.mains c infos) = true <-> Exists (out_of_time c) infos)
  /\ (timer = false -> snd (AbortCallback.mains c infos) = false).
Proof.
  intros Hnu Hnodes c.
  assert (Hiff : snd (AbortCallback.mains c infos) = true <-> Exists (out_of_time c) infos).
  { apply (mains_default_limits c infos 0); try reflexivity; try assumption.
    cbn. discriminate. }
  split; [exact Hiff|]. intros ->.
  destruct (snd (AbortCallback.mains c infos)); [|reflexivity].
  destruct Hiff as [Hex _]. specialize (Hex eq_refl).
  apply Exists_exists in Hex as (i & _ & Hi).
  unfold out_of_time, time_reached in Hi. cbn in Hi. discriminate.
Qed.

Lemma default_limits_abort_only_on_time_witness :
  let c := AbortCallback.create_instance true 10 ULLONG_MAX (to_ull LONG_MAX) 0 0 in
  let infos := [AbortCallback.mkInfo 1000 0 100; AbortCallback.mkInfo 5000 40 100;
                AbortCallback.mkInfo 10000 90 100] in
  (snd (AbortCallback.mains c infos) = true <-> Exists (out_of_time c) infos)
  /\ (true = false -> snd (AbortCallback.mains c infos) = false).
Proof.
  apply (default_limits_abort_only_on_time true 10 (to_ull LONG_MAX) 0 0
           [AbortCallback.mkInfo 1000 0 100; AbortCallback.mkInfo 5000 40 100;
            AbortCallback.mkInfo 10000 90 100]).
  - vm_compute. congruence.
  - vm_compute. intuition congruence.
Defined.

(** ** The constructors of the heuristics *)

Lemma binary_from_spec k variables i :
  i ∈ binary_from k variables
  <-> (k <= i)%nat /\ exists v, variables !! (i - k)%nat = Some v /\ is_binary v = true.
Proof.
  revert k. induction variables as [|v variables IH]; intros k; simpl.
  - split; [intros H; inversion H | intros (_ & v & H & _); discriminate].
  - assert (Htail : i ∈ binary_from (S k) variables
                    <-> (k < i)%nat
                        /\ exists v', (v :: variables) !! (i - k)%nat = Some v'
                                      /\ is_binary v' = true).
    { rewrite IH. split.
      - intros (Hk & v' & Hl & Hb). split; [lia|]. exists v'. split; [|exact Hb].
        replace (i - k)%nat with (S (i - S k)) by lia. exact Hl.
      - intros (Hk & v' & Hl & Hb). split; [lia|]. exists v'. split; [|exact Hb].
        replace (i - k)%nat with (S (i - S k)) in Hl by lia. exact Hl. }
    destruct (is_binary v) eqn:Ev.
    + rewrite elem_of_cons, Htail. split.
      * intros [-> | (Hk & Hv)].
        -- split; [lia|]. exists v. rewrite Nat.sub_diag. now split.
        -- split; [lia | exact Hv].
      * intros (Hk & v' & Hl & Hb).
        destruct (decide (i = k)) as [-> | Hne]; [now left|].
        right. split; [lia|]. now exists v'.
    + rewrite Htail. split.
      * intros (Hk & Hv). split; [lia | exact Hv].
      * intros (Hk & v' & Hl & Hb). split; [|now exists v'].
        destruct (decide (i = k)) as [-> | Hne]; [|lia].
        rewrite Nat.sub_diag in Hl. simpl in Hl. congruence.
Qed.

Lemma binary_from_sorted k variables : StronglySorted lt (binary_from k variables).
Proof.
  revert k. induction variables as [|v variables IH]; intros k; simpl; [constructor|].
  destruct (is_binary v); [|apply IH].
  constructor; [apply IH|]. apply Forall_forall. intros i Hi.
  apply binary_from_spec in Hi as [Hi _]. lia.
Qed.

Lemma increasing_NoDup (l : list nat) : StronglySorted lt l -> NoDup l.
Proof.
  induction 1 as [|i l _ IH Hi]; constructor; [|exact IH].
  intros Hin. rewrite Forall_forall in Hi. apply Hi in Hin. lia.
Qed.

Lemma binary_from_member variables i :
  i ∈ binary_from 0 variables <-> exists v, variables !! i = Some v /\ is_binary v = true.
Proof.
  rewrite binary_from_spec, Nat.sub_0_r. split; [tauto|].
  intros H. split; [lia | exact H].
Qed.

Lemma binary_from_in_range variables :
  Forall (fun i => (i < length variables)%nat) (binary_from 0 variables).
Proof.
  apply Forall_forall. intros i Hi. apply binary_from_member in Hi as (v & Hl & _).
  eapply lookup_lt_Some, Hl.
Qed.

(** X10.  The constructors find exactly the binary variables: the indices
    kept are those of the variables that pass the test, each once, in
    increasing order, and all are indices of the problem's variables. *)
Theorem binary_variables_identified (variables : list NumVar) :
  (forall i, i ∈ binary_from 0 variables
             <-> exists v, variables !! i = Some v /\ is_binary v = true)
  /\ StronglySorted lt (binary_from 0 variables)
  /\ NoDup (binary_from 0 variables)
  /\ Forall (fun i => (i < length variables)%nat) (binary_from 0 variables).
Proof.
  split; [apply binary_from_member|]. split; [apply binary_from_sorted|].
  split; [apply increasing_NoDup, binary_from_sorted | apply binary_from_in_range].
Qed.

(** ** More about Rothberg's heuristic: what a sub-MIP is built from *)

Lemma umod_Ok a b r : umod a b = Ok r -> b <> 0%Z /\ r = (a mod b)%Z.
Proof.
  unfold umod. destruct (Z.eqb_spec b 0); [discriminate|].
  intros H. injection H as <-. now split.
Qed.

Lemma at_index_Ok {A} (v : list A) i a : at_index v i = Ok a -> v !! i = Some a.
Proof. unfold at_index. destruct (v !! i); [|discriminate]. intros H. now injection H as ->. Qed.

(** X11.  The seed of a mutation is never the last entry of a pool of two
    or more: the second draw is reduced modulo the first index, so the
    index used is 0 or lies below the last one. *)
Theorem mutation_seed_never_last (c : Rothberg.Call) (m : Rothberg.Mutation)
    (s s' : Search Rothberg.t) :
  Rothberg.mutation c m s = Ok s' ->
  exists idx entry count bounds,
    SolutionPool.get_entries (pool s) !! idx = Some entry
    /\ (idx = 0 \/ S idx < SolutionPool.size (pool s))%nat
    /\ Rothberg.count_fixed_variables (heuristic s) = Ok count
    /\ Rothberg.fix_to_seed (SolutionPool.solution entry) (Rothberg.m_shuffle m) 0 count
       = Ok bounds
    /\ trace s' = trace s ++ [clear] ++ bounds
                  ++ [extract; Rothberg.abort_callback (heuristic s) c; solve_submip].
Proof.
  intros H. pose proof (mutation_spec c m s s' H) as ((bounds' & _ & Htrace) & _).
  unfold Rothberg.mutation in H.
  apply bind_Ok in H as (idx0 & Hidx0 & H). apply bind_Ok in H as (idx & Hidx & H).
  apply bind_Ok in H as (entry & Hentry & H). apply bind_Ok in H as (count & Hcount & H).
  apply bind_Ok in H as (bounds & Hbounds & H). apply bind_Ok in H as ([s2 b] & Hh & H).
  injection H as <-. apply harvest_spec in Hh as (_ & Htrace2 & _).
  cbn [fst with_heuristic with_actions trace] in Htrace2.
  exists (Z.to_nat idx), entry, count, bounds.
  split; [now apply at_index_Ok|]. split; [|split; [exact Hcount|split; [exact Hbounds|]]].
  - apply umod_Ok in Hidx0 as [Hsize ->].
    pose proof (Z.mod_pos_bound (Rothberg.m_random1 m)
                  (Z.of_nat (SolutionPool.size (pool s)))) as Hr.
    destruct (Z.eqb_spec (Rothberg.m_random1 m mod Z.of_nat (SolutionPool.size (pool s))) 0)
      as [E|E].
    + injection Hidx as <-. left. now rewrite E.
    + apply umod_Ok in Hidx as [_ ->].
      pose proof (Z.mod_pos_bound (Rothberg.m_random2 m)
                    (Rothberg.m_random1 m mod Z.of_nat (SolutionPool.size (pool s)))) as Hr2.
      right. lia.
  - cbn [trace with_heuristic]. exact Htrace2.
Qed.

Lemma mutation_seed_never_last_witness :
  exists idx entry count bounds,
    SolutionPool.get_entries (pool (demo_start 2)) !! idx = Some entry
    /\ (idx = 0 \/ S idx < SolutionPool.size (pool (demo_start 2)))%nat
    /\ Rothberg.count_fixed_variables (heuristic (demo_start 2)) = Ok count
    /\ Rothberg.fix_to_seed (SolutionPool.solution entry)
         (Rothberg.m_shuffle (Rothberg.mutations demo_call 0)) 0 count = Ok bounds
    /\ trace demo_mutated
       = trace (demo_start 2) ++ [clear] ++ bounds
         ++ [extract; Rothberg.abort_callback (heuristic (demo_start 2)) demo_call;
             solve_submip].
Proof.
  apply (mutation_seed_never_last demo_call (Rothberg.mutations demo_call 0)
           (demo_start 2) demo_mutated).
  vm_compute. reflexivity.
Defined.

Lemma fix_to_seed_spec seed vars j count bounds :
  Rothberg.fix_to_seed seed vars j count = Ok bounds ->
  length bounds = length vars
  /\ forall k index,
       vars !! k = Some index ->
       if (j + k <? count)%nat
       then exists x, seed !! index = Some x
                      /\ bounds !! k = Some (fix_variable index (round01 x))
       else bounds !! k = Some (free_variable index).
Proof.
  revert j bounds. induction vars as [|index vars IH]; intros j bounds H; simpl in H.
  - injection H as <-. split; [reflexivity|]. intros k index' Hk. discriminate.
  - apply bind_Ok in H as (a & Ha & H). apply bind_Ok in H as (rest & Hrest & H).
    injection H as <-. apply IH in Hrest as [Hlen Hrest].
    split; [simpl; now rewrite Hlen|].
    intros [|k] index' Hk; simpl in Hk.
    + injection Hk as <-. rewrite Nat.add_0_r. destruct (j <? count)%nat.
      * apply bind_Ok in Ha as (x & Hx & Ha). injection Ha as <-.
        exists x. split; [now apply at_index_Ok | reflexivity].
      * injection Ha as <-. reflexivity.
    + specialize (Hrest k index' Hk).
      replace (j + S k)%nat with (S j + k)%nat by lia. exact Hrest.
Qed.

(** X12.  A mutation fixes the leading variables of the shuffled vector
    and frees the others: of the binary variables in their shuffled order,
    the first [count] are fixed to the seed's value rounded to 0 or 1, and
    every later one is given the problem's bounds; each variable gets one
    call, in that order. *)
Theorem seed_fixes_leading_variables (seed : list IloNum) (vars : list nat) (count : nat)
    (bounds : list Action) :
  Rothberg.fix_to_seed seed vars 0 count = Ok bounds ->
  length bounds = length vars
  /\ forall k index,
       vars !! k = Some index ->
       if (k <? count)%nat
       then exists x, seed !! index = Some x
                      /\ bounds !! k = Some (fix_variable index (round01 x))
                      /\ (round01 x = 0 \/ round01 x = 1)
       else bounds !! k = Some (free_variable index).
Proof.
  intros H. apply fix_to_seed_spec in H as [Hlen H]. split; [exact Hlen|].
  intros k index Hk. specialize (H k index Hk). cbn [Nat.add] in H.
  destruct (k <? count)%nat; [|exact H].
  destruct H as (x & Hx & Hb). exists x. split; [exact Hx|]. split; [exact Hb|].
  unfold round01. destruct (Qltb _ _); auto.
Qed.

Lemma seed_fixes_leading_variables_witness :
  exists bounds,
    Rothberg.fix_to_seed [1; 0; 3] [1%nat; 0%nat] 0 1 = Ok bounds
    /\ length bounds = 2%nat
    /\ forall k index,
         [1%nat; 0%nat] !! k = Some index ->
         if (k <? 1)%nat
         then exists x, [1; 0; 3] !! index = Some x
                        /\ bounds !! k = Some (fix_variable index (round01 x))
                        /\ (round01 x = 0 \/ round01 x = 1)
         else bounds !! k = Some (free_variable index).
Proof.
  eexists. split; [vm_compute; reflexivity|].
  apply (seed_fixes_leading_variables [1; 0; 3] [1%nat; 0%nat] 1).
  vm_compute. reflexivity.
Defined.

Lemma fix_to_pair_spec solution1 solution2 vars bounds :
  Rothberg.fix_to_pair solution1 solution2 vars = Ok bounds ->
  length bounds = length vars
  /\ forall k idx,
       vars !! k = Some idx ->
       exists x1 x2,
         solution1 !! idx = Some x1 /\ solution2 !! idx = Some x2
         /\ bounds !! k
            = Some (if Qltb (Qabs (Binary64.round (x1 - x2))) THRESHOLD
                    then fix_variable idx (round01 x1) else free_variable idx).
Proof.
  revert bounds. induction vars as [|idx vars IH]; intros bounds H; simpl in H.
  - injection H as <-. split; [reflexivity|]. intros k idx' Hk. discriminate.
  - apply bind_Ok in H as (x1 & Hx1 & H). apply bind_Ok in H as (x2 & Hx2 & H).
    apply bind_Ok in H as (rest & Hrest & H). injection H as <-.
    apply IH in Hrest as [Hlen Hrest]. split; [simpl; now rewrite Hlen|].
    intros [|k] idx' Hk; simpl in Hk.
    + injection Hk as <-. exists x1, x2.
      split; [now apply at_index_Ok|]. split; [now apply at_index_Ok | reflexivity].
    + exact (Hrest k idx' Hk).
Qed.

(** X13.  A pairwise recombination takes two different entries of the
    pool, the first at the smaller index; it starts the sub-MIP from the
    first, fixes the binary variables on which the two differ by less than
    the threshold to the first one's rounded value, and frees the others. *)
Theorem pairwise_recombination_picks_two (i : nat) (consider_all : Z)
    (r : Rothberg.Recombination) (s : Search Rothberg.t)
    (bounds : list Action) (start : list IloNum) :
  Z.of_nat i <> consider_all ->
  (Z.of_nat (SolutionPool.size (pool s)) <= ULLONG_MAX)%Z ->
  Rothberg.build i consider_all r s = Ok (bounds, start) ->
  exists idx1 idx2 entry1 entry2,
    (idx1 < idx2 < SolutionPool.size (pool s))%nat
    /\ SolutionPool.get_entries (pool s) !! idx1 = Some entry1
    /\ SolutionPool.get_entries (pool s) !! idx2 = Some entry2
    /\ start = SolutionPool.solution entry1
    /\ length bounds = length (Rothberg.binary_variables_ (heuristic s))
    /\ forall k idx,
         Rothberg.binary_variables_ (heuristic s) !! k = Some idx ->
         exists x1 x2,
           SolutionPool.solution entry1 !! idx = Some x1
           /\ SolutionPool.solution entry2 !! idx = Some x2
           /\ bounds !! k
              = Some (if Qltb (Qabs (Binary64.round (x1 - x2))) THRESHOLD
                      then fix_variable idx (round01 x1) else free_variable idx).
Proof.
  intros Hi Hsize H. unfold Rothberg.build in H.
  destruct (Rothberg.mode (Z.of_nat i) consider_all) eqn:Emode.
  { apply mode_consensus in Emode. contradiction. }
  apply bind_Ok in H as (k & Hk & H). apply bind_Ok in H as (idx1 & Hidx1 & H).
  apply bind_Ok in H as (entry1 & He1 & H). apply bind_Ok in H as (entry2 & He2 & H).
  apply bind_Ok in H as (bs & Hbs & H). injection H as <- <-.
  apply at_index_Ok in He1, He2. apply fix_to_pair_spec in Hbs as [Hlen Hbs].
  apply umod_Ok in Hk as [Hn0 ->]. apply umod_Ok in Hidx1 as [Hk0 ->].
  set (n := to_ull (Z.of_nat (SolutionPool.size (pool s)) - 1)) in *.
  assert (Hn : (0 <= n)%Z) by (apply Z.mod_pos_bound; reflexivity).
  pose proof (Z.mod_pos_bound (Rothberg.r_random1 r) n) as Hr1.
  pose proof (Z.mod_pos_bound (Rothberg.r_random2 r) (Rothberg.r_random1 r mod n + 1)) as Hr2.
  pose proof (lookup_lt_Some _ _ _ He2) as Hlt2.
  exists (Z.to_nat (Rothberg.r_random2 r mod (Rothberg.r_random1 r mod n + 1))),
         (Z.to_nat (Rothberg.r_random1 r mod n + 1)), entry1, entry2.
  split; [|now repeat split].
  unfold SolutionPool.size, SolutionPool.get_entries in *. split; [lia | exact Hlt2].
Qed.

Lemma pairwise_recombination_picks_two_witness :
  exists bounds start idx1 idx2 entry1 entry2,
    Rothberg.build 0 1 (Rothberg.recombinations demo_call 0) (demo_start 2) = Ok (bounds, start)
    /\ (idx1 < idx2 < SolutionPool.size (pool (demo_start 2)))%nat
    /\ SolutionPool.get_entries (pool (demo_start 2)) !! idx1 = Some entry1
    /\ SolutionPool.get_entries (pool (demo_start 2)) !! idx2 = Some entry2
    /\ start = SolutionPool.solution entry1
    /\ length bounds = length (Rothberg.binary_variables_ (heuristic (demo_start 2))).
Proof.
  destruct (pairwise_recombination_picks_two 0 1 (Rothberg.recombinations demo_call 0)
              (demo_start 2)
              [free_variable 0; free_variable 1] [1; 0; 3])
    as (idx1 & idx2 & entry1 & entry2 & H1 & H2 & H3 & H4 & H5 & _).
  - discriminate.
  - vm_compute. congruence.
  - vm_compute. reflexivity.
  - exists [free_variable 0; free_variable 1], [1; 0; 3], idx1, idx2, entry1, entry2.
    split; [vm_compute; reflexivity|]. now repeat split.
Defined.

Lemma agree_spec value idx es b :
  Rothberg.agree value idx es = Ok b ->
  if b
  then Forall (fun e => exists x, SolutionPool.solution e !! idx = Some x
                                  /\ Qabs (Binary64.round (value - x)) < THRESHOLD) es
  else Exists (fun e => exists x, SolutionPool.solution e !! idx = Some x
                                  /\ THRESHOLD <= Qabs (Binary64.round (value - x))) es.
Proof.
  revert b. induction es as [|e es IH]; intros b H; simpl in H.
  - injection H as <-. constructor.
  - apply bind_Ok in H as (x & Hx & H). apply at_index_Ok in Hx.
    destruct (Qle_bool THRESHOLD (Qabs (Binary64.round (value - x)))) eqn:E.
    + injection H as <-. left. exists x. split; [exact Hx|]. now apply Qle_bool_iff.
    + specialize (IH b H). destruct b.
      * constructor; [|exact IH]. exists x. split; [exact Hx|].
        apply Qnot_le_lt. intros Hle. apply Qle_bool_iff in Hle. congruence.
      * now right.
Qed.

Lemma fix_to_consensus_spec es vars bounds :
  Rothberg.fix_to_consensus es vars = Ok bounds ->
  length bounds = length vars
  /\ forall k idx,
       vars !! k = Some idx ->
       exists e0 x0,
         es !! 0%nat = Some e0 /\ SolutionPool.solution e0 !! idx = Some x0
         /\ ((bounds !! k = Some (fix_variable idx (round01 x0))
              /\ Forall (fun e => exists x, SolutionPool.solution e !! idx = Some x
                                            /\ Qabs (Binary64.round (round01 x0 - x)) < THRESHOLD)
                   (drop 1 es))
             \/ (bounds !! k = Some (free_variable idx)
                 /\ Exists (fun e => exists x, SolutionPool.solution e !! idx = Some x
                                               /\ THRESHOLD <= Qabs (Binary64.round (round01 x0 - x)))
                      (drop 1 es))).
Proof.
  revert bounds. induction vars as [|idx vars IH]; intros bounds H; simpl in H.
  - injection H as <-. split; [reflexivity|]. intros k idx' Hk. discriminate.
  - apply bind_Ok in H as (e0 & He0 & H). apply bind_Ok in H as (x0 & Hx0 & H).
    apply bind_Ok in H as (fixit & Hfix & H). apply bind_Ok in H as (rest & Hrest & H).
    injection H as <-. apply IH in Hrest as [Hlen Hrest].
    split; [simpl; now rewrite Hlen|].
    intros [|k] idx' Hk; simpl in Hk.
    + injection Hk as <-. apply at_index_Ok in He0, Hx0. apply agree_spec in Hfix.
      exists e0, x0. split; [exact He0|]. split; [exact Hx0|].
      destruct fixit; [left | right]; (split; [reflexivity | exact Hfix]).
    + exact (Hrest k idx' Hk).
Qed.

(** X14.  The recombination that considers all solutions starts the
    sub-MIP from the first entry of the pool and sets bounds once for each
    binary variable: it fixes a variable to the first entry's rounded value
    when every other entry holds that value up to the threshold, and frees
    it as soon as one entry does not. *)
Theorem consensus_recombination_fixes_agreed (i : nat) (consider_all : Z)
    (r : Rothberg.Recombination) (s : Search Rothberg.t)
    (bounds : list Action) (start : list IloNum) :
  Z.of_nat i = consider_all ->
  Rothberg.build i consider_all r s = Ok (bounds, start) ->
  exists e0,
    SolutionPool.get_entries (pool s) !! 0%nat = Some e0
    /\ start = SolutionPool.solution e0
    /\ length bounds = length (Rothberg.binary_variables_ (heuristic s))
    /\ forall k idx,
         Rothberg.binary_variables_ (heuristic s) !! k = Some idx ->
         exists x0,
           SolutionPool.solution e0 !! idx = Some x0
           /\ ((bounds !! k = Some (fix_variable idx (round01 x0))
                /\ Forall (fun e => exists x, SolutionPool.solution e !! idx = Some x
                                              /\ Qabs (Binary64.round (round01 x0 - x)) < THRESHOLD)
                     (drop 1 (SolutionPool.get_entries (pool s))))
               \/ (bounds !! k = Some (free_variable idx)
                   /\ Exists (fun e => exists x, SolutionPool.solution e !! idx = Some x
                                                 /\ THRESHOLD <= Qabs (Binary64.round (round01 x0 - x)))
                        (drop 1 (SolutionPool.get_entries (pool s))))).
Proof.
  intros Hi H. unfold Rothberg.build in H.
  apply mode_consensus in Hi. rewrite Hi in H.
  apply bind_Ok in H as (bs & Hbs & H). apply bind_Ok in H as (e0 & He0 & H).
  injection H as <- <-. apply at_index_Ok in He0.
  apply fix_to_consensus_spec in Hbs as [Hlen Hbs].
  exists e0. split; [exact He0|]. split; [reflexivity|]. split; [exact Hlen|].
  intros k idx Hk. destruct (Hbs k idx Hk) as (e0' & x0 & He0' & Hx0 & Hcases).
  rewrite He0 in He0'. injection He0' as <-.
  exists x0. split; [exact Hx0 | exact Hcases].
Qed.

Lemma consensus_recombination_fixes_agreed_witness :
  exists bounds e0,
    Rothberg.build 1 1 (Rothberg.recombinations demo_call 1) (demo_start 2)
    = Ok (bounds, SolutionPool.solution e0)
    /\ SolutionPool.get_entries (pool (demo_start 2)) !! 0%nat = Some e0
    /\ length bounds = length (Rothberg.binary_variables_ (heuristic (demo_start 2))).
Proof.
  destruct (consensus_recombination_fixes_agreed 1 1 (Rothberg.recombinations demo_call 1)
              (demo_start 2) [free_variable 0; free_variable 1] [1; 0; 3])
    as (e0 & He0 & Hstart & Hlen & _).
  - reflexivity.
  - vm_compute. reflexivity.
  - exists [free_variable 0; free_variable 1], e0.
    split; [rewrite <- Hstart; vm_compute; reflexivity|]. split; [exact He0 | exact Hlen].
Defined.

(** ** More about the runs of the heuristics *)

(** X15.  On an empty pool [Rothberg::run] builds no sub-MIP: it hands the
    incumbent it read back to CPLEX and leaves the heuristic as it was,
    offset included; the number of recombinations is not looked at. *)
Theorem rothberg_on_empty_pool (h : Rothberg.t) (p : SolutionPool.t) (c : Rothberg.Call) :
  SolutionPool.size p = 0%nat ->
  Rothberg.run h p c
  = Ok (mkSearch h p (Rothberg.getIncumbentObjValue c) (Rothberg.cplex_getValues c)
          [setSolution (Rothberg.cplex_getValues c)]).
Proof.
  intros Hsize. unfold Rothberg.run, Rothberg.mutation_phase, Rothberg.recombination_phase.
  cbn [pool]. rewrite Hsize. cbn [Nat.leb bind pool]. rewrite Hsize. reflexivity.
Qed.

Lemma rothberg_on_empty_pool_witness :
  Rothberg.run (demo_rothberg 0) (SolutionPool.new Minimize 3 true) demo_call
  = Ok (mkSearch (demo_rothberg 0) (SolutionPool.new Minimize 3 true)
          (Rothberg.getIncumbentObjValue demo_call) (Rothberg.cplex_getValues demo_call)
          [setSolution (Rothberg.cplex_getValues demo_call)]).
Proof.
  apply (rothberg_on_empty_pool (demo_rothberg 0) (SolutionPool.new Minimize 3 true) demo_call).
  reflexivity.
Defined.

Lemma mutation_loop_out_of_time c n s :
  time_reached (Rothberg.timer c) (Rothberg.m_clock (Rothberg.mutations c 0))
    (Rothberg.time_limit c) = true ->
  Rothberg.mutation_loop c n 0 s = Ok s.
Proof. intros H. destruct n; simpl; [reflexivity | now rewrite H]. Qed.

Lemma recombination_loop_out_of_time c consider_all n s :
  time_reached (Rothberg.timer c) (Rothberg.r_clock (Rothberg.recombinations c 0))
    (Rothberg.time_limit c) = true ->
  Rothberg.recombination_loop c consider_all n 0 s = Ok s.
Proof. intros H. destruct n; simpl; [reflexivity | now rewrite H]. Qed.

(** X16.  When the time limit is already reached at the first check of
    each loop, a run solves no sub-MIP and leaves pool and incumbent as
    they were.  Rothberg's heuristic still reduces its offset when the pool
    is not empty (and still takes the remainder by the number of
    recombinations when the pool holds two entries); Maravilha's is left
    unchanged. *)
Theorem out_of_time_runs :
  (forall h p c,
      time_reached (Rothberg.timer c) (Rothberg.m_clock (Rothberg.mutations c 0))
        (Rothberg.time_limit c) = true ->
      time_reached (Rothberg.timer c) (Rothberg.r_clock (Rothberg.recombinations c 0))
        (Rothberg.time_limit c) = true ->
      Rothberg.num_recombinations_ h <> 0%Z ->
      Rothberg.run h p c
      = Ok (mkSearch (if (1 <=? SolutionPool.size p)%nat then Rothberg.update_offset h else h)
              p (Rothberg.getIncumbentObjValue c) (Rothberg.cplex_getValues c)
              [setSolution (Rothberg.cplex_getValues c)]))
  /\ (forall h p c,
        time_reached (Maravilha.timer c) (Maravilha.i_clock (Maravilha.iterations c 0))
          (Maravilha.time_limit c) = true ->
        (0 < SolutionPool.size p)%nat ->
        Maravilha.run h p c
        = Ok (mkSearch h p (Maravilha.getIncumbentObjValue c) (Maravilha.getIncumbentValues c)
                [setSolution (Maravilha.getIncumbentValues c)])).
Proof.
  split.
  - intros h p c Hm Hr Hn.
    unfold Rothberg.run, Rothberg.mutation_phase, Rothberg.recombination_phase. cbn [pool].
    destruct (1 <=? SolutionPool.size p)%nat eqn:E1.
    + rewrite (mutation_loop_out_of_time c _ _ Hm). cbn [bind pool with_heuristic heuristic].
      destruct (2 <=? SolutionPool.size p)%nat; [|reflexivity].
      unfold umod, Rothberg.update_offset. cbn [Rothberg.num_recombinations_ Rothberg.set_offset].
      destruct (Z.eqb_spec (Rothberg.num_recombinations_ h) 0); [contradiction|].
      cbn [bind]. rewrite (recombination_loop_out_of_time c _ _ _ Hr). reflexivity.
    + cbn [bind pool]. apply Nat.leb_gt in E1.
      destruct (Nat.leb_spec 2 (SolutionPool.size p)); [lia | reflexivity].
  - intros h p c Ht Hsize. unfold Maravilha.run.
    apply Nat.ltb_lt in Hsize. rewrite Hsize.
    destruct (Z.to_nat (Maravilha.iterations_ h)); simpl; [reflexivity | now rewrite Ht].
Qed.

Lemma out_of_time_runs_witness :
  let c := Rothberg.mkCall true 1 8 [1; 0; 3]
             (fun _ => Rothberg.mkMutation 1000 0 0 [1%nat; 0%nat] (mkSubMIP false Unknown 0 []))
             0
             (fun _ => Rothberg.mkRecombination 1000 0 0 (mkSubMIP false Unknown 0 [])) in
  Rothberg.run (demo_rothberg 2) demo_pool c
  = Ok (mkSearch (Rothberg.update_offset (demo_rothberg 2)) demo_pool 8 [1; 0; 3]
          [setSolution [1; 0; 3]]).
Proof.
  destruct out_of_time_runs as [H _].
  apply (H (demo_rothberg 2) demo_pool
           (Rothberg.mkCall true 1 8 [1; 0; 3]
              (fun _ => Rothberg.mkMutation 1000 0 0 [1%nat; 0%nat] (mkSubMIP false Unknown 0 []))
              0
              (fun _ => Rothberg.mkRecombination 1000 0 0 (mkSubMIP false Unknown 0 [])))).
  - vm_compute. reflexivity.
  - vm_compute. reflexivity.
  - vm_compute. congruence.
Defined.

(** ** The calls a run makes *)

Lemma solves_app acts1 acts2 : solves (acts1 ++ acts2) = (solves acts1 + solves acts2)%nat.
Proof.
  induction acts1 as [|a acts1 IH]; [reflexivity|].
  destruct a; simpl; rewrite IH; reflexivity.
Qed.

Lemma solves_bounds bounds : Forall sets_bounds bounds -> solves bounds = 0%nat.
Proof. induction 1 as [|a bounds Ha _ IH]; [reflexivity|]. destruct a; simpl in *; tauto. Qed.

Lemma fix_to_incumbent_bounds incumbent vars fixed :
  Maravilha.fix_to_incumbent incumbent vars = Ok fixed -> Forall sets_bounds fixed.
Proof.
  revert fixed. induction vars as [|idx vars IH]; intros fixed H; simpl in H.
  - injection H as <-. constructor.
  - apply bind_Ok in H as (x & _ & H). apply bind_Ok in H as (rest & Hrest & H).
    injection H as <-. constructor; [exact I | now apply IH].
Qed.

Lemma free_variables_bounds freed : Forall sets_bounds (map free_variable freed).
Proof. induction freed; constructor; [exact I | assumption]. Qed.

(** The calls of one iteration of Maravilha's loop. *)
Lemma iteration_trace c it s s' :
  Maravilha.iteration c it s = Ok s' ->
  exists bounds,
    Forall sets_bounds bounds
    /\ trace s' = trace s ++ [clear] ++ bounds
                  ++ [extract; addMIPStart (incumbent_solution s);
                      Maravilha.abort_callback (heuristic s) c; solve_submip].
Proof.
  unfold Maravilha.iteration. intros H.
  apply bind_Ok in H as (idx & _ & H). apply bind_Ok in H as (entry & _ & H).
  apply bind_Ok in H as (fixed & Hfixed & H). apply bind_Ok in H as ([s2 b] & Hh & H).
  injection H as <-. apply harvest_spec in Hh as (_ & Htrace & _).
  cbn [fst with_heuristic with_actions trace] in *.
  exists (fixed ++ map free_variable (Maravilha.i_freed it)). split.
  - apply Forall_app. split; [eapply fix_to_incumbent_bounds, Hfixed|].
    apply free_variables_bounds.
  - rewrite Htrace. now rewrite <- !app_assoc.
Qed.

Lemma mutation_loop_solves c n i s s' :
  Rothberg.mutation_loop c n i s = Ok s' ->
  (solves (trace s') <= solves (trace s) + n)%nat.
Proof.
  revert i s. induction n as [|n IH]; intros i s H; simpl in H.
  - injection H as <-. lia.
  - destruct (time_reached _ _ _); [injection H as <-; lia|].
    apply bind_Ok in H as (s1 & H1 & H). apply IH in H.
    apply mutation_spec in H1 as ((bounds & Hb & Ht) & _).
    rewrite Ht, !solves_app, (solves_bounds _ Hb) in H. simpl in H. lia.
Qed.

Lemma recombination_loop_solves c consider_all n i s s' :
  Rothberg.recombination_loop c consider_all n i s = Ok s' ->
  (solves (trace s') <= solves (trace s) + n)%nat.
Proof.
  revert i s. induction n as [|n IH]; intros i s H; simpl in H.
  - injection H as <-. lia.
  - destruct (time_reached _ _ _); [injection H as <-; lia|].
    apply bind_Ok in H as (s1 & H1 & H). apply IH in H.
    apply recombination_spec in H1 as ((bounds & start & _ & Hb & Ht) & _).
    rewrite Ht, !solves_app, (solves_bounds _ Hb) in H. simpl in H. lia.
Qed.

Lemma loop_solves c n i s s' :
  Maravilha.loop c n i s = Ok s' ->
  (solves (trace s') <= solves (trace s) + n)%nat.
Proof.
  revert i s. induction n as [|n IH]; intros i s H; simpl in H.
  - injection H as <-. lia.
  - destruct (time_reached _ _ _); [injection H as <-; lia|].
    apply bind_Ok in H as (s1 & H1 & H). apply IH in H.
    apply iteration_trace in H1 as (bounds & Hb & Ht).
    rewrite Ht, !solves_app, (solves_bounds _ Hb) in H. simpl in H. lia.
Qed.

(** X17.  A run solves no more sub-MIPs than its loops have iterations:
    at most [num_mutations_ + num_recombinations_] for Rothberg's
    heuristic, at most [iterations_] (none when that is negative) for
    Maravilha's. *)
Theorem submip_solves_bounded :
  (forall h p c s,
      Rothberg.run h p c = Ok s ->
      (solves (trace s)
       <= Z.to_nat (Rothberg.num_mutations_ h) + Z.to_nat (Rothberg.num_recombinations_ h))%nat)
  /\ (forall h p c s,
        Maravilha.run h p c = Ok s ->
        (solves (trace s) <= Z.to_nat (Maravilha.iterations_ h))%nat).
Proof.
  split.
  - intros h p c s H. unfold Rothberg.run in H.
    apply bind_Ok in H as (s1 & H1 & H). apply bind_Ok in H as (s2 & H2 & H).
    injection H as <-. cbn [trace with_actions]. rewrite solves_app. simpl.
    pose proof (mutation_phase_recombinations _ _ _ H1) as Hn. cbn [heuristic] in Hn.
    assert (B1 : (solves (trace s1) <= Z.to_nat (Rothberg.num_mutations_ h))%nat).
    { unfold Rothberg.mutation_phase in H1. cbn [pool heuristic] in H1.
      destruct (1 <=? _)%nat.
      - apply bind_Ok in H1 as (s1' & H1 & H1'). injection H1' as <-.
        apply mutation_loop_solves in H1. cbn [trace with_heuristic] in *. simpl in H1. lia.
      - injection H1 as <-. simpl. lia. }
    assert (B2 : (solves (trace s2)
                  <= solves (trace s1) + Z.to_nat (Rothberg.num_recombinations_ h))%nat).
    { unfold Rothberg.recombination_phase in H2. destruct (2 <=? _)%nat.
      - apply bind_Ok in H2 as (ca & _ & H2). apply recombination_loop_solves in H2.
        now rewrite Hn in H2.
      - injection H2 as <-. lia. }
    lia.
  - intros h p c s H. unfold Maravilha.run in H. destruct (0 <? _)%nat.
    + apply bind_Ok in H as (s1 & H1 & H). injection H as <-.
      apply loop_solves in H1. cbn [trace with_actions] in *. rewrite solves_app. simpl in *. lia.
    + injection H as <-. simpl. lia.
Qed.

Lemma submip_solves_bounded_witness :
  (solves (trace demo_result) <= 2 + 2)%nat
  /\ (solves (trace demo_maravilha_result) <= 2)%nat.
Proof.
  destruct submip_solves_bounded as [HR HM]. split.
  - apply (HR (demo_rothberg 2) demo_pool demo_call demo_result). vm_compute. reflexivity.
  - apply (HM demo_maravilha demo_pool demo_maravilha_call demo_maravilha_result).
    vm_compute. reflexivity.
Defined.

Lemma guarded_by_nil guard : guarded_by guard [].
Proof. intros k H. discriminate. Qed.

Lemma guarded_by_build guard acts bounds middle :
  guard <> solve_submip ->
  guarded_by guard acts ->
  Forall sets_bounds bounds ->
  Forall (fun a => a <> solve_submip) middle ->
  guarded_by guard (acts ++ [clear] ++ bounds ++ middle ++ [guard; solve_submip]).
Proof.
  intros Hguard Hacts Hbounds Hmiddle k Hk.
  assert (Hfree : Forall (fun a => a <> solve_submip) ([clear] ++ bounds ++ middle)).
  { apply Forall_app. split; [repeat constructor; discriminate|].
    apply Forall_app. split; [|exact Hmiddle].
    eapply Forall_impl; [exact Hbounds|]. intros a Ha ->. exact Ha. }
  replace (acts ++ [clear] ++ bounds ++ middle ++ [guard; solve_submip])
    with (acts ++ ([clear] ++ bounds ++ middle) ++ [guard; solve_submip]) in *
    by (now rewrite <- !app_assoc).
  remember ([clear] ++ bounds ++ middle) as mid eqn:Emid. clear Emid.
  apply lookup_app_Some in Hk as [Hk | [Hlen Hk]].
  { destruct (Hacts k Hk) as (j & -> & Hj). exists j. split; [reflexivity|].
    apply lookup_app_l_Some. exact Hj. }
  apply lookup_app_Some in Hk as [Hk | [Hlen2 Hk]].
  { rewrite Forall_forall in Hfree. exfalso. eapply Hfree; [|reflexivity].
    eapply list_elem_of_lookup_2, Hk. }
  destruct (k - length acts - length mid)%nat as [|[|?]] eqn:E; simpl in Hk.
  - injection Hk as ->. contradiction.
  - exists (length acts + length mid)%nat. split; [lia|].
    rewrite lookup_app_r by lia. rewrite lookup_app_r by lia.
    replace (length acts + length mid - length acts - length mid)%nat with 0%nat by lia.
    reflexivity.
  - discriminate.
Qed.

Lemma guarded_by_app guard acts tail :
  guarded_by guard acts ->
  Forall (fun a => a <> solve_submip) tail ->
  guarded_by guard (acts ++ tail).
Proof.
  intros Hacts Htail k Hk. apply lookup_app_Some in Hk as [Hk | [_ Hk]].
  - destruct (Hacts k Hk) as (j & -> & Hj). exists j. split; [reflexivity|].
    now apply lookup_app_l_Some.
  - rewrite Forall_forall in Htail. exfalso. eapply Htail; [|reflexivity].
    eapply list_elem_of_lookup_2, Hk.
Qed.

Lemma rothberg_run_inv_last (P : Search Rothberg.t -> Prop) h p c s :
  (forall i s s', P s -> Rothberg.mutation c (Rothberg.mutations c i) s = Ok s' -> P s') ->
  (forall ca i s s', P s ->
     Rothberg.recombination c ca i (Rothberg.recombinations c i) s = Ok s' -> P s') ->
  (forall s, P s -> P (with_heuristic s (Rothberg.update_offset (heuristic s)))) ->
  (forall s, P s -> P (with_actions s [setSolution (incumbent_solution s)])) ->
  P (mkSearch h p (Rothberg.getIncumbentObjValue c) (Rothberg.cplex_getValues c) []) ->
  Rothberg.run h p c = Ok s -> P s.
Proof.
  intros Hm Hr Ho Ha H0. unfold Rothberg.run. intros H.
  apply bind_Ok in H as (s1 & H1 & H). apply bind_Ok in H as (s2 & H2 & H).
  injection H as <-. apply Ha.
  assert (P1 : P s1).
  { unfold Rothberg.mutation_phase in H1. destruct (1 <=? _)%nat.
    - apply bind_Ok in H1 as (s1' & H1 & H1'). injection H1' as <-. apply Ho.
      eapply mutation_loop_inv; [exact Hm | exact H0 | exact H1].
    - injection H1 as <-. exact H0. }
  unfold Rothberg.recombination_phase in H2. destruct (2 <=? _)%nat.
  - apply bind_Ok in H2 as (ca & _ & H2).
    eapply recombination_loop_inv; [apply Hr | exact P1 | exact H2].
  - injection H2 as <-. exact P1.
Qed.

Lemma maravilha_run_inv_last (P : Search Maravilha.t -> Prop) h p c s :
  (forall i s s', P s -> Maravilha.iteration c (Maravilha.iterations c i) s = Ok s' -> P s') ->
  (forall s, P s -> P (with_actions s [setSolution (incumbent_solution s)])) ->
  P (mkSearch h p (Maravilha.getIncumbentObjValue c) (Maravilha.getIncumbentValues c) []) ->
  Maravilha.run h p c = Ok s -> P s.
Proof.
  intros Hi Ha H0. unfold Maravilha.run. destruct (0 <? _)%nat.
  - intros H. apply bind_Ok in H as (s1 & H1 & H). injection H as <-. apply Ha.
    eapply loop_inv; [exact Hi | exact H0 | exact H1].
  - intros H. injection H as <-. exact H0.
Qed.

(** X18.  No sub-MIP is solved unguarded: in the calls of a run every
    [solve] comes right after the installation of an abort callback that
    carries the run's timer and time limit, no node limit, and the
    heuristic's stagnation limit. *)
Theorem every_solve_has_abort_callback :
  (forall h p c s,
      Rothberg.run h p c = Ok s ->
      guarded_by
        (use_AbortCallback (Rothberg.timer c) (Rothberg.time_limit c) ULLONG_MAX
           (to_ull (Rothberg.submip_nodes_unsuccessful_ h)))
        (trace s))
  /\ (forall h p c s,
        Maravilha.run h p c = Ok s ->
        guarded_by
          (use_AbortCallback (Maravilha.timer c) (Maravilha.time_limit c) ULLONG_MAX
             (to_ull (Maravilha.submip_nodes_unsuccessful_ h)))
          (trace s)).
Proof.
  split.
  - intros h p c s.
    apply (rothberg_run_inv_last
             (fun s => Rothberg.submip_nodes_unsuccessful_ (heuristic s)
                       = Rothberg.submip_nodes_unsuccessful_ h
                       /\ guarded_by (Rothberg.abort_callback h c) (trace s))).
    + intros i s1 s2 [Hn Hg] H. apply mutation_spec in H as ((bounds & Hb & Ht) & Hh & _).
      split.
      * rewrite Hh.
        destruct (update_fixing_fraction_offsets (heuristic s1)
                    (Rothberg.m_shuffle (Rothberg.mutations c i))
                    (solve (Rothberg.m_submip (Rothberg.mutations c i))
                     && improves (Rothberg.submip_sense_ (heuristic s1))
                          (getObjValue (Rothberg.m_submip (Rothberg.mutations c i)))
                          (incumbent_objective s1))
                    (getStatus (Rothberg.m_submip (Rothberg.mutations c i))))
          as (_ & _ & _ & _ & ->). exact Hn.
      * rewrite Ht. unfold Rothberg.abort_callback at 2. rewrite Hn.
        apply (guarded_by_build _ (trace s1) bounds [extract]); try assumption.
        -- discriminate.
        -- repeat constructor; discriminate.
    + intros ca i s1 s2 [Hn Hg] H.
      apply recombination_spec in H as ((bounds & start & _ & Hb & Ht) & Hh & _).
      split; [now rewrite Hh|].
      rewrite Ht. unfold Rothberg.abort_callback at 2. rewrite Hn.
      apply (guarded_by_build _ (trace s1) bounds [extract; addMIPStart start]);
        try assumption.
      * discriminate.
      * repeat constructor; discriminate.
    + intros s1 [Hn Hg]. split; assumption.
    + intros s1 [Hn Hg]. split; [exact Hn|]. cbn [trace with_actions].
      apply guarded_by_app; [exact Hg|]. repeat constructor; discriminate.
    + split; [reflexivity | apply guarded_by_nil].
  - intros h p c s.
    apply (maravilha_run_inv_last
             (fun s => Maravilha.submip_nodes_unsuccessful_ (heuristic s)
                       = Maravilha.submip_nodes_unsuccessful_ h
                       /\ guarded_by (Maravilha.abort_callback h c) (trace s))).
    + intros i s1 s2 [Hn Hg] H.
      pose proof (iteration_trace _ _ _ _ H) as (bounds & Hb & Ht).
      apply iteration_spec in H as (Hh & _). split.
      * rewrite Hh. unfold Maravilha.update_submip_size.
        destruct (_ && _); [exact Hn|]. destruct (getStatus _); exact Hn.
      * rewrite Ht. unfold Maravilha.abort_callback at 2. rewrite Hn.
        apply (guarded_by_build _ (trace s1) bounds
                 [extract; addMIPStart (incumbent_solution s1)]); try assumption.
        -- discriminate.
        -- repeat constructor; discriminate.
    + intros s1 [Hn Hg]. split; [exact Hn|]. cbn [trace with_actions].
      apply guarded_by_app; [exact Hg|]. repeat constructor; discriminate.
    + split; [reflexivity | apply guarded_by_nil].
Qed.

Lemma every_solve_has_abort_callback_witness :
  guarded_by (use_AbortCallback false 0 ULLONG_MAX 100) (trace demo_result)
  /\ guarded_by (use_AbortCallback false 0 ULLONG_MAX 100) (trace demo_maravilha_result).
Proof.
  destruct every_solve_has_abort_callback as [HR HM]. split.
  - apply (HR (demo_rothberg 2) demo_pool demo_call demo_result). vm_compute. reflexivity.
  - apply (HM demo_maravilha demo_pool demo_maravilha_call demo_maravilha_result).
    vm_compute. reflexivity.
Defined.

(** ** Runs that stay defined *)

Lemma recombination_loop_heuristic c consider_all n i s s' :
  Rothberg.recombination_loop c consider_all n i s = Ok s' -> heuristic s' = heuristic s.
Proof.
  apply (recombination_loop_inv (fun s1 => heuristic s1 = heuristic s)); [|reflexivity].
  intros j s1 s2 H1 H. apply recombination_spec in H as (_ & -> & _). exact H1.
Qed.

Lemma rothberg_run_well_formed n h p c :
  rothberg_for n h ->
  pool_for n p ->
  rothberg_call_for n (Rothberg.binary_variables_ h) c ->
  Rothberg.num_recombinations_ h <> 0%Z ->
  exists s,
    Rothberg.run h p c = Ok s
    /\ rothberg_for n (heuristic s)
    /\ pool_for n (pool s)
    /\ Rothberg.binary_variables_ (heuristic s) ≡ₚ Rothberg.binary_variables_ h
    /\ Rothberg.num_recombinations_ (heuristic s) = Rothberg.num_recombinations_ h
    /\ length (incumbent_solution s) = n.
Proof.
  intros (Hv & Hcount & Hrange) Hpool Hcall Hn.
  assert (Hs0 : search_for n (Rothberg.binary_variables_ h)
                  (mkSearch h p (Rothberg.getIncumbentObjValue c)
                     (Rothberg.cplex_getValues c) [])).
  { split; [reflexivity|]. split; [exact Hrange|]. split; [exact Hpool | apply Hcall]. }
  unfold Rothberg.run.
  assert (H1 : exists s1,
             Rothberg.mutation_phase c
               (mkSearch h p (Rothberg.getIncumbentObjValue c) (Rothberg.cplex_getValues c) [])
             = Ok s1
             /\ search_for n (Rothberg.binary_variables_ h) s1).
  { unfold Rothberg.mutation_phase. cbn [pool heuristic].
    destruct (1 <=? SolutionPool.size p)%nat eqn:E; [|eauto].
    apply Nat.leb_le in E.
    destruct (mutation_loop_defined n _ Hv Hcount c (Z.to_nat (Rothberg.num_mutations_ h)) 0
                _ Hs0 E Hcall) as (s1 & -> & (G1 & G2 & G3 & G4) & _).
    cbn [bind]. eexists. split; [reflexivity|].
    split; [exact G1|]. split; [|split; assumption].
    eapply rothberg_step_in_range; [apply step_update_offset | exact G2]. }
  destruct H1 as (s1 & Hm & Hs1). rewrite Hm. cbn [bind].
  apply mutation_phase_recombinations in Hm. cbn [heuristic] in Hm.
  assert (H2 : exists s2,
             Rothberg.recombination_phase c s1 = Ok s2
             /\ search_for n (Rothberg.binary_variables_ h) s2
             /\ Rothberg.num_recombinations_ (heuristic s2) = Rothberg.num_recombinations_ h).
  { unfold Rothberg.recombination_phase.
    destruct (2 <=? SolutionPool.size (pool s1))%nat eqn:E; [|eauto].
    apply Nat.leb_le in E. rewrite Hm. unfold umod.
    destruct (Z.eqb_spec (Rothberg.num_recombinations_ h) 0); [contradiction|].
    cbn [bind].
    destruct (recombination_loop_defined n _ Hv c
                (Rothberg.random_consider_all c mod Rothberg.num_recombinations_ h)%Z
                (Z.to_nat (Rothberg.num_recombinations_ h)) 0 s1 Hs1 E Hcall)
      as (s2 & Hloop & Hs2).
    rewrite Hloop. exists s2. split; [reflexivity|]. split; [exact Hs2|].
    apply recombination_loop_heuristic in Hloop. now rewrite Hloop. }
  destruct H2 as (s2 & -> & (G1 & G2 & G3 & G4) & Hn2). cbn [bind].
  eexists. split; [reflexivity|].
  cbn [heuristic pool incumbent_solution with_actions].
  split; [|split; [exact G3|split; [exact G1|split; [exact Hn2 | exact G4]]]].
  split; [|split; [|exact G2]].
  - rewrite G1. exact Hv.
  - rewrite G1. exact Hcount.
Qed.

(** X19.  On a well-formed problem (stored and returned solutions of one
    dimension, finite values, binary variables within that dimension,
    parameters in range, shuffles that permute) and with a number of
    recombinations other than 0, [Rothberg::run] never leaves the defined
    behaviour, and what it ends with is well-formed again: the next call
    is defined too. *)
Theorem rothberg_run_stays_defined (n : nat) (h : Rothberg.t) (p : SolutionPool.t)
    (c : Rothberg.Call) :
  rothberg_for n h ->
  pool_for n p ->
  rothberg_call_for n (Rothberg.binary_variables_ h) c ->
  Rothberg.num_recombinations_ h <> 0%Z ->
  exists s,
    Rothberg.run h p c = Ok s
    /\ rothberg_for n (heuristic s)
    /\ pool_for n (pool s)
    /\ Rothberg.binary_variables_ (heuristic s) ≡ₚ Rothberg.binary_variables_ h
    /\ Rothberg.num_recombinations_ (heuristic s) = Rothberg.num_recombinations_ h
    /\ length (incumbent_solution s) = n.
Proof. apply rothberg_run_well_formed. Qed.

Lemma rothberg_run_stays_defined_witness :
  exists s,
    Rothberg.run (demo_rothberg 2) demo_pool demo_call = Ok s
    /\ rothberg_for 3 (heuristic s)
    /\ pool_for 3 (pool s)
    /\ Rothberg.binary_variables_ (heuristic s)
       ≡ₚ Rothberg.binary_variables_ (demo_rothberg 2)
    /\ Rothberg.num_recombinations_ (heuristic s)
       = Rothberg.num_recombinations_ (demo_rothberg 2)
    /\ length (incumbent_solution s) = 3%nat.
Proof.
  apply (rothberg_run_stays_defined 3 (demo_rothberg 2) demo_pool demo_call).
  - split; [|split].
    + vm_compute. repeat constructor.
    + vm_compute. congruence.
    + unfold rothberg_in_range. vm_compute. intuition congruence.
  - split; [|split].
    + unfold dimension. vm_compute. repeat constructor.
    + vm_compute. lia.
    + vm_compute. congruence.
  - split; [reflexivity|]. split.
    + intros i. split.
      * cbn. apply perm_swap.
      * intros Hsolve. discriminate.
    + intros i _. split; [reflexivity|]. unfold finite. vm_compute. intuition congruence.
  - vm_compute. congruence.
Defined.

Lemma maravilha_loop_well_formed n vars c k i s :
  Forall (fun index => (index < n)%nat) vars ->
  maravilha_call_for n c ->
  maravilha_search_for n vars s ->
  (1 <= SolutionPool.size (pool s))%nat ->
  exists s', Maravilha.loop c k i s = Ok s' /\ maravilha_search_for n vars s'.
Proof.
  intros Hv [_ Hanswers]. revert i s.
  induction k as [|k IH]; intros i s Hs H1; simpl; [eauto|].
  destruct (time_reached _ _ _); [eauto|].
  destruct (iteration_defined n _ c (Maravilha.iterations c i) s Hv Hs H1 (Hanswers i))
    as (s1 & Hit & Hs1).
  rewrite Hit. cbn [bind]. apply iteration_spec in Hit as (_ & Hmono & _).
  apply IH; [exact Hs1 | lia].
Qed.

(** X20.  On a well-formed problem [Maravilha::run] is defined, whichever
    variables its draws make free, and it ends with a pool and an
    incumbent of the problem's dimension and the same binary variables:
    the next call is defined too. *)
Theorem maravilha_run_stays_defined (n : nat) (h : Maravilha.t) (p : SolutionPool.t)
    (c : Maravilha.Call) :
  Forall (fun index => (index < n)%nat) (Maravilha.binary_variables_ h) ->
  pool_for n p ->
  maravilha_call_for n c ->
  exists s,
    Maravilha.run h p c = Ok s
    /\ Maravilha.binary_variables_ (heuristic s) = Maravilha.binary_variables_ h
    /\ pool_for n (pool s)
    /\ length (incumbent_solution s) = n.
Proof.
  intros Hv Hpool Hcall. unfold Maravilha.run.
  destruct (0 <? SolutionPool.size p)%nat eqn:E.
  - apply Nat.ltb_lt in E.
    destruct (maravilha_loop_well_formed n (Maravilha.binary_variables_ h) c
                (Z.to_nat (Maravilha.iterations_ h)) 0
                (mkSearch h p (Maravilha.getIncumbentObjValue c)
                   (Maravilha.getIncumbentValues c) []) Hv Hcall)
      as (s1 & -> & Hs1).
    + split; [reflexivity|]. split; [exact Hpool | apply Hcall].
    + exact E.
    + cbn [bind]. eexists. split; [reflexivity|]. exact Hs1.
  - eexists. split; [reflexivity|]. cbn [heuristic pool incumbent_solution].
    split; [reflexivity|]. split; [exact Hpool | apply Hcall].
Qed.

Lemma maravilha_run_stays_defined_witness :
  exists s,
    Maravilha.run demo_maravilha demo_pool demo_maravilha_call = Ok s
    /\ Maravilha.binary_variables_ (heuristic s) = Maravilha.binary_variables_ demo_maravilha
    /\ pool_for 3 (pool s)
    /\ length (incumbent_solution s) = 3%nat.
Proof.
  apply (maravilha_run_stays_defined 3 demo_maravilha demo_pool demo_maravilha_call).
  - vm_compute. repeat constructor.
  - split; [|split].
    + unfold dimension. vm_compute. repeat constructor.
    + vm_compute. lia.
    + vm_compute. congruence.
  - split; [reflexivity|]. intros [|i] Hsolve.
    + split; [reflexivity|]. unfold finite. vm_compute. intuition congruence.
    + discriminate.
Defined.

(** ** The sub-MIP of Maravilha's heuristic *)

Lemma set_erase_elem idx y s :
  y ∈ MaravilhaSubMIP.set_erase idx s <-> y ∈ s /\ y <> idx.
Proof.
  unfold MaravilhaSubMIP.set_erase. rewrite !list_elem_of_In, filter_In.
  rewrite negb_true_iff, Nat.eqb_neq. reflexivity.
Qed.

Lemma set_insert_elem x y s : y ∈ MaravilhaSubMIP.set_insert x s <-> y = x \/ y ∈ s.
Proof.
  induction s as [|z s IH]; simpl.
  - rewrite list_elem_of_singleton. split; [auto | intros [H|H]; [exact H | inversion H]].
  - destruct (Nat.ltb_spec x z); [rewrite !elem_of_cons; tauto|].
    destruct (Nat.eqb_spec x z) as [->|Hne].
    + rewrite !elem_of_cons. tauto.
    + rewrite !elem_of_cons, IH. tauto.
Qed.

Lemma set_of_elem y vars : y ∈ MaravilhaSubMIP.set_of vars <-> y ∈ vars.
Proof.
  unfold MaravilhaSubMIP.set_of.
  assert (H : forall acc, y ∈ fold_left (fun s x => MaravilhaSubMIP.set_insert x s) vars acc
                          <-> y ∈ vars \/ y ∈ acc).
  { induction vars as [|x vars IH]; intros acc; simpl.
    - split; [auto | intros [H|H]; [inversion H | exact H]].
    - rewrite IH, set_insert_elem, elem_of_cons. tauto. }
  rewrite H. split; [intros [?|Hn]; [assumption | inversion Hn] | auto].
Qed.

Lemma select_elem differences rand_value acc available idx :
  MaravilhaSubMIP.select differences rand_value acc available = Ok (Some idx) ->
  idx ∈ available.
Proof.
  revert acc. induction available as [|y available IH]; intros acc H; simpl in H.
  - discriminate.
  - apply bind_Ok in H as (d & _ & H). destruct (Qle_bool _ _).
    + injection H as ->. apply list_elem_of_here.
    + right. eapply IH, H.
Qed.

Lemma free_loop_spec differences draws count k sum available fr :
  MaravilhaSubMIP.free_loop differences draws count k sum available = Ok fr ->
  NoDup fr /\ (forall idx, idx ∈ fr -> idx ∈ available) /\ (length fr <= count)%nat.
Proof.
  revert k sum available fr.
  induction count as [|count IH]; intros k sum available fr H; simpl in H.
  - injection H as <-. split; [constructor|]. split; [intros idx Hin; inversion Hin | simpl; lia].
  - apply bind_Ok in H as (chosen & Hsel & H). destruct chosen as [idx|].
    + apply bind_Ok in H as (d & _ & H). apply bind_Ok in H as (rest & Hrest & H).
      injection H as <-. apply IH in Hrest as (Hnd & Hsub & Hlen).
      split; [|split].
      * constructor; [|exact Hnd]. intros Hin. apply Hsub, set_erase_elem in Hin. tauto.
      * intros y Hy. apply elem_of_cons in Hy as [-> | Hy].
        -- eapply select_elem, Hsel.
        -- apply Hsub, set_erase_elem in Hy. tauto.
      * simpl. lia.
    + apply IH in H as (Hnd & Hsub & Hlen). split; [exact Hnd|]. split; [exact Hsub | lia].
Qed.

(** X21.  Whatever is drawn, the variables a build makes free are binary
    variables of the problem, each made free once, and no more of them
    than the sub-MIP size computed at lines 114-115. *)
Theorem freed_are_distinct_binaries (h : Maravilha.t) (n : nat)
    (b : MaravilhaSubMIP.Build) (fr : list nat) :
  MaravilhaSubMIP.freed h n b = Ok fr ->
  NoDup fr
  /\ (forall idx, idx ∈ fr -> idx ∈ Maravilha.binary_variables_ h)
  /\ exists size, MaravilhaSubMIP.submip_size h = Ok size /\ (length fr <= size)%nat.
Proof.
  unfold MaravilhaSubMIP.freed. intros H.
  apply bind_Ok in H as (ds & _ & H). apply bind_Ok in H as (size & Hsize & H).
  destruct (MaravilhaSubMIP.bias _ _).
  - apply free_loop_spec in H as (Hnd & Hsub & Hlen).
    split; [exact Hnd|]. split.
    + intros idx Hin. now apply set_of_elem, Hsub.
    + now exists size.
  - injection H as <-. split; [constructor|]. split; [intros idx Hin; inversion Hin|].
    exists size. split; [exact Hsize | simpl; lia].
Qed.

Lemma freed_are_distinct_binaries_witness :
  NoDup demo_freed
  /\ (forall idx, idx ∈ demo_freed -> idx ∈ Maravilha.binary_variables_ demo_maravilha)
  /\ exists size, MaravilhaSubMIP.submip_size demo_maravilha = Ok size
                  /\ (length demo_freed <= size)%nat.
Proof.
  apply (freed_are_distinct_binaries demo_maravilha 3 demo_build demo_freed).
  vm_compute. reflexivity.
Defined.

Lemma clamp_full x :
  1 <= x -> 1 - std_max 0 (std_min 1 x) == 0.
Proof.
  intros Hx.
  destruct (std_min_spec 1 x) as (A & B & E).
  destruct (std_max_spec 0 (std_min 1 x)) as (C & D & F).
  destruct F as [F|F]; rewrite F in *; destruct E as [E|E]; rewrite E in *; lra.
Qed.

Lemma clamp_range x : 0 <= 1 - std_max 0 (std_min 1 x) <= 1.
Proof.
  destruct (std_min_spec 1 x) as (A & B & E).
  destruct (std_max_spec 0 (std_min 1 x)) as (C & D & F).
  destruct F as [F|F]; rewrite F in *; lra.
Qed.

Lemma gap_full a b :
  b + (Binary64.d1e_5 + Qabs b) <= a -> 1 <= (a - b) / (Binary64.d1e_5 + Qabs b).
Proof.
  intros H. pose proof (Qabs_nonneg b) as Hb. unfold Binary64.d1e_5 in *.
  apply Qle_shift_div_l; lra.
Qed.

(** X22.  When the objective of the pool entry exceeds the incumbent's by
    100 % or more, and the incumbent's exceeds the relaxation's by 100 % or
    more, both biases are 0, their quotient is 0.0 / 0.0, and the build
    makes no variable free: the sub-MIP is the incumbent itself. *)
Theorem full_gaps_free_nothing (h : Maravilha.t) (n : nat) (b : MaravilhaSubMIP.Build)
    (fr : list nat) :
  MaravilhaSubMIP.incumbent_objective b
  + (Binary64.d1e_5 + Qabs (MaravilhaSubMIP.incumbent_objective b))
  <= SolutionPool.value (MaravilhaSubMIP.entry b) ->
  MaravilhaSubMIP.relaxed_objective b
  + (Binary64.d1e_5 + Qabs (MaravilhaSubMIP.relaxed_objective b))
  <= MaravilhaSubMIP.incumbent_objective b ->
  MaravilhaSubMIP.freed h n b = Ok fr ->
  fr = [].
Proof.
  intros Hf Hr. unfold MaravilhaSubMIP.freed.
  assert (Hbias : MaravilhaSubMIP.bias
                    (MaravilhaSubMIP.feas_bias (SolutionPool.value (MaravilhaSubMIP.entry b))
                       (MaravilhaSubMIP.incumbent_objective b))
                    (MaravilhaSubMIP.rel_bias (MaravilhaSubMIP.incumbent_objective b)
                       (MaravilhaSubMIP.relaxed_objective b)) = None).
  { unfold MaravilhaSubMIP.bias, MaravilhaSubMIP.feas_bias, MaravilhaSubMIP.rel_bias.
    pose proof (clamp_full _ (gap_full _ _ Hf)) as H1.
    pose proof (clamp_full _ (gap_full _ _ Hr)) as H2.
    assert (H0 : Qeq_bool
                   (1 - std_max 0 (std_min 1
                      ((SolutionPool.value (MaravilhaSubMIP.entry b)
                        - MaravilhaSubMIP.incumbent_objective b)
                       / (Binary64.d1e_5 + Qabs (MaravilhaSubMIP.incumbent_objective b))))
                    + (1 - std_max 0 (std_min 1
                         ((MaravilhaSubMIP.incumbent_objective b
                           - MaravilhaSubMIP.relaxed_objective b)
                          / (Binary64.d1e_5 + Qabs (MaravilhaSubMIP.relaxed_objective b))))))
                   0 = true).
    { apply Qeq_bool_iff. rewrite H1, H2. reflexivity. }
    now rewrite H0. }
  rewrite Hbias. intros H.
  apply bind_Ok in H as (ds & _ & H). apply bind_Ok in H as (size & _ & H).
  now injection H as <-.
Qed.

Lemma full_gaps_free_nothing_witness :
  the [0%nat] (MaravilhaSubMIP.freed demo_maravilha 3 demo_build_far) = [].
Proof.
  apply (full_gaps_free_nothing demo_maravilha 3 demo_build_far).
  - vm_compute. congruence.
  - vm_compute. congruence.
  - vm_compute. reflexivity.
Defined.

(** X23.  Otherwise the bias is a number between 0 and 1, so that every
    biased difference is a weighted mean of two distances: the bias is
    not a number exactly when both [feas_bias] and [rel_bias] are 0. *)
Theorem bias_in_range (entry_value incumbent_objective relaxed_objective : IloNum) :
  let feas := MaravilhaSubMIP.feas_bias entry_value incumbent_objective in
  let rel := MaravilhaSubMIP.rel_bias incumbent_objective relaxed_objective in
  (0 <= feas <= 1) /\ (0 <= rel <= 1)
  /\ (MaravilhaSubMIP.bias feas rel = None <-> feas == 0 /\ rel == 0)
  /\ (forall bias, MaravilhaSubMIP.bias feas rel = Some bias -> 0 <= bias <= 1).
Proof.
  intros feas rel.
  assert (Hf : 0 <= feas <= 1) by apply clamp_range.
  assert (Hr : 0 <= rel <= 1) by apply clamp_range.
  split; [exact Hf|]. split; [exact Hr|].
  unfold MaravilhaSubMIP.bias. destruct (Qeq_bool (feas + rel) 0) eqn:E.
  - apply Qeq_bool_iff in E. split.
    + split; [intros _; split; lra | reflexivity].
    + discriminate.
  - apply Qeq_bool_neq in E. split.
    + split; [discriminate | intros [H1 H2]; exfalso; apply E; lra].
    + intros bias H. injection H as <-.
      assert (Hpos : 0 < feas + rel) by lra.
      assert (Hq : 0 <= feas / (feas + rel) <= 1).
      { split.
        - apply Qle_shift_div_l; lra.
        - apply Qle_shift_div_r; lra. }
      lra.
Qed.

Lemma biased_differences_defined n bias incumbent entry relaxed vars differences sum :
  Forall (fun idx => (idx < n)%nat) vars ->
  length incumbent = n -> length entry = n -> length relaxed = n ->
  length differences = n ->
  exists differences' sum',
    MaravilhaSubMIP.biased_differences bias incumbent entry relaxed vars differences sum
    = Ok (differences', sum')
    /\ length differences' = n.
Proof.
  intros Hvars Hi He Hr. revert differences sum.
  induction Hvars as [|idx vars Hidx _ IH]; intros differences sum Hd; simpl.
  - eauto.
  - destruct (at_index_defined incumbent idx) as (x & -> & _); [lia|]. cbn [bind].
    destruct (at_index_defined entry idx) as (e & -> & _); [lia|]. cbn [bind].
    destruct (at_index_defined relaxed idx) as (r & -> & _); [lia|]. cbn [bind].
    destruct (at_index_defined differences idx) as (d & -> & _); [lia|]. cbn [bind].
    apply IH. now rewrite length_insert.
Qed.

Lemma select_defined differences rand_value acc available :
  Forall (fun idx => (idx < length differences)%nat) available ->
  exists chosen, MaravilhaSubMIP.select differences rand_value acc available = Ok chosen.
Proof.
  intros Hav. revert acc. induction Hav as [|idx available Hidx _ IH]; intros acc; simpl.
  - eauto.
  - destruct (at_index_defined differences idx Hidx) as (d & -> & _). cbn [bind].
    destruct (Qle_bool _ _); eauto.
Qed.

Lemma free_loop_defined differences draws count k sum available :
  Forall (fun idx => (idx < length differences)%nat) available ->
  exists fr, MaravilhaSubMIP.free_loop differences draws count k sum available = Ok fr.
Proof.
  revert k sum available. induction count as [|count IH]; intros k sum available Hav; simpl.
  - eauto.
  - destruct (select_defined differences
                (inject_Z (draws k) / inject_Z MaravilhaSubMIP.RANDOM_MAX * sum) 0 available Hav)
      as (chosen & Hsel).
    rewrite Hsel. cbn [bind]. destruct chosen as [idx|]; [|now apply IH].
    apply select_elem in Hsel. rewrite Forall_forall in Hav.
    destruct (at_index_defined differences idx (Hav idx Hsel)) as (d & -> & _). cbn [bind].
    destruct (IH (S k) (sum - d) (MaravilhaSubMIP.set_erase idx available)) as (rest & ->).
    + apply Forall_forall. intros y Hy. apply set_erase_elem in Hy as [Hy _]. now apply Hav.
    + cbn [bind]. eauto.
Qed.

Lemma submip_size_range h :
  maravilha_in_range h ->
  (Z.of_nat (length (Maravilha.binary_variables_ h)) <= ULLONG_MAX)%Z ->
  exists size,
    MaravilhaSubMIP.submip_size h = Ok size
    /\ (1 <= size <= Nat.max 1 (length (Maravilha.binary_variables_ h)))%nat.
Proof.
  intros (Hmin & Hle & Hmax & _) Hlen. unfold MaravilhaSubMIP.submip_size.
  set (L := Z.of_nat (length (Maravilha.binary_variables_ h))) in *.
  set (x := std_max 1 (inject_Z L * ((Maravilha.submip_min_ h + Maravilha.submip_max_ h) / 2))).
  assert (HL : 0 <= inject_Z L).
  { change 0 with (inject_Z 0). rewrite <- Zle_Qle. unfold L. lia. }
  assert (Hmid : 0 <= (Maravilha.submip_min_ h + Maravilha.submip_max_ h) / 2 <= 1).
  { split; [apply Qle_shift_div_l | apply Qle_shift_div_r]; lra. }
  assert (Hx : 1 <= x <= inject_Z (Z.max 1 L)).
  { unfold x.
    destruct (std_max_spec 1
                (inject_Z L * ((Maravilha.submip_min_ h + Maravilha.submip_max_ h) / 2)))
      as (A & B & E).
    split; [exact A|].
    destruct E as [E|E]; rewrite E.
    - change 1 with (inject_Z 1). rewrite <- Zle_Qle. lia.
    - apply Qle_trans with (inject_Z L); [nra|]. rewrite <- Zle_Qle. lia. }
  assert (Hfloor : (1 <= Qfloor x <= Z.max 1 L)%Z).
  { split.
    - change 1%Z with (Qfloor 1). apply Qfloor_resp_le, Hx.
    - rewrite <- (Qfloor_Z (Z.max 1 L)). apply Qfloor_resp_le, Hx. }
  unfold to_size_t.
  destruct (Z.ltb_spec (Qfloor x) 0); [lia|].
  destruct (Z.ltb_spec ULLONG_MAX (Qfloor x)).
  { exfalso. unfold ULLONG_MAX in *. lia. }
  cbn [orb]. eexists. split; [reflexivity|]. unfold L in Hfloor. lia.
Qed.

(** X24.  With a window inside [0, 1] and binary variables within the
    problem's dimension, a build is defined: no vector is read or written
    past its end, the sub-MIP size converts, and it lies between 1 and the
    number of binary variables (1 when there is none). *)
Theorem build_stays_defined (h : Maravilha.t) (n : nat) (b : MaravilhaSubMIP.Build) :
  maravilha_in_range h ->
  Forall (fun idx => (idx < n)%nat) (Maravilha.binary_variables_ h) ->
  (Z.of_nat (length (Maravilha.binary_variables_ h)) <= ULLONG_MAX)%Z ->
  build_for n b ->
  exists fr size,
    MaravilhaSubMIP.freed h n b = Ok fr
    /\ MaravilhaSubMIP.submip_size h = Ok size
    /\ (1 <= size <= Nat.max 1 (length (Maravilha.binary_variables_ h)))%nat.
Proof.
  intros Hrange Hvars Hlen (Hi & He & Hr). unfold MaravilhaSubMIP.freed.
  destruct (submip_size_range h Hrange Hlen) as (size & Hsize & Hbounds).
  match goal with
  | |- context [MaravilhaSubMIP.biased_differences ?bias ?i ?e ?r ?v ?d ?s] =>
      destruct (biased_differences_defined n bias i e r v d s) as (ds & sum & Hds & Hdlen);
        [exact Hvars | exact Hi | exact He | exact Hr | apply length_replicate |]
  end.
  rewrite Hds, Hsize. cbn [bind fst snd].
  destruct (MaravilhaSubMIP.bias _ _).
  - destruct (free_loop_defined ds (MaravilhaSubMIP.draws b) size 0 sum
                (MaravilhaSubMIP.set_of (Maravilha.binary_variables_ h))) as (fr & ->).
    + apply Forall_forall. intros idx Hidx. apply (proj1 (set_of_elem _ _)) in Hidx.
      rewrite Forall_forall in Hvars. rewrite Hdlen. apply Hvars, Hidx.
    + eauto.
  - eauto.
Qed.

Lemma build_stays_defined_witness :
  exists fr size,
    MaravilhaSubMIP.freed demo_maravilha 3 demo_build = Ok fr
    /\ MaravilhaSubMIP.submip_size demo_maravilha = Ok size
    /\ (1 <= size <= Nat.max 1 (length (Maravilha.binary_variables_ demo_maravilha)))%nat.
Proof.
  apply (build_stays_defined demo_maravilha 3 demo_build).
  - unfold maravilha_in_range. vm_compute. intuition congruence.
  - vm_compute. repeat constructor.
  - vm_compute. congruence.
  - repeat split.
Defined.

(** ** The parameters: cxxproperties *)

Lemma contains_true p key : Properties.contains p key = true <-> is_Some (p !! key).
Proof. unfold Properties.contains. apply bool_decide_eq_true. Qed.

Lemma contains_false p key : Properties.contains p key = false <-> p !! key = None.
Proof.
  unfold Properties.contains. rewrite bool_decide_eq_false. split.
  - intros Hn. destruct (p !! key) eqn:E; [|reflexivity]. exfalso. apply Hn. eauto.
  - intros -> [x Hx]. discriminate.
Qed.

Section Properties_laws.
Context {T : Type} `{Streamed T}.

(** X25.  A property that was added is read back: where the type's stream
  operators read back what they write, [get] and the [get] with a
  default return the value last added under the key, whatever the
  default; adding leaves the other keys as they are, and the number of
  properties grows by one exactly when the key is new. *)
Theorem added_property_is_read_back (p : Properties.t) (key : string)
  (value default_value : T) :
extracted (inserted value) = value ->
Properties.get (Properties.add p key value) key = Returned value
/\ Properties.get_or (Properties.add p key value) key default_value = Returned value
/\ (forall earlier : T,
      Properties.add (Properties.add p key earlier) key value = Properties.add p key value)
/\ (forall key', key' <> key ->
      Properties.get (T := T) (Properties.add p key value) key'
      = Properties.get p key'
      /\ Properties.contains (Properties.add p key value) key' = Properties.contains p key')
/\ Properties.size (Properties.add p key value)
   = (if Properties.contains p key then Properties.size p else S (Properties.size p)).
Proof.
intros Hround.
assert (Hget : Properties.get (Properties.add p key value) key = Returned value).
{ unfold Properties.get, Properties.add, Properties.t in *. rewrite lookup_insert_eq. now rewrite Hround. }
split; [exact Hget|]. split; [|split; [|split]].
- unfold Properties.get_or.
  replace (Properties.contains (Properties.add p key value) key) with true; [exact Hget|].
  symmetry. apply contains_true. unfold Properties.add, Properties.t in *. rewrite lookup_insert_eq. eauto.
- intros earlier. unfold Properties.add, Properties.t in *. apply insert_insert_eq.
- intros key' Hne. unfold Properties.get, Properties.contains, Properties.add, Properties.t in *.
  now rewrite lookup_insert_ne by congruence.
- unfold Properties.size, Properties.add, Properties.t in *.
  destruct (Properties.contains p key) eqn:E.
  + apply contains_true in E. unfold Properties.t in *.
    now apply map_size_insert_Some.
  + apply contains_false in E. unfold Properties.t in *.
    now apply map_size_insert_None.
Qed.

(** X26.  A property that is missing: [get] throws [std::out_of_range]
  exactly for the keys [contains] denies, the [get] with a default never
  throws and returns the default for them, [remove] makes a key missing
  and leaves the others alone, and [get_keys] holds the keys [contains]
  confirms. *)
Theorem missing_property (p : Properties.t) (key : string) (default_value : T) :
(Properties.get (T := T) p key = out_of_range <-> Properties.contains p key = false)
/\ (Properties.contains p key = false ->
    Properties.get_or p key default_value = Returned default_value)
/\ (exists value, Properties.get_or p key default_value = Returned value)
/\ Properties.get (T := T) (Properties.remove p key) key = out_of_range
/\ Properties.get_or (Properties.remove p key) key default_value = Returned default_value
/\ (forall key', key' <> key ->
      Properties.get (T := T) (Properties.remove p key) key' = Properties.get p key')
/\ Properties.get (T := T) Properties.new key = out_of_range
/\ (key ∈ Properties.get_keys p <-> Properties.contains p key = true).
Proof.
assert (Hiff : Properties.get (T := T) p key = out_of_range
               <-> Properties.contains p key = false).
{ rewrite contains_false. unfold Properties.get.
  destruct (p !! key); split; congruence. }
assert (Hremoved : Properties.remove p key !! key = None).
{ unfold Properties.remove, Properties.t in *. apply lookup_delete_eq. }
split; [exact Hiff|]. split; [|split; [|split; [|split; [|split; [|split]]]]].
- intros Hc. unfold Properties.get_or. now rewrite Hc.
- unfold Properties.get_or, Properties.get.
  destruct (Properties.contains p key) eqn:E; [|eauto].
  apply contains_true in E as [s ->]. eauto.
- unfold Properties.get. now rewrite Hremoved.
- unfold Properties.get_or.
  apply contains_false in Hremoved. now rewrite Hremoved.
- intros key' Hne. unfold Properties.get, Properties.remove, Properties.t in *.
  now rewrite lookup_delete_ne by congruence.
- reflexivity.
- unfold Properties.get_keys. rewrite contains_true. apply elem_of_dom.
Qed.

End Properties_laws.

Lemma added_property_is_read_back_witness :
  Properties.get (Properties.add Properties.new "seed" "7") "seed" = Returned "7"
  /\ Properties.get_or (Properties.add Properties.new "seed" "7") "seed" "0" = Returned "7".
Proof.
  destruct (added_property_is_read_back Properties.new "seed" "7" "0") as (H1 & H2 & _).
  - reflexivity.
  - split; [exact H1 | exact H2].
Defined.

(** ** The pool under the heuristics and the callbacks *)

Lemma harvest_pool {H : Type} sense r (s s' : Search H) b :
  harvest sense r s = Ok (s', b) ->
  pool s' = pool s
  \/ exists flag,
       solve r = true
       /\ SolutionPool.add_entry (pool s) (getValues r) (getObjValue r) = Ok (flag, pool s').
Proof.
  unfold harvest. destruct (solve r); [|intros H0; injection H0 as <- <-; now left].
  intros H0. apply bind_Ok in H0 as ([flag p'] & Hadd & H0). right. exists flag.
  split; [reflexivity|]. cbn [snd] in H0.
  destruct (improves _ _ _).
  - apply bind_Ok in H0 as (cells & _ & H0). injection H0 as <- <-. exact Hadd.
  - injection H0 as <- <-. exact Hadd.
Qed.

Lemma mutation_pool c m s s' :
  Rothberg.mutation c m s = Ok s' ->
  pool s' = pool s
  \/ exists flag,
       solve (Rothberg.m_submip m) = true
       /\ SolutionPool.add_entry (pool s) (getValues (Rothberg.m_submip m))
            (getObjValue (Rothberg.m_submip m)) = Ok (flag, pool s').
Proof.
  unfold Rothberg.mutation. intros H.
  apply bind_Ok in H as (idx0 & _ & H). apply bind_Ok in H as (idx & _ & H).
  apply bind_Ok in H as (entry & _ & H). apply bind_Ok in H as (count & _ & H).
  apply bind_Ok in H as (bounds & _ & H). apply bind_Ok in H as ([s2 b] & Hh & H).
  injection H as <-. apply harvest_pool in Hh. exact Hh.
Qed.

Lemma recombination_pool c consider_all i r s s' :
  Rothberg.recombination c consider_all i r s = Ok s' ->
  pool s' = pool s
  \/ exists flag,
       solve (Rothberg.r_submip r) = true
       /\ SolutionPool.add_entry (pool s) (getValues (Rothberg.r_submip r))
            (getObjValue (Rothberg.r_submip r)) = Ok (flag, pool s').
Proof.
  unfold Rothberg.recombination. intros H.
  apply bind_Ok in H as (b & _ & H). apply bind_Ok in H as ([s2 flag] & Hh & H).
  injection H as <-. apply harvest_pool in Hh. exact Hh.
Qed.

Lemma iteration_pool c it s s' :
  Maravilha.iteration c it s = Ok s' ->
  pool s' = pool s
  \/ exists flag,
       solve (Maravilha.i_submip it) = true
       /\ SolutionPool.add_entry (pool s) (getValues (Maravilha.i_submip it))
            (getObjValue (Maravilha.i_submip it)) = Ok (flag, pool s').
Proof.
  unfold Maravilha.iteration. intros H.
  apply bind_Ok in H as (idx & _ & H). apply bind_Ok in H as (entry & _ & H).
  apply bind_Ok in H as (fixed & _ & H). apply bind_Ok in H as ([s2 b] & Hh & H).
  injection H as <-. apply harvest_pool in Hh. exact Hh.
Qed.

Lemma rothberg_run_pool_steps h p c s :
  Rothberg.run h p c = Ok s -> rtc (pool_step (offered_by_rothberg c)) p (pool s).
Proof.
  apply (rothberg_run_inv_last
           (fun s => rtc (pool_step (offered_by_rothberg c)) p (pool s))).
  - intros i s1 s2 Hrtc H. apply mutation_pool in H as [-> | (flag & Hsolve & Hadd)];
      [exact Hrtc|].
    eapply rtc_r; [exact Hrtc|]. eexists _, _, flag. split; [|exact Hadd].
    exists i. left. now split.
  - intros ca i s1 s2 Hrtc H.
    apply recombination_pool in H as [-> | (flag & Hsolve & Hadd)]; [exact Hrtc|].
    eapply rtc_r; [exact Hrtc|]. eexists _, _, flag. split; [|exact Hadd].
    exists i. right. now split.
  - intros s1 Hrtc. exact Hrtc.
  - intros s1 Hrtc. exact Hrtc.
  - apply rtc_refl.
Qed.

Lemma maravilha_run_pool_steps h p c s :
  Maravilha.run h p c = Ok s -> rtc (pool_step (offered_by_maravilha c)) p (pool s).
Proof.
  apply (maravilha_run_inv_last
           (fun s => rtc (pool_step (offered_by_maravilha c)) p (pool s))).
  - intros i s1 s2 Hrtc H. apply iteration_pool in H as [-> | (flag & Hsolve & Hadd)];
      [exact Hrtc|].
    eapply rtc_r; [exact Hrtc|]. eexists _, _, flag. split; [|exact Hadd].
    exists i. now split.
  - intros s1 Hrtc. exact Hrtc.
  - apply rtc_refl.
Qed.

(** X27.  A run changes the pool through [add_entry] only, and offers it
    nothing but the solutions its own sub-MIPs returned: the pool it ends
    with is reached from the pool it started with by such calls. *)
Theorem runs_change_pool_by_add_entry :
  (forall h p c s,
      Rothberg.run h p c = Ok s ->
      rtc (pool_step (offered_by_rothberg c)) p (pool s))
  /\ (forall h p c s,
        Maravilha.run h p c = Ok s ->
        rtc (pool_step (offered_by_maravilha c)) p (pool s)).
Proof. split; [apply rothberg_run_pool_steps | apply maravilha_run_pool_steps]. Qed.

Lemma runs_change_pool_by_add_entry_witness :
  rtc (pool_step (offered_by_rothberg demo_call)) demo_pool (pool demo_result)
  /\ rtc (pool_step (offered_by_maravilha demo_maravilha_call)) demo_pool
       (pool demo_maravilha_result).
Proof.
  destruct runs_change_pool_by_add_entry as [HR HM]. split.
  - apply (HR (demo_rothberg 2) demo_pool demo_call demo_result). vm_compute. reflexivity.
  - apply (HM demo_maravilha demo_pool demo_maravilha_call demo_maravilha_result).
    vm_compute. reflexivity.
Defined.

Lemma add_entry_dimension p solution value b p' :
  dimension (length solution) (SolutionPool.entries_ p) ->
  SolutionPool.add_entry p solution value = Ok (b, p') ->
  dimension (length solution) (SolutionPool.entries_ p').
Proof.
  intros Hdim H.
  apply add_entry_anatomy in H as [[_ ->] | (_ & _ & es & -> & Hes)]; [exact Hdim|].
  cbn [SolutionPool.entries_]. unfold dimension.
  rewrite <- (sorted_perm (SolutionPool.sorted_ p)).
  destruct Hes as [[_ ->] | (_ & i & old & cells & Hold & Hcells & ->)].
  - apply Forall_app. split; [exact Hdim | now constructor].
  - assert (Hl : length (SolutionPool.solution old) = length solution).
    { unfold dimension in Hdim. rewrite Forall_forall in Hdim.
      apply Hdim. eapply list_elem_of_lookup_2, Hold. }
    rewrite (overwrite_same_length _ _ Hl) in Hcells. injection Hcells as <-.
    apply Forall_insert; [exact Hdim | reflexivity].
Qed.

Lemma pool_steps_without_repetitions n offered p p' :
  (forall solution value, offered solution value -> length solution = n) ->
  rtc (pool_step offered) p p' ->
  dimension n (SolutionPool.entries_ p) ->
  without_repetitions (SolutionPool.entries_ p) ->
  dimension n (SolutionPool.entries_ p') /\ without_repetitions (SolutionPool.entries_ p').
Proof.
  intros Hoff. induction 1 as [p | p p1 p' (solution & value & b & Hok & Hadd) _ IH];
    intros Hdim Hrep; [now split|].
  apply Hoff in Hok. subst n. apply IH.
  - eapply add_entry_dimension; eassumption.
  - eapply add_entry_without_repetitions; eassumption.
Qed.

(** ** The heuristic callback *)

(** X28.  When the heuristic is run.  With no heuristic or a frequency of
    0 never, and without a division by zero; with a frequency between 1
    and [LONG_MAX] at the nodes whose count it divides, the root included;
    and with a negative [long] given as frequency, which the conversion
    turns into a value above every node count, at the root only.  Where
    it is not run, [main] leaves callback and pool as they are. *)
Theorem heuristic_run_at_multiples_of_frequency (H : Type) `{Heuristic H}
    (heuristic : option H) (frequency : Z) (timer : bool) (time_limit : Q) (Nnodes64 : Z) :
  (0 <= Nnodes64 <= LONG_MAX)%Z ->
  let cb := HeuristicCallback.create_instance heuristic frequency timer time_limit in
  (frequency = 0%Z \/ heuristic = None -> HeuristicCallback.fires cb Nnodes64 = false)
  /\ (is_Some heuristic -> (0 < frequency <= LONG_MAX)%Z ->
      (HeuristicCallback.fires cb Nnodes64 = true <-> (frequency | Nnodes64)%Z))
  /\ (is_Some heuristic -> (- LONG_MAX - 1 <= frequency < 0)%Z ->
      (HeuristicCallback.fires cb Nnodes64 = true <-> Nnodes64 = 0%Z))
  /\ (forall pool_ reads,
        HeuristicCallback.fires cb Nnodes64 = false ->
        HeuristicCallback.main cb pool_ Nnodes64 reads = Ok (cb, pool_, [])).
Proof.
  intros Hn cb. unfold LONG_MAX in *.
  assert (Hnodes : to_ull Nnodes64 = Nnodes64).
  { unfold to_ull. apply Z.mod_small. lia. }
  unfold HeuristicCallback.fires, cb, HeuristicCallback.create_instance.
  cbn [HeuristicCallback.frequency_ HeuristicCallback.heuristic_]. rewrite Hnodes.
  split; [|split; [|split]].
  - intros [-> | ->].
    + reflexivity.
    + rewrite bool_decide_eq_false_2 by (intros [x Hx]; discriminate).
      now rewrite andb_false_r.
  - intros Hsome Hf.
    assert (Hull : to_ull frequency = frequency).
    { unfold to_ull. apply Z.mod_small. lia. }
    rewrite Hull, bool_decide_eq_true_2 by exact Hsome.
    destruct (Z.ltb_spec 0 frequency); [|lia]. cbn [andb].
    rewrite Z.eqb_eq. apply Z.mod_divide. lia.
  - intros Hsome Hf.
    assert (Hull : to_ull frequency = (frequency + 2 ^ 64)%Z).
    { unfold to_ull. symmetry. apply (Z.mod_unique _ _ (-1)); lia. }
    rewrite Hull, bool_decide_eq_true_2 by exact Hsome.
    destruct (Z.ltb_spec 0 (frequency + 2 ^ 64)); [|lia]. cbn [andb].
    rewrite Z.mod_small by lia. apply Z.eqb_eq.
  - intros pool_ reads Hfires. unfold HeuristicCallback.main.
    cbn [HeuristicCallback.heuristic_]. destruct heuristic as [h|]; [|reflexivity].
    unfold HeuristicCallback.fires.
    cbn [HeuristicCallback.frequency_ HeuristicCallback.heuristic_].
    rewrite Hnodes. now rewrite Hfires.
Qed.

Lemma heuristic_run_at_multiples_of_frequency_witness :
  let cb := HeuristicCallback.create_instance (Some (demo_rothberg 2)) (-1) false 0 in
  (is_Some (Some (demo_rothberg 2)) -> (- LONG_MAX - 1 <= -1 < 0)%Z ->
   (HeuristicCallback.fires cb 100 = true <-> 100%Z = 0%Z))
  /\ (forall pool_ reads,
        HeuristicCallback.fires cb 100 = false ->
        HeuristicCallback.main cb pool_ 100 reads = Ok (cb, pool_, [])).
Proof.
  destruct (heuristic_run_at_multiples_of_frequency Rothberg.t
              (Some (demo_rothberg 2)) (-1) false 0 100) as (_ & _ & H3 & H4).
  - vm_compute. split; congruence.
  - split; [exact H3 | exact H4].
Defined.

(** ** The two callbacks on one pool *)

Lemma pool_callback_defined n p getObjValue getValues :
  pool_for n p -> without_repetitions (SolutionPool.entries_ p) ->
  length getValues = n -> finite getObjValue ->
  exists p',
    PoolCallback.main p getObjValue getValues = Ok p'
    /\ pool_for n p' /\ without_repetitions (SolutionPool.entries_ p')
    /\ SolutionPool.max_size_ p' = SolutionPool.max_size_ p.
Proof.
  intros (Hdim & Hsize & Hmax) Hrep Hlen Hfin. subst n. unfold PoolCallback.main.
  destruct (add_entry_defined p getValues getObjValue Hdim Hfin) as (b & p' & Hadd & Hdim').
  rewrite Hadd. cbn [bind snd]. exists p'. split; [reflexivity|].
  pose proof (add_entry_size _ _ _ _ _ Hadd) as (Hm & _ & _ & Hs).
  split; [|split; [|exact Hm]].
  - split; [exact Hdim'|]. unfold SolutionPool.size in *. rewrite Hm. split; [lia | exact Hmax].
  - exact (add_entry_without_repetitions _ _ _ _ _ Hdim Hrep Hadd).
Qed.

Lemma pool_steps_max_size offered p p' :
  rtc (pool_step offered) p p' -> SolutionPool.max_size_ p' = SolutionPool.max_size_ p.
Proof.
  induction 1 as [p | p p1 p' (solution & value & b & _ & Hadd) _ IH]; [reflexivity|].
  apply add_entry_size in Hadd as (Hm & _). congruence.
Qed.

Lemma rothberg_call_for_perm n vars vars' c timer time_limit :
  vars ≡ₚ vars' ->
  rothberg_call_for n vars c ->
  rothberg_call_for n vars'
    (Rothberg.mkCall timer time_limit (Rothberg.getIncumbentObjValue c)
       (Rothberg.cplex_getValues c) (Rothberg.mutations c)
       (Rothberg.random_consider_all c) (Rothberg.recombinations c)).
Proof.
  intros Hperm (Hlen & Hm & Hr). split; [exact Hlen|]. split; [|exact Hr].
  intros i. destruct (Hm i) as [Hs Ha]. split; [|exact Ha].
  cbn [Rothberg.mutations]. now rewrite Hs.
Qed.

Lemma offered_by_rothberg_for n vars c solution value :
  rothberg_call_for n vars c -> offered_by_rothberg c solution value -> length solution = n.
Proof.
  intros (_ & Hm & Hr) (i & [(Hsolve & <- & _) | (Hsolve & <- & _)]).
  - destruct (Hm i) as [_ Ha]. now apply Ha.
  - now apply (Hr i).
Qed.

(** While the callback holds a heuristic for the problem and the pool is
    as the two callbacks keep it, every event is defined. *)
Lemma session_defined n vars cb p events :
  (exists h, HeuristicCallback.heuristic_ cb = Some h
             /\ rothberg_for n h
             /\ Rothberg.binary_variables_ h ≡ₚ vars
             /\ Rothberg.num_recombinations_ h <> 0%Z) ->
  pool_for n p ->
  without_repetitions (SolutionPool.entries_ p) ->
  Forall (event_for n vars) events ->
  exists cb' p',
    session cb p events = Ok (cb', p')
    /\ pool_for n p'
    /\ without_repetitions (SolutionPool.entries_ p')
    /\ SolutionPool.max_size_ p' = SolutionPool.max_size_ p.
Proof.
  intros Hcb Hpool Hrep Hevents. revert cb p Hcb Hpool Hrep.
  induction Hevents as [|e events He _ IH]; intros cb p Hcb Hpool Hrep.
  - exists cb, p. cbn [session]. split; [reflexivity|]. split; [exact Hpool|].
    split; [exact Hrep | reflexivity].
  - destruct e as [getObjValue getValues | Nnodes64 reads]; cbn [session].
    + destruct He as [Hlen Hfin].
      destruct (pool_callback_defined n p getObjValue getValues Hpool Hrep Hlen Hfin)
        as (p1 & -> & Hpool1 & Hrep1 & Hmax1).
      cbn [bind]. destruct (IH cb p1 Hcb Hpool1 Hrep1) as (cb' & p' & -> & H1 & H2 & H3).
      exists cb', p'. split; [reflexivity|]. split; [exact H1|]. split; [exact H2|].
      congruence.
    + destruct Hcb as (h & Hh & Hfor & Hperm & Hrec).
      unfold HeuristicCallback.main. rewrite Hh.
      destruct (HeuristicCallback.fires cb Nnodes64).
      2:{ cbn [bind fst snd]. apply IH; [|exact Hpool|exact Hrep].
          exists h. split; [exact Hh|]. split; [exact Hfor|]. split; assumption. }
      cbn [run Rothberg_Heuristic].
      set (c := Rothberg.mkCall (HeuristicCallback.timer_ cb) (HeuristicCallback.time_limit_ cb)
                  (Rothberg.getIncumbentObjValue reads) (Rothberg.cplex_getValues reads)
                  (Rothberg.mutations reads) (Rothberg.random_consider_all reads)
                  (Rothberg.recombinations reads)).
      assert (Hcall : rothberg_call_for n (Rothberg.binary_variables_ h) c).
      { apply (rothberg_call_for_perm n vars); [now symmetry | exact He]. }
      destruct (rothberg_run_well_formed n h p c Hfor Hpool Hcall Hrec)
        as (s & Hrun & Hfor' & Hpool' & Hperm' & Hrec' & _).
      rewrite Hrun. cbn [bind fst snd].
      pose proof (rothberg_run_pool_steps _ _ _ _ Hrun) as Hsteps.
      destruct (pool_steps_without_repetitions n _ _ _
                  (fun solution value => offered_by_rothberg_for n _ c solution value Hcall)
                  Hsteps (proj1 Hpool) Hrep)
        as [_ Hrep'].
      destruct (IH (HeuristicCallback.mk (Some (heuristic s)) (HeuristicCallback.frequency_ cb)
                      (HeuristicCallback.timer_ cb) (HeuristicCallback.time_limit_ cb))
                  (pool s)) as (cb' & p' & -> & H1 & H2 & H3).
      * exists (heuristic s). split; [reflexivity|]. split; [exact Hfor'|].
        split; [now rewrite Hperm' | now rewrite Hrec'].
      * exact Hpool'.
      * exact Hrep'.
      * exists cb', p'. split; [reflexivity|]. split; [exact H1|]. split; [exact H2|].
        rewrite H3. eapply pool_steps_max_size, Hsteps.
Qed.

Lemma binary_from_count variables :
  (length (binary_from 0 variables) <= length variables)%nat.
Proof.
  assert (H : forall k, (length (binary_from k variables) <= length variables)%nat).
  { induction variables as [|v variables IH]; intros k; simpl; [lia|].
    destruct (is_binary v); simpl; specialize (IH (S k)); lia. }
  apply H.
Qed.

(** X29.  The pool and Rothberg's heuristic under the callbacks main.cpp
    installs.  Start from an empty pool and a heuristic the constructor
    built with a fixing fraction in [0, 1], offsets that are not negative
    and a number of recombinations that is not 0; let CPLEX report
    incumbents of the problem's dimension with finite values and reach
    nodes, in any order, with sub-MIP answers of that dimension.  Then no
    call reads or writes past the end of a vector, takes a remainder by
    zero or converts a number out of range, and in the end the pool holds
    at most [max_size] solutions of that dimension, no two of them similar.
    (What [std::sort] requires of the comparator is another matter.) *)
Theorem session_stays_defined (variables : list NumVar) (sense : Sense)
    (recombinations mutations : Z)
    (fixing_fraction offset_init offset_reduction offset_minimum : Q)
    (submip_nodes_unsuccessful frequency : Z) (timer : bool) (time_limit : Q)
    (max_size : nat) (sorted : bool) (events : list (Event Rothberg.t)) :
  let h := Rothberg.new variables sense recombinations mutations fixing_fraction
             offset_init offset_reduction offset_minimum submip_nodes_unsuccessful in
  let n := length variables in
  (Z.of_nat n <= ULLONG_MAX)%Z ->
  (Z.of_nat max_size <= ULLONG_MAX)%Z ->
  0 <= fixing_fraction <= 1 ->
  0 <= offset_init ->
  0 <= offset_minimum ->
  to_ull recombinations <> 0%Z ->
  Forall (event_for n (Rothberg.binary_variables_ h)) events ->
  exists cb' p',
    session (HeuristicCallback.create_instance (Some h) frequency timer time_limit)
      (SolutionPool.new sense max_size sorted) events = Ok (cb', p')
    /\ (SolutionPool.size p' <= max_size)%nat
    /\ dimension n (SolutionPool.entries_ p')
    /\ without_repetitions (SolutionPool.entries_ p').
Proof.
  intros h n Hn Hmax Hff Hoff Hmin Hrec Hevents.
  pose proof (binary_from_in_range variables) as Hrange.
  destruct (session_defined n (Rothberg.binary_variables_ h)
              (HeuristicCallback.create_instance (Some h) frequency timer time_limit)
              (SolutionPool.new sense max_size sorted) events)
    as (cb' & p' & Hsession & (Hdim & Hsize & _) & Hrep & Hm).
  - exists h. split; [reflexivity|]. split; [|split; [reflexivity | exact Hrec]].
    split; [exact Hrange|]. split.
    + pose proof (binary_from_count variables). cbn [h Rothberg.new Rothberg.binary_variables_].
      unfold n in Hn. lia.
    + split; [exact Hff|]. split; assumption.
  - split; [constructor|]. split; [cbn; lia | exact Hmax].
  - apply without_repetitions_nil.
  - exact Hevents.
  - exists cb', p'. split; [exact Hsession|].
    cbn [SolutionPool.new SolutionPool.max_size_] in Hm.
    split; [unfold SolutionPool.size in *; lia|]. split; assumption.
Qed.

Lemma session_stays_defined_witness :
  exists cb' p',
    session (HeuristicCallback.create_instance (Some (demo_rothberg 2)) 100 false 0)
      (SolutionPool.new Minimize 3 true) demo_events = Ok (cb', p')
    /\ (SolutionPool.size p' <= 3)%nat
    /\ dimension 3 (SolutionPool.entries_ p')
    /\ without_repetitions (SolutionPool.entries_ p').
Proof.
  assert (Hcall : rothberg_call_for 3 [0%nat; 1%nat] demo_call).
  { split; [reflexivity|]. split.
    - intros i. split; [cbn; apply perm_swap | intros Hsolve; discriminate].
    - intros i _. split; [reflexivity|]. unfold finite. vm_compute. intuition congruence. }
  apply (session_stays_defined demo_variables Minimize 2 2 (1 # 2) (Binary64.round (1 # 5))
           (1 # 4) (Binary64.round (1 # 100))
           100 100 false 0 3 true demo_events).
  - vm_compute. congruence.
  - vm_compute. congruence.
  - vm_compute. intuition congruence.
  - vm_compute. congruence.
  - vm_compute. congruence.
  - vm_compute. congruence.
  - unfold demo_events.
    constructor; [split; [reflexivity | unfold finite; vm_compute; intuition congruence]|].
    constructor; [exact Hcall|].
    constructor; [split; [reflexivity | unfold finite; vm_compute; intuition congruence]|].
    constructor; [exact Hcall | constructor].
Defined.

(** ** The comparator and the requirement of [std::sort] *)

Lemma close_sym a b : close a b -> close b a.
Proof. unfold close. now rewrite round_distance_sym. Qed.

Lemma close_near a b : close a b -> Qabs (a - b) < Binary64.d1e_5.
Proof.
  unfold close, SolutionPool.SIMILARITY_THRESHOLD. rewrite round_abs.
  apply round_lt_double, is_double_d1e_5.
Qed.

Lemma not_close_far a b : ~ close a b -> Binary64.d1e_5 * (1 # 2) < Qabs (a - b).
Proof.
  unfold close, SolutionPool.SIMILARITY_THRESHOLD. intros H.
  apply Qnot_le_lt. intros Hle. apply H. rewrite round_abs.
  apply Qle_lt_trans with (Binary64.d1e_5 * (1 # 2)); [|reflexivity].
  apply round_le_double; [apply is_double_half_d1e_5 | exact Hle].
Qed.

Lemma before_close sense e1 e2 :
  close (SolutionPool.value e1) (SolutionPool.value e2) ->
  SolutionPool.before sense e1 e2 = (SolutionPool.age e1 <? SolutionPool.age e2)%Z.
Proof.
  unfold close, SolutionPool.before. intros H. apply Qltb_lt in H. now rewrite H.
Qed.

Lemma before_far sense e1 e2 :
  ~ close (SolutionPool.value e1) (SolutionPool.value e2) ->
  SolutionPool.before sense e1 e2
  = match sense with
    | Minimize => Qltb (SolutionPool.value e1) (SolutionPool.value e2)
    | Maximize => Qltb (SolutionPool.value e2) (SolutionPool.value e1)
    end.
Proof.
  unfold close, SolutionPool.before. intros H.
  destruct (Qltb (Qabs _) _) eqn:E; [apply Qltb_lt in E; contradiction | reflexivity].
Qed.

Lemma close_dec a b : close a b \/ ~ close a b.
Proof.
  unfold close. destruct (Qlt_le_dec (Qabs (Binary64.round (a - b)))
                            SolutionPool.SIMILARITY_THRESHOLD); [now left | right; lra].
Qed.

Lemma Qabs_gt (c x : Q) : c < Qabs x -> x < - c \/ c < x.
Proof.
  intros H. destruct (Qlt_le_dec x 0) as [Hx | Hx].
  - rewrite Qabs_neg in H by lra. left. lra.
  - rewrite Qabs_pos in H by lra. now right.
Qed.

Lemma Qabs_gt_inv (c x : Q) : x < - c \/ c < x -> 0 <= c -> c < Qabs x.
Proof.
  intros [H | H] Hc.
  - rewrite Qabs_neg by lra. lra.
  - rewrite Qabs_pos by lra. exact H.
Qed.

(** Values: [v1] near [v2], and [v3] away from both and beyond [v2], is
    beyond [v1] too. *)
Lemma beyond_near (t v1 v2 v3 : Q) :
  0 < t -> Qabs (v1 - v2) < t ->
  t * (1 # 2) < Qabs (v2 - v3) -> t * (1 # 2) < Qabs (v1 - v3) ->
  (v2 < v3 -> v1 < v3) /\ (v3 < v2 -> v3 < v1).
Proof.
  intros Ht H12 H23 H13. apply Qabs_Qlt_condition in H12.
  apply Qabs_gt in H23, H13. split; intros H; destruct H23, H13; lra.
Qed.

(** Among values that fall into groups the comparator is transitive. *)
Lemma before_trans sense e1 e2 e3 :
  (close (SolutionPool.value e1) (SolutionPool.value e2) ->
   close (SolutionPool.value e2) (SolutionPool.value e3) ->
   close (SolutionPool.value e1) (SolutionPool.value e3)) ->
  (close (SolutionPool.value e2) (SolutionPool.value e1) ->
   close (SolutionPool.value e1) (SolutionPool.value e3) ->
   close (SolutionPool.value e2) (SolutionPool.value e3)) ->
  (close (SolutionPool.value e1) (SolutionPool.value e3) ->
   close (SolutionPool.value e3) (SolutionPool.value e2) ->
   close (SolutionPool.value e1) (SolutionPool.value e2)) ->
  SolutionPool.before sense e1 e2 = true ->
  SolutionPool.before sense e2 e3 = true ->
  SolutionPool.before sense e1 e3 = true.
Proof.
  intros G1 G2 G3.
  assert (Ht : 0 < Binary64.d1e_5) by reflexivity.
  destruct (close_dec (SolutionPool.value e1) (SolutionPool.value e2)) as [C12 | C12];
    destruct (close_dec (SolutionPool.value e2) (SolutionPool.value e3)) as [C23 | C23].
  - rewrite (before_close _ _ _ C12), (before_close _ _ _ C23),
      (before_close _ _ _ (G1 C12 C23)).
    intros H1 H2. apply Z.ltb_lt in H1, H2. apply Z.ltb_lt. lia.
  - assert (C13 : ~ close (SolutionPool.value e1) (SolutionPool.value e3)).
    { intros C13. apply C23. apply G2; [now apply close_sym | exact C13]. }
    rewrite (before_far _ _ _ C23), (before_far _ _ _ C13). intros _.
    apply close_near in C12. apply not_close_far in C23, C13.
    destruct (beyond_near _ _ _ _ Ht C12 C23 C13) as [B1 B2].
    destruct sense; intros H; apply Qltb_lt in H; apply Qltb_lt; auto.
  - assert (C13 : ~ close (SolutionPool.value e1) (SolutionPool.value e3)).
    { intros C13. apply C12. apply G3; [exact C13 | now apply close_sym]. }
    rewrite (before_far _ _ _ C12), (before_far _ _ _ C13). intros H _. revert H.
    apply close_sym, close_near in C23.
    assert (C21 : ~ close (SolutionPool.value e2) (SolutionPool.value e1))
      by (intros C; apply C12; now apply close_sym).
    assert (C31 : ~ close (SolutionPool.value e3) (SolutionPool.value e1))
      by (intros C; apply C13; now apply close_sym).
    apply not_close_far in C21, C31.
    destruct (beyond_near _ _ _ _ Ht C23 C21 C31) as [B1 B2].
    destruct sense; intros H; apply Qltb_lt in H; apply Qltb_lt; auto.
  - rewrite (before_far _ _ _ C12), (before_far _ _ _ C23).
    apply not_close_far in C12, C23. apply Qabs_gt in C12, C23.
    unfold Binary64.d1e_5 in *.
    assert (Hfar : forall a b, a < b - Binary64.d1e_5 -> ~ close a b).
    { intros a b Hab Hc. apply close_near, Qabs_Qlt_condition in Hc.
      unfold Binary64.d1e_5 in *. lra. }
    destruct sense; intros H1 H2; apply Qltb_lt in H1, H2; destruct C12, C23; try lra.
    + rewrite before_far; [apply Qltb_lt; lra|]. apply Hfar.
      unfold Binary64.d1e_5. lra.
    + rewrite before_far; [apply Qltb_lt; lra|].
      intros C. apply close_sym in C. revert C. apply Hfar.
      unfold Binary64.d1e_5. lra.
Qed.

Lemma same_age_same_entry (es : list SolutionPool.Entry) a b :
  NoDup (map SolutionPool.age es) -> a ∈ es -> b ∈ es ->
  SolutionPool.age a = SolutionPool.age b -> a = b.
Proof.
  induction es as [|e es IH]; intros Hnd Ha Hb Hage; [inversion Ha|].
  simpl in Hnd. apply NoDup_cons in Hnd as [Hnotin Hnd].
  assert (Hin : forall x, x ∈ es -> SolutionPool.age x ∈ map SolutionPool.age es).
  { intros x Hx. apply list_elem_of_In, in_map, list_elem_of_In, Hx. }
  apply elem_of_cons in Ha as [-> | Ha]; apply elem_of_cons in Hb as [-> | Hb].
  - reflexivity.
  - exfalso. apply Hnotin. rewrite Hage. now apply Hin.
  - exfalso. apply Hnotin. rewrite <- Hage. now apply Hin.
  - now apply IH.
Qed.

Lemma before_incomparable sense (es : list SolutionPool.Entry) a b :
  NoDup (map SolutionPool.age es) -> a ∈ es -> b ∈ es ->
  SolutionPool.before sense a b = false -> SolutionPool.before sense b a = false -> a = b.
Proof.
  intros Hnd Ha Hb H1 H2. apply (same_age_same_entry es); try assumption.
  destruct (Z.eq_dec (SolutionPool.age a) (SolutionPool.age b)) as [E | N]; [exact E|].
  pose proof (before_decides sense a b N) as H. rewrite H1, H2 in H. discriminate.
Qed.

(** X30.  When the comparator meets the requirement of [std::sort].
    Between entries of different ages whose values fall into groups (two
    values close to a third are close to each other; so with values that
    are all 1e-5 or more apart, or all equal) the comparator is a strict
    weak ordering, and the range it sorts has one sorted arrangement, the
    one the model computes.  Three successive insertions of values 0,
    0.000006 and 0.000012 give a pool on which it is not: the comparator
    puts the third before the second and the second before the first, but
    the first before the third. *)
Theorem sort_requirement :
  (forall sense es,
      NoDup (map SolutionPool.age es) ->
      grouped es ->
      strict_weak_ordering (SolutionPool.before sense) es
      /\ forall es',
           es ≡ₚ es' ->
           StronglySorted (ordered_by (SolutionPool.before sense)) es' ->
           es' = std_sort (SolutionPool.before sense) es)
  /\ (SolutionPool.add_entries (SolutionPool.new Minimize 3 true) near_values = Ok pool_near
      /\ NoDup (map SolutionPool.age (SolutionPool.entries_ pool_near))
      /\ ~ strict_weak_ordering (SolutionPool.before Minimize)
             (SolutionPool.entries_ pool_near)).
Proof.
  split.
  - intros sense es Hnd Hg.
    assert (Htrans : forall a b c, a ∈ es -> b ∈ es -> c ∈ es ->
                                   SolutionPool.before sense a b = true ->
                                   SolutionPool.before sense b c = true ->
                                   SolutionPool.before sense a c = true).
    { intros a b c Ha Hb Hc. apply before_trans.
      - now apply Hg.
      - now apply Hg.
      - now apply Hg. }
    split.
    + split; [|split].
      * intros a _. destruct (SolutionPool.before sense a a) eqn:E; [|reflexivity].
        pose proof (before_asym _ _ _ E). congruence.
      * exact Htrans.
      * intros a b c Ha Hb Hc H1 H2 H3 H4.
        assert (a = b) by (eapply before_incomparable; eassumption).
        assert (b = c) by (eapply before_incomparable; eassumption).
        subst. split; assumption.
    + intros es' Hperm Hsorted.
      apply (std_sort_unique (SolutionPool.before sense) es); try assumption.
      * intros a b _ _. apply before_asym.
      * intros a b Ha Hb. now apply (before_incomparable sense es).
  - split; [vm_compute; reflexivity|]. split.
    + unfold pool_near. cbn [SolutionPool.entries_ map SolutionPool.age].
      repeat constructor; cbn; intros H;
        repeat (apply elem_of_cons in H as [H | H]; [discriminate|]); inversion H.
    + intros (_ & Htrans & _). unfold pool_near in Htrans.
      cbn [SolutionPool.entries_] in Htrans.
      match type of Htrans with
      | forall a b c, a ∈ [?x; ?y; ?z] -> _ =>
          assert (Hx : x ∈ [x; y; z]) by (left);
          assert (Hy : y ∈ [x; y; z]) by (right; left);
          assert (Hz : z ∈ [x; y; z]) by (right; right; left);
          pose proof (Htrans x y z Hx Hy Hz) as T1;
          pose proof (Htrans y z x Hy Hz Hx) as T2;
          pose proof (Htrans z x y Hz Hx Hy) as T3
      end.
      vm_compute in T1, T2, T3.
      first [ specialize (T1 eq_refl eq_refl); discriminate
            | specialize (T2 eq_refl eq_refl); discriminate
            | specialize (T3 eq_refl eq_refl); discriminate ].
Qed.

Lemma sort_requirement_witness :
  strict_weak_ordering (SolutionPool.before Minimize) (SolutionPool.entries_ pool_full).
Proof.
  apply (proj1 sort_requirement Minimize (SolutionPool.entries_ pool_full)).
  - unfold pool_full. cbn [SolutionPool.entries_ map SolutionPool.age].
    repeat constructor; cbn; intros H;
      repeat (apply elem_of_cons in H as [H | H]; [discriminate|]); inversion H.
  - intros e1 e2 e3 H1 H2 H3. unfold pool_full in H1, H2, H3.
    cbn [SolutionPool.entries_] in H1, H2, H3.
    repeat (apply elem_of_cons in H1 as [-> | H1]); try (inversion H1);
      repeat (apply elem_of_cons in H2 as [-> | H2]); try (inversion H2);
      repeat (apply elem_of_cons in H3 as [-> | H3]); try (inversion H3);
      unfold close; vm_compute; intros C1 C2; congruence.
Defined.
